(** * LVGL C++ importer / exporter: a shallow embedding

    The development follows the TypeScript sources of the Arduino LVGL
    builder: the line-based parser ([LVGLCppParser], cpp-parser.ts), the
    importer ([mapWidgetType], [convertWidget], [createProjectFromArduino],
    arduino-importer.ts) and the code generator ([LVGLCodeGenerator],
    arduino-exporter.ts).

    Modelling conventions.
    - A JavaScript string is a sequence of code units; the model keeps the
      code units below 256 and writes a string as [list ascii].
    - A JavaScript number that the code obtains from [parseInt] is an
      integer; it is modelled as [Z] (exact below 2^53).
    - A widget object lives in a store and is referred to by its index:
      [this.widgets] is the store itself (every widget object is pushed
      there when it is created), [widgetMap] and [children] hold indices.
    - An object literal used as a lookup table is a finite table of its
      own properties on top of the members that every object inherits
      from [Object.prototype]; the code compares the result of a lookup
      with string literals, interpolates it into a template or uses it as
      a property key, all of which see a value that is not a string
      through the text that [String] gives it, so an inherited member is
      written as that text.  A [Map] is an association list in insertion
      order. *)

From Stdlib Require Import ZArith String Ascii List Lia Bool DecimalString DecimalPos.
From stdpp Require Import base option list.

Import ListNotations.
Local Open Scope list_scope.

(** ** Strings *)

Abbreviation jstring := (list ascii).

Definition str (s : string) : jstring := list_ascii_of_string s.

Fixpoint jeqb (a b : jstring) : bool :=
  match a, b with
  | [], [] => true
  | c :: a', d :: b' => Ascii.eqb c d && jeqb a' b'
  | _, _ => false
  end.

Definition code (c : ascii) : nat := nat_of_ascii c.

Definition is_digit (c : ascii) : bool :=
  (48 <=? code c) && (code c <=? 57).

Definition is_upper (c : ascii) : bool :=
  (65 <=? code c) && (code c <=? 90).

Definition is_lower (c : ascii) : bool :=
  (97 <=? code c) && (code c <=? 122).

(** [\w] *)
Definition is_word (c : ascii) : bool :=
  is_upper c || is_lower c || is_digit c || (code c =? 95).

(** [\s], and the characters removed by [trim]: TAB, LF, VT, FF, CR, SPACE
    and NBSP are the white space and line terminators below 256. *)
Definition is_space (c : ascii) : bool :=
  ((9 <=? code c) && (code c <=? 13)) || (code c =? 32) || (code c =? 160).

(** [[0-9A-Fa-f]] *)
Definition is_hex (c : ascii) : bool :=
  is_digit c
  || ((65 <=? code c) && (code c <=? 70))
  || ((97 <=? code c) && (code c <=? 102)).

(** [[^x]] *)
Definition is_not (x : ascii) (c : ascii) : bool :=
  negb (Ascii.eqb c x).

Fixpoint dropWhile (p : ascii -> bool) (s : jstring) : jstring :=
  match s with
  | [] => []
  | c :: s' => if p c then dropWhile p s' else s
  end.

(** [String.prototype.trim] *)
Definition trim (s : jstring) : jstring :=
  rev (dropWhile is_space (rev (dropWhile is_space s))).

(** [s.split('\n')] *)
Definition newline : ascii := ascii_of_nat 10.

Fixpoint split_lines (s : jstring) : list jstring :=
  match s with
  | [] => [[]]
  | c :: s' =>
      if Ascii.eqb c newline then [] :: split_lines s'
      else match split_lines s' with
           | l :: ls => (c :: l) :: ls
           | [] => [[c]]
           end
  end.

(** [lines.join('\n')] *)
Fixpoint join_lines (ls : list jstring) : jstring :=
  match ls with
  | [] => []
  | [l] => l
  | l :: ls' => l ++ newline :: join_lines ls'
  end.

Fixpoint strip_prefix (p s : jstring) : option jstring :=
  match p with
  | [] => Some s
  | c :: p' =>
      match s with
      | [] => None
      | d :: s' => if Ascii.eqb c d then strip_prefix p' s' else None
      end
  end.

(** [hay.includes(needle)] *)
Fixpoint includes (needle hay : jstring) : bool :=
  match strip_prefix needle hay with
  | Some _ => true
  | None => match hay with
            | [] => false
            | _ :: hay' => includes needle hay'
            end
  end.

(** ** Regular expressions

    The patterns of the parser use literals, greedy repetitions of a
    character class and capture groups without nesting.  The matcher is
    the backtracking matcher of ECMAScript, in continuation-passing style:
    a greedy repetition first tries the longest run and gives characters
    back one at a time. *)

Inductive atom : Type :=
| Lit (s : jstring)
| Star (p : ascii -> bool)
| Plus (p : ascii -> bool).

Inductive item : Type :=
| A (a : atom)
| Group (g : list atom).

Abbreviation regex := (list item).

Section Matcher.
Context {R : Type}.

Fixpoint star (p : ascii -> bool) (s : jstring)
    (k : jstring -> option R) : option R :=
  match s with
  | [] => k []
  | c :: s' =>
      if p c then
        match star p s' k with
        | Some r => Some r
        | None => k s
        end
      else k s
  end.

Definition match_atom (a : atom) (s : jstring)
    (k : jstring -> option R) : option R :=
  match a with
  | Lit l => match strip_prefix l s with
             | Some s' => k s'
             | None => None
             end
  | Star p => star p s k
  | Plus p => match s with
              | c :: s' => if p c then star p s' k else None
              | [] => None
              end
  end.

Fixpoint match_atoms (g : list atom) (s : jstring)
    (k : jstring -> option R) : option R :=
  match g with
  | [] => k s
  | a :: g' => match_atom a s (fun s' => match_atoms g' s' k)
  end.
End Matcher.

(** The text consumed between [s] and its suffix [s']. *)
Definition consumed (s s' : jstring) : jstring :=
  take (length s - length s') s.

Fixpoint match_items (r : regex) (s : jstring) (caps : list jstring)
    : option (list jstring) :=
  match r with
  | [] => Some caps
  | A a :: r' => match_atom a s (fun s' => match_items r' s' caps)
  | Group g :: r' =>
      match_atoms g s
        (fun s' => match_items r' s' (caps ++ [consumed s s']))
  end.

Arguments consumed : simpl never.

(** [s.match(r)] for a pattern without the global flag: the leftmost
    match, reported as the list of its captures [m[1]], [m[2]], ... *)
Fixpoint re_match (r : regex) (s : jstring) : option (list jstring) :=
  match match_items r s [] with
  | Some caps => Some caps
  | None => match s with
            | [] => None
            | _ :: s' => re_match r s'
            end
  end.

Definition L (s : string) : atom := Lit (str s).
Definition W : atom := Plus is_word.
Definition S0 : atom := Star is_space.
Definition dquote : ascii := ascii_of_nat 34.
Definition Not (x : string) : atom :=
  match x with
  | String c _ => Plus (is_not c)
  | EmptyString => Plus (is_not dquote)
  end.
Definition NotQ : atom := Plus (is_not dquote).

(** [/(\w+)\s*=\s*lv_(\w+)_create\(([^)]+)\)\s*;/] *)
Definition createRe : regex :=
  [Group [W]; A S0; A (L "="); A S0; A (L "lv_"); Group [W];
   A (L "_create("); Group [Not ")"]; A (L ")"); A S0; A (L ";")].

(** [/lv_obj_t\s*\*\s*(\w+)\s*=\s*NULL\s*;/] *)
Definition globalVarRe : regex :=
  [A (L "lv_obj_t"); A S0; A (L "*"); A S0; Group [W]; A S0;
   A (L "="); A S0; A (L "NULL"); A S0; A (L ";")].

(** The text setter: [lv_\w+_set_text\(], a word, a comma, white space,
    a double quote, one or more characters other than a double quote, a
    double quote, white space and a closing parenthesis. *)
Definition textRe : regex :=
  [A (L "lv_"); A W; A (L "_set_text("); Group [W]; A (L ","); A S0;
   A (Lit [dquote]); Group [NotQ]; A (Lit [dquote]); A S0; A (L ")")].

(** [/lv_obj_set_size\((\w+),\s*([^,]+),\s*([^)]+)\)/] *)
Definition sizeRe : regex :=
  [A (L "lv_obj_set_size("); Group [W]; A (L ","); A S0; Group [Not ","];
   A (L ","); A S0; Group [Not ")"]; A (L ")")].

(** [/lv_\w+_set_value\((\w+),\s*([^)]+)\)/] *)
Definition valueRe : regex :=
  [A (L "lv_"); A W; A (L "_set_value("); Group [W]; A (L ","); A S0;
   Group [Not ")"]; A (L ")")].

(** [/lv_\w+_set_range\((\w+),\s*([^,]+),\s*([^)]+)\)/] *)
Definition rangeRe : regex :=
  [A (L "lv_"); A W; A (L "_set_range("); Group [W]; A (L ","); A S0;
   Group [Not ","]; A (L ","); A S0; Group [Not ")"]; A (L ")")].

(** [/lv_obj_set_style_bg_color\((\w+),\s*lv_color_hex\((0x[0-9A-Fa-f]+)\)/] *)
Definition bgColorRe : regex :=
  [A (L "lv_obj_set_style_bg_color("); Group [W]; A (L ","); A S0;
   A (L "lv_color_hex("); Group [L "0x"; Plus is_hex]; A (L ")")].

(** [/lv_obj_set_style_text_color\((\w+),\s*lv_color_hex\((0x[0-9A-Fa-f]+)\)/] *)
Definition textColorRe : regex :=
  [A (L "lv_obj_set_style_text_color("); Group [W]; A (L ","); A S0;
   A (L "lv_color_hex("); Group [L "0x"; Plus is_hex]; A (L ")")].

(** [/lv_obj_set_style_text_font\((\w+),\s*&(lv_font_\w+)/] *)
Definition fontRe : regex :=
  [A (L "lv_obj_set_style_text_font("); Group [W]; A (L ","); A S0;
   A (L "&"); Group [L "lv_font_"; W]].

(** [/lv_obj_set_style_radius\((\w+),\s*([^,]+)/] *)
Definition radiusRe : regex :=
  [A (L "lv_obj_set_style_radius("); Group [W]; A (L ","); A S0;
   Group [Not ","]].

(** [/lv_obj_set_style_border_opa\((\w+),\s*([^,]+)/] *)
Definition borderOpaRe : regex :=
  [A (L "lv_obj_set_style_border_opa("); Group [W]; A (L ","); A S0;
   Group [Not ","]].

(** [/lv_obj_align\((\w+),\s*([^,]+),\s*([^,]+),\s*([^)]+)\)/] *)
Definition alignRe : regex :=
  [A (L "lv_obj_align("); Group [W]; A (L ","); A S0; Group [Not ","];
   A (L ","); A S0; Group [Not ","]; A (L ","); A S0; Group [Not ")"];
   A (L ")")].

(** [/lv_obj_center\((\w+)\)/] *)
Definition centerRe : regex :=
  [A (L "lv_obj_center("); Group [W]; A (L ")")].

(** [/LV_PCT\((\d+)\)/] *)
Definition pctRe : regex :=
  [A (L "LV_PCT("); Group [Plus is_digit]; A (L ")")].

(** ** Numbers *)

Definition digit_value (c : ascii) : Z :=
  if is_digit c then Z.of_nat (code c) - 48
  else if is_upper c then Z.of_nat (code c) - 55
  else Z.of_nat (code c) - 87.

Fixpoint takeWhile (p : ascii -> bool) (s : jstring) : jstring :=
  match s with
  | [] => []
  | c :: s' => if p c then c :: takeWhile p s' else []
  end.

Definition digits_value (radix : Z) (ds : jstring) : Z :=
  fold_left (fun acc c => acc * radix + digit_value c)%Z ds 0%Z.

(** [parseInt(s)] without a radix; [None] stands for [NaN]. *)
Definition parseInt (s : jstring) : option Z :=
  let s1 := dropWhile is_space s in
  let '(neg, s2) :=
    match s1 with
    | c :: r => if Ascii.eqb c "-" then (true, r)
                else if Ascii.eqb c "+" then (false, r)
                else (false, s1)
    | [] => (false, s1)
    end in
  let '(radix, isdig, s3) :=
    match s2 with
    | z :: x :: r =>
        if Ascii.eqb z "0" && (Ascii.eqb x "x" || Ascii.eqb x "X")
        then (16%Z, is_hex, r) else (10%Z, is_digit, s2)
    | _ => (10%Z, is_digit, s2)
    end in
  match takeWhile isdig s3 with
  | [] => None
  | ds => Some (if neg then - digits_value radix ds
                else digits_value radix ds)%Z
  end.

(** [String(n)] for an integer. *)
Definition string_of_Z (n : Z) : jstring :=
  str (NilZero.string_of_int (Z.to_int n)).

(** A size component: [number | string]. *)
Inductive sizeval : Type :=
| SNum (n : Z)
| SStr (s : jstring).

(** [parseSize] *)
Definition parseSize (sizeStr : jstring) : sizeval :=
  let pct :=
    if includes (str "LV_PCT") sizeStr then
      match re_match pctRe sizeStr with
      | Some (n :: _) => Some (SStr (n ++ str "%"))
      | _ => None
      end
    else None in
  match pct with
  | Some v => v
  | None =>
      match parseInt sizeStr with
      | None => SStr sizeStr
      | Some num => SNum num
      end
  end.

(** ** Maps with string keys, in insertion order *)

Abbreviation jsmap V := (list (jstring * V)).

Fixpoint map_get {V} (k : jstring) (m : jsmap V) : option V :=
  match m with
  | [] => None
  | (k', v) :: m' => if jeqb k k' then Some v else map_get k m'
  end.

Definition map_has {V} (k : jstring) (m : jsmap V) : bool :=
  match map_get k m with Some _ => true | None => false end.

Fixpoint map_set {V} (k : jstring) (v : V) (m : jsmap V) : jsmap V :=
  match m with
  | [] => [(k, v)]
  | (k', v') :: m' =>
      if jeqb k k' then (k', v) :: m' else (k', v') :: map_set k v m'
  end.

Definition map_values {V} (m : jsmap V) : list V := map snd m.

(** ** The parser (cpp-parser.ts) *)

Record LVGLWidget : Type := mkWidget {
  type : jstring;
  variableName : jstring;
  parent : option jstring;
  properties : jsmap jstring;
  styles : jsmap jstring;
  position_x : Z;
  position_y : Z;
  size_width : sizeval;
  size_height : sizeval;
  children : list nat;
  sourceLineStart : nat;
  sourceLineEnd : nat
}.

Record ParsedLVGLFile : Type := mkParsed {
  fileName : jstring;
  widgets : list LVGLWidget;
  globalVariables : jsmap jstring;
  functions : jsmap (list jstring)
}.

(** The state of [parseWidgets]: the store [this.widgets] and the local
    [widgetMap] from identifiers to widget objects. *)
Record pstate : Type := mkState {
  st_widgets : list LVGLWidget;
  st_map : jsmap nat
}.

Definition set_property (k v : jstring) (w : LVGLWidget) : LVGLWidget :=
  mkWidget (type w) (variableName w) (parent w)
    (map_set k v (properties w)) (styles w)
    (position_x w) (position_y w) (size_width w) (size_height w)
    (children w) (sourceLineStart w) (sourceLineEnd w).

Definition set_style (k v : jstring) (w : LVGLWidget) : LVGLWidget :=
  mkWidget (type w) (variableName w) (parent w)
    (properties w) (map_set k v (styles w))
    (position_x w) (position_y w) (size_width w) (size_height w)
    (children w) (sourceLineStart w) (sourceLineEnd w).

Definition set_size (wd ht : sizeval) (w : LVGLWidget) : LVGLWidget :=
  mkWidget (type w) (variableName w) (parent w)
    (properties w) (styles w)
    (position_x w) (position_y w) wd ht
    (children w) (sourceLineStart w) (sourceLineEnd w).

Definition set_position (x y : Z) (w : LVGLWidget) : LVGLWidget :=
  mkWidget (type w) (variableName w) (parent w)
    (properties w) (styles w)
    x y (size_width w) (size_height w)
    (children w) (sourceLineStart w) (sourceLineEnd w).

Definition set_lineEnd (i : nat) (w : LVGLWidget) : LVGLWidget :=
  mkWidget (type w) (variableName w) (parent w)
    (properties w) (styles w)
    (position_x w) (position_y w) (size_width w) (size_height w)
    (children w) (sourceLineStart w) i.

Definition push_child (c : nat) (w : LVGLWidget) : LVGLWidget :=
  mkWidget (type w) (variableName w) (parent w)
    (properties w) (styles w)
    (position_x w) (position_y w) (size_width w) (size_height w)
    (children w ++ [c]) (sourceLineStart w) (sourceLineEnd w).

(** [const widget = widgetMap.get(varName); if (widget) { ... }] *)
Definition with_widget (varName : jstring)
    (f : LVGLWidget -> LVGLWidget) (st : pstate) : pstate :=
  match map_get varName (st_map st) with
  | Some idx => mkState (alter f idx (st_widgets st)) (st_map st)
  | None => st
  end.

(** The creation branch of the loop of [parseWidgets]. *)
Definition createWidget (line : jstring) (i : nat) (st : pstate) : pstate :=
  match re_match createRe line with
  | Some [varName; widgetType; parentArg] =>
      let parentName := trim parentArg in
      let widget :=
        mkWidget (str "lv_" ++ widgetType) varName
          (if jeqb parentName (str "parent") then None else Some parentName)
          [] [] 0%Z 0%Z (SStr (str "auto")) (SStr (str "auto")) [] i i in
      mkState (st_widgets st ++ [widget])
              (map_set varName (length (st_widgets st)) (st_map st))
  | _ => st
  end.

(** The four blocks of [parsePropertySetters]. *)
Definition textSetter (line : jstring) (lineIndex : nat) (st : pstate)
    : pstate :=
  match re_match textRe line with
  | Some [varName; text] =>
      with_widget varName
        (fun w => set_lineEnd lineIndex (set_property (str "text") text w))
        st
  | _ => st
  end.

Definition sizeSetter (line : jstring) (lineIndex : nat) (st : pstate)
    : pstate :=
  match re_match sizeRe line with
  | Some [varName; wd; ht] =>
      let width := parseSize (trim wd) in
      let height := parseSize (trim ht) in
      with_widget varName
        (fun w => set_lineEnd lineIndex (set_size width height w)) st
  | _ => st
  end.

Definition valueSetter (line : jstring) (lineIndex : nat) (st : pstate)
    : pstate :=
  match re_match valueRe line with
  | Some [varName; v] =>
      with_widget varName
        (fun w => set_lineEnd lineIndex
                    (set_property (str "value") (trim v) w)) st
  | _ => st
  end.

Definition rangeSetter (line : jstring) (lineIndex : nat) (st : pstate)
    : pstate :=
  match re_match rangeRe line with
  | Some [varName; mn; mx] =>
      with_widget varName
        (fun w => set_lineEnd lineIndex
                    (set_property (str "range_max") (trim mx)
                       (set_property (str "range_min") (trim mn) w))) st
  | _ => st
  end.

Definition parsePropertySetters (line : jstring) (lineIndex : nat)
    (st : pstate) : pstate :=
  rangeSetter line lineIndex
    (valueSetter line lineIndex
       (sizeSetter line lineIndex
          (textSetter line lineIndex st))).

Definition style_setter (re : regex) (key : string)
    (conv : jstring -> jstring) (line : jstring) (lineIndex : nat)
    (st : pstate) : pstate :=
  match re_match re line with
  | Some [varName; v] =>
      with_widget varName
        (fun w => set_lineEnd lineIndex (set_style (str key) (conv v) w)) st
  | _ => st
  end.

Definition parseStyleSetters (line : jstring) (lineIndex : nat)
    (st : pstate) : pstate :=
  style_setter borderOpaRe "border_opa" trim line lineIndex
    (style_setter radiusRe "radius" trim line lineIndex
       (style_setter fontRe "text_font" id line lineIndex
          (style_setter textColorRe "text_color" id line lineIndex
             (style_setter bgColorRe "bg_color" id line lineIndex st)))).

(** [parseInt(s) || 0] *)
Definition int_or_zero (s : jstring) : Z :=
  match parseInt s with
  | Some n => n
  | None => 0%Z
  end.

(** The two blocks of [parseLayoutFunctions]. *)
Definition alignSetter (line : jstring) (lineIndex : nat) (st : pstate)
    : pstate :=
  match re_match alignRe line with
  | Some [varName; al; xs; ys] =>
      let x := int_or_zero (trim xs) in
      let y := int_or_zero (trim ys) in
      with_widget varName
        (fun w => set_lineEnd lineIndex
                    (set_position x y
                       (set_property (str "align") (trim al) w))) st
  | _ => st
  end.

Definition centerSetter (line : jstring) (lineIndex : nat) (st : pstate)
    : pstate :=
  match re_match centerRe line with
  | Some [varName] =>
      with_widget varName
        (fun w => set_lineEnd lineIndex
                    (set_property (str "align") (str "LV_ALIGN_CENTER") w))
        st
  | _ => st
  end.

Definition parseLayoutFunctions (line : jstring) (lineIndex : nat)
    (st : pstate) : pstate :=
  centerSetter line lineIndex (alignSetter line lineIndex st).

(** One iteration of the loop of [parseWidgets], on line [i]. *)
Definition processLine (rawLine : jstring) (i : nat) (st : pstate) : pstate :=
  let line := trim rawLine in
  parseLayoutFunctions line i
    (parseStyleSetters line i
       (parsePropertySetters line i
          (createWidget line i st))).

(** The loop, from line [i] on. *)
Fixpoint processLines (lines : list jstring) (i : nat) (st : pstate)
    : pstate :=
  match lines with
  | [] => st
  | l :: ls => processLines ls (S i) (processLine l i st)
  end.

(** [if (widget.parent && ...)]: a string is truthy when it is not empty. *)
Definition truthy (s : jstring) : bool :=
  match s with [] => false | _ => true end.

(** One iteration of the loop of [buildHierarchy], for the widget [idx]
    taken from [widgetMap.values()]. *)
Definition linkWidget (m : jsmap nat) (store : list LVGLWidget) (idx : nat)
    : list LVGLWidget :=
  match store !! idx with
  | Some widget =>
      match parent widget with
      | Some p =>
          if truthy p && negb (jeqb p (str "parent")) then
            match map_get p m with
            | Some pidx => alter (push_child idx) pidx store
            | None => store
            end
          else store
      | None => store
      end
  | None => store
  end.

Definition buildHierarchy (st : pstate) : pstate :=
  mkState (fold_left (linkWidget (st_map st)) (map_values (st_map st))
             (st_widgets st))
          (st_map st).

Definition parseWidgets (lines : list jstring) : pstate :=
  buildHierarchy (processLines lines 0 (mkState [] [])).

Definition extractGlobalVariables (lines : list jstring) : jsmap jstring :=
  fold_left
    (fun gv l =>
       match re_match globalVarRe (trim l) with
       | Some [varName] => map_set varName (str "lv_obj_t") gv
       | _ => gv
       end) lines [].

(** [LVGLCppParser.parse] *)
Definition parse (fileName content : jstring) : ParsedLVGLFile :=
  let lines := split_lines content in
  mkParsed fileName
    (st_widgets (parseWidgets lines))
    (extractGlobalVariables lines)
    [].

(** [parseArduinoLVGLProject]: the loop over the files, for any per-file
    parser; [inl] is a thrown exception, which the loop catches. *)
Section Batch.
Context {E : Type}.
Variable parser : jstring -> jstring -> E + ParsedLVGLFile.

Definition batchStep (results : list ParsedLVGLFile)
    (file : jstring * jstring) : list ParsedLVGLFile :=
  match parser (fst file) (snd file) with
  | inr parsed =>
      if (0 <? length (widgets parsed))%nat then results ++ [parsed]
      else results
  | inl _ => results
  end.

Definition parseProjectWith (files : list (jstring * jstring))
    : list ParsedLVGLFile :=
  fold_left batchStep files [].
End Batch.

(** [LVGLCppParser.parse] never throws. *)
Definition tryParse (fileName content : jstring) : unit + ParsedLVGLFile :=
  inr (parse fileName content).

Definition parseArduinoLVGLProject (files : list (jstring * jstring))
    : list ParsedLVGLFile :=
  parseProjectWith tryParse files.

(** ** The importer (arduino-importer.ts) *)

(** The members of [Object.prototype], which a property access on an
    object literal finds when the literal has no property of that name:
    eleven built-in functions and the accessor [__proto__], which yields
    [Object.prototype] itself; each with its text under [String]. *)
Definition objectPrototype : list (string * string) :=
  [("constructor", "function Object() { [native code] }");
   ("__defineGetter__", "function __defineGetter__() { [native code] }");
   ("__defineSetter__", "function __defineSetter__() { [native code] }");
   ("hasOwnProperty", "function hasOwnProperty() { [native code] }");
   ("__lookupGetter__", "function __lookupGetter__() { [native code] }");
   ("__lookupSetter__", "function __lookupSetter__() { [native code] }");
   ("isPrototypeOf", "function isPrototypeOf() { [native code] }");
   ("propertyIsEnumerable",
    "function propertyIsEnumerable() { [native code] }");
   ("toString", "function toString() { [native code] }");
   ("valueOf", "function valueOf() { [native code] }");
   ("__proto__", "[object Object]");
   ("toLocaleString", "function toLocaleString() { [native code] }")]%string.

(** [mapping[k] || default] for an object literal [mapping]: the own
    property [k] when it is truthy; without an own property, the member
    of that name inherited from [Object.prototype] (always truthy);
    otherwise the default. *)
Definition lookup_or (table : list (string * string)) (default : string)
    (k : jstring) : jstring :=
  match map_get k (map (fun kv => (str (fst kv), str (snd kv))) table) with
  | Some v => match v with [] => str default | _ => v end
  | None =>
      match map_get k (map (fun kv => (str (fst kv), str (snd kv)))
                         objectPrototype) with
      | Some member => member
      | None => str default
      end
  end.

Definition widgetTypeTable : list (string * string) :=
  [("lv_obj", "LVGLContainerWidget");
   ("lv_label", "LVGLLabelWidget");
   ("lv_btn", "LVGLButtonWidget");
   ("lv_arc", "LVGLArcWidget");
   ("lv_slider", "LVGLSliderWidget");
   ("lv_bar", "LVGLBarWidget");
   ("lv_checkbox", "LVGLCheckboxWidget");
   ("lv_switch", "LVGLSwitchWidget");
   ("lv_dropdown", "LVGLDropdownWidget");
   ("lv_img", "LVGLImageWidget");
   ("lv_textarea", "LVGLTextareaWidget");
   ("lv_keyboard", "LVGLKeyboardWidget");
   ("lv_chart", "LVGLChartWidget");
   ("lv_table", "LVGLTableWidget");
   ("lv_spinner", "LVGLSpinnerWidget");
   ("lv_roller", "LVGLRollerWidget");
   ("lv_meter", "LVGLMeterWidget")]%string.

(** [mapWidgetType] *)
Definition mapWidgetType (lvglType : jstring) : jstring :=
  lookup_or widgetTypeTable "LVGLContainerWidget" lvglType.

(** The widget object built by [convertWidget] and read by the code
    generator.  [localStyles] is [None] for the empty object and
    [Some d] for [{definition: {MAIN: {DEFAULT: d}}}], where an entry
    [(k, v)] of [d] is the property [k: {type: literal, value: v}]. *)
Inductive EEZWidget : Type := mkEEZ {
  e_type : jstring;
  identifier : jstring;
  left : Z;
  top : Z;
  leftUnit : jstring;
  topUnit : jstring;
  width : sizeval;
  height : sizeval;
  widthUnit : jstring;
  heightUnit : jstring;
  e_children : list EEZWidget;
  localStyles : option (jsmap jstring);
  text : option jstring;
  textType : option jstring;
  value : option jstring;
  rangeMin : option jstring;
  rangeMax : option jstring;
  longMode : option jstring;
  recolor : option bool;
  checkable : option bool
}.

(** [typeof v === 'string' && v.includes('%') ? '%' : 'px'] *)
Definition unit_of (v : sizeval) : jstring :=
  match v with
  | SStr s => if includes (str "%") s then str "%" else str "px"
  | SNum _ => str "px"
  end.

Definition alignUnits (props : jsmap jstring) : jstring * jstring :=
  match map_get (str "align") props with
  | Some align =>
      let '(l, t) :=
        if includes (str "CENTER") align then (str "center", str "center")
        else if includes (str "LEFT") align then (str "left", str "px")
        else if includes (str "RIGHT") align then (str "right", str "px")
        else (str "px", str "px") in
      if includes (str "TOP") align then (l, str "top")
      else if includes (str "BOTTOM") align then (l, str "bottom")
      else (l, t)
  | None => (str "px", str "px")
  end.

Definition add_style (sty : jsmap jstring) (key : string)
    (conv : jstring -> jsmap jstring -> jsmap jstring)
    (definition : jsmap jstring) : jsmap jstring :=
  match map_get (str key) sty with
  | Some v => conv v definition
  | None => definition
  end.

Definition styleDefinition (sty : jsmap jstring) : jsmap jstring :=
  let d1 := add_style sty "bg_color"
              (fun c d => map_set (str "bg_opa") (str "LV_OPA_COVER")
                            (map_set (str "bg_color") c d)) [] in
  let d2 := add_style sty "text_color" (map_set (str "text_color")) d1 in
  let d3 := add_style sty "text_font"
              (fun f => map_set (str "text_font") (str "&" ++ f)) d2 in
  let d4 := add_style sty "radius" (map_set (str "radius")) d3 in
  add_style sty "border_opa" (map_set (str "border_opa")) d4.

(** [convertWidget]; the recursion follows the [children] references
    through the store, [fuel] bounds its depth and [None] is a recursion
    that does not come back. *)
Fixpoint convertWidget (fuel : nat) (store : list LVGLWidget)
    (widget : LVGLWidget) : option EEZWidget :=
  match fuel with
  | O => None
  | S fuel' =>
      let eezWidgetType := mapWidgetType (type widget) in
      let units := alignUnits (properties widget) in
      let definition := styleDefinition (styles widget) in
      let isLabel := jeqb eezWidgetType (str "LVGLLabelWidget") in
      let isButton := jeqb eezWidgetType (str "LVGLButtonWidget") in
      match mapM (fun c => match store !! c with
                           | Some child => convertWidget fuel' store child
                           | None => None
                           end) (children widget) with
      | Some kids =>
          Some (mkEEZ eezWidgetType (variableName widget)
                  (position_x widget) (position_y widget)
                  (fst units) (snd units)
                  (size_width widget) (size_height widget)
                  (unit_of (size_width widget))
                  (unit_of (size_height widget))
                  kids
                  (match definition with [] => None | _ => Some definition end)
                  (map_get (str "text") (properties widget))
                  (if map_has (str "text") (properties widget)
                   then Some (str "literal") else None)
                  (map_get (str "value") (properties widget))
                  (map_get (str "range_min") (properties widget))
                  (map_get (str "range_max") (properties widget))
                  (if isLabel then Some (str "WRAP") else None)
                  (if isLabel then Some false else None)
                  (if isLabel then None
                   else if isButton then Some false else None))
      | None => None
      end
  end.

(** [if (!widget.parent || widget.parent === 'parent')] *)
Definition isTopLevel (widget : LVGLWidget) : bool :=
  match parent widget with
  | None => true
  | Some p => negb (truthy p) || jeqb p (str "parent")
  end.

(** A page of the project built by [createProjectFromArduino]; its name
    and description are derived from the file name. *)
Record Page : Type := mkPage {
  page_source : jstring;
  page_widgets : list EEZWidget
}.

(** The loop over the widgets of one parsed file. *)
Definition createPage (fuel : nat) (parsedFile : ParsedLVGLFile)
    : option Page :=
  match mapM (convertWidget fuel (widgets parsedFile))
             (List.filter isTopLevel (widgets parsedFile)) with
  | Some ws => Some (mkPage (fileName parsedFile) ws)
  | None => None
  end.


(** ** The code generator (arduino-exporter.ts) *)

(** The generator object; [rnd] counts the calls of [Math.random]. *)
Record generator : Type := mkGen {
  indent : nat;
  indentSize : nat;
  code_lines : list jstring;
  rnd : nat
}.

Definition newGenerator : generator := mkGen 0 4 [] 0.

Definition addLine (line : jstring) (g : generator) : generator :=
  mkGen (indent g) (indentSize g)
    (code_lines g ++ [repeat " "%char (indent g * indentSize g) ++ line])
    (rnd g).

Definition eezTypeTable : list (string * string) :=
  [("LVGLContainerWidget", "obj");
   ("LVGLLabelWidget", "label");
   ("LVGLButtonWidget", "btn");
   ("LVGLArcWidget", "arc");
   ("LVGLSliderWidget", "slider");
   ("LVGLBarWidget", "bar");
   ("LVGLCheckboxWidget", "checkbox");
   ("LVGLSwitchWidget", "switch");
   ("LVGLDropdownWidget", "dropdown");
   ("LVGLImageWidget", "img");
   ("LVGLTextareaWidget", "textarea");
   ("LVGLKeyboardWidget", "keyboard");
   ("LVGLChartWidget", "chart");
   ("LVGLTableWidget", "table");
   ("LVGLSpinnerWidget", "spinner");
   ("LVGLRollerWidget", "roller");
   ("LVGLMeterWidget", "meter")]%string.

(** [getWidgetTypeFromEEZ] *)
Definition getWidgetTypeFromEEZ (eezType : jstring) : jstring :=
  lookup_or eezTypeTable "obj" eezType.

(** [String(size)] *)
Definition string_of_size (v : sizeval) : jstring :=
  match v with
  | SNum n => string_of_Z n
  | SStr s => s
  end.

(** [convertSize] *)
Definition convertSize (v : sizeval) (unit : jstring) : jstring :=
  if jeqb unit (str "%") then
    str "LV_PCT(" ++ string_of_size v ++ str ")"
  else string_of_size v.

Definition alignmentTable : list (string * string) :=
  [("center-center", "LV_ALIGN_CENTER");
   ("left-top", "LV_ALIGN_TOP_LEFT");
   ("center-top", "LV_ALIGN_TOP_MID");
   ("right-top", "LV_ALIGN_TOP_RIGHT");
   ("left-center", "LV_ALIGN_LEFT_MID");
   ("right-center", "LV_ALIGN_RIGHT_MID");
   ("left-bottom", "LV_ALIGN_BOTTOM_LEFT");
   ("center-bottom", "LV_ALIGN_BOTTOM_MID");
   ("right-bottom", "LV_ALIGN_BOTTOM_RIGHT")]%string.

(** [getAlignment] *)
Definition getAlignment (leftUnit topUnit : jstring) : jstring :=
  lookup_or alignmentTable "LV_ALIGN_TOP_LEFT"
    (leftUnit ++ str "-" ++ topUnit).

(** The truth value of a size component. *)
Definition truthy_size (v : sizeval) : bool :=
  match v with
  | SNum n => negb (n =? 0)%Z
  | SStr s => truthy s
  end.

(** [generateStyles] *)
Definition generateStyles (varName : jstring) (ls : option (jsmap jstring))
    (g : generator) : generator :=
  match ls with
  | Some mainDefault =>
      fold_left
        (fun acc kv =>
           addLine (str "lv_obj_set_style_" ++ fst kv ++ str "(" ++ varName
                    ++ str ", " ++ snd kv ++ str ", 0);") acc)
        mainDefault g
  | None => g
  end.

Section Generator.
(** [rand n] is the text of
    [Math.random().toString(36).substr(2, 9)] at the [n]-th call. *)
Variable rand : nat -> jstring.

Definition widgetVarName (widget : EEZWidget) (g : generator)
    : jstring * generator :=
  if truthy (identifier widget) then (identifier widget, g)
  else (str "obj_" ++ rand (rnd g),
        mkGen (indent g) (indentSize g) (code_lines g) (S (rnd g))).

(** The statements of [generateWidget] for the widget itself. *)
Definition generateOwn (widget : EEZWidget) (varName parentVar : jstring)
    (g : generator) : generator :=
  let widgetType := getWidgetTypeFromEEZ (e_type widget) in
  let g1 := addLine (varName ++ str " = lv_" ++ widgetType
                     ++ str "_create(" ++ parentVar ++ str ");") g in
  let g2 :=
    if truthy_size (width widget) && truthy_size (height widget) then
      addLine (str "lv_obj_set_size(" ++ varName ++ str ", "
               ++ convertSize (width widget) (widthUnit widget) ++ str ", "
               ++ convertSize (height widget) (heightUnit widget)
               ++ str ");") g1
    else g1 in
  let g3 :=
    if truthy (leftUnit widget) && negb (jeqb (leftUnit widget) (str "px"))
    then
      let align := getAlignment (leftUnit widget) (topUnit widget) in
      if jeqb align (str "LV_ALIGN_CENTER")
         && (left widget =? 0)%Z && (top widget =? 0)%Z
      then addLine (str "lv_obj_center(" ++ varName ++ str ");") g2
      else addLine (str "lv_obj_align(" ++ varName ++ str ", " ++ align
                    ++ str ", " ++ string_of_Z (left widget) ++ str ", "
                    ++ string_of_Z (top widget) ++ str ");") g2
    else
      addLine (str "lv_obj_set_pos(" ++ varName ++ str ", "
               ++ string_of_Z (left widget) ++ str ", "
               ++ string_of_Z (top widget) ++ str ");") g2 in
  let g4 :=
    match text widget with
    | Some t =>
        if jeqb (e_type widget) (str "LVGLLabelWidget") && truthy t then
          addLine (str "lv_label_set_text(" ++ varName ++ str ", "
                   ++ [dquote] ++ t ++ [dquote] ++ str ");") g3
        else g3
    | None => g3
    end in
  let g5 :=
    match rangeMin widget, rangeMax widget with
    | Some mn, Some mx =>
        addLine (str "lv_" ++ widgetType ++ str "_set_range(" ++ varName
                 ++ str ", " ++ mn ++ str ", " ++ mx ++ str ");") g4
    | _, _ => g4
    end in
  let g6 :=
    match value widget with
    | Some v =>
        addLine (str "lv_" ++ widgetType ++ str "_set_value(" ++ varName
                 ++ str ", " ++ v ++ str ");") g5
    | None => g5
    end in
  addLine [] (generateStyles varName (localStyles widget) g6).

(** [generateWidget], as a transformation of the generator. *)
Fixpoint generateWidgetIn (widget : EEZWidget) (parentVar : jstring)
    (g : generator) : generator :=
  let '(varName, g0) := widgetVarName widget g in
  fold_left (fun acc child => generateWidgetIn child varName acc)
    (e_children widget)
    (generateOwn widget varName parentVar g0).

(** [generateWidget]: the generator after the call and the value the
    call returns, [this.code.join('\n')]. *)
Definition generateWidget (widget : EEZWidget) (parentVar : jstring)
    (g : generator) : generator * jstring :=
  let g' := generateWidgetIn widget parentVar g in
  (g', join_lines (code_lines g')).
End Generator.

(** ** Reachable parser states, recognizers, test inputs *)

(** The states of the loop of [parseWidgets] before line [i]. *)
Inductive reachable : nat -> pstate -> Prop :=
| reach_init : reachable 0 (mkState [] [])
| reach_step : forall i st raw,
    reachable i st -> reachable (S i) (processLine raw i st).

Definition matched (re : regex) (line : jstring) : bool :=
  match re_match re line with Some _ => true | None => false end.

(** The patterns of the property, style and layout setters. *)
Definition setterRes : list regex :=
  [textRe; sizeRe; valueRe; rangeRe;
   bgColorRe; textColorRe; fontRe; radiusRe; borderOpaRe;
   alignRe; centerRe].

(** A line that some creation, property, style or layout pattern
    matches. *)
Definition recognized (line : jstring) : bool :=
  existsb (fun re => matched re line) (createRe :: setterRes).

(** The creation facts of a file: identifier, type and parent of every
    line the creation pattern matches, in line order. *)
Definition creationFact (rawLine : jstring)
    : list (jstring * jstring * option jstring) :=
  match re_match createRe (trim rawLine) with
  | Some [varName; widgetType; parentArg] =>
      [(varName, str "lv_" ++ widgetType,
        if jeqb (trim parentArg) (str "parent") then None
        else Some (trim parentArg))]
  | _ => []
  end.

Definition widgetFact (w : LVGLWidget)
    : jstring * jstring * option jstring :=
  (variableName w, type w, parent w).

Definition countNamed (v : jstring) (ws : list LVGLWidget) : nat :=
  length (List.filter (fun w => jeqb (variableName w) v) ws).

Definition all_word (s : jstring) : Prop :=
  s <> [] /\ Forall (fun c => is_word c = true) s.

Definition no_char (x : ascii) (s : jstring) : Prop :=
  Forall (fun c => c <> x) s.

(** Every widget of the tree has a non-empty identifier. *)
Fixpoint allIdentified (w : EEZWidget) : bool :=
  truthy (identifier w) && forallb allIdentified (e_children w).

Definition quoted (s : string) : jstring := [dquote] ++ str s ++ [dquote].

(** The source text of the first test of the parser. *)
Definition labelTestCode : jstring :=
  join_lines [
    [];
    str "lv_obj_t * scale_label = NULL;";
    [];
    str "void create_screen(lv_obj_t * parent) {";
    str "    scale_label = lv_label_create(parent);";
    str "    lv_label_set_text(scale_label, " ++ quoted "0.0g" ++ str ");";
    str "    lv_obj_set_style_text_color(scale_label, lv_color_hex(0x00FFFF), 0);";
    str "}";
    str "        "].

(** The source text of the second test of the parser. *)
Definition buttonTestCode : jstring :=
  join_lines [
    [];
    str "lv_obj_t * tare_btn = NULL;";
    [];
    str "void main_screen_create(lv_obj_t * parent) {";
    str "    tare_btn = lv_btn_create(parent);";
    str "    lv_obj_set_size(tare_btn, 90, 45);";
    str "    lv_obj_set_style_bg_color(tare_btn, lv_color_hex(0x001122), 0);";
    str "    lv_obj_align(tare_btn, LV_ALIGN_BOTTOM_LEFT, 35, -100);";
    str "}";
    str "        "].

(** A creation followed by a size setter with percentages. *)
Definition pctCode : jstring :=
  join_lines [
    str "panel = lv_obj_create(parent);";
    str "lv_obj_set_size(panel, LV_PCT(100), LV_PCT(50));"].

(** Two creation statements for one identifier. *)
Definition duplicateCode : jstring :=
  join_lines [
    str "w = lv_label_create(parent);";
    str "w = lv_btn_create(parent);"].

(** A widget created under an identifier that the file never creates. *)
Definition orphanCode : jstring :=
  join_lines [
    str "a = lv_obj_create(parent);";
    str "b = lv_label_create(ghost);"].

(** The names of the members inherited from [Object.prototype]. *)
Definition inheritedNames : list jstring :=
  map (fun kv => str (fst kv)) objectPrototype.


(** ** What a successful match says about the text

    [atom_den a w]: the atom [a] matches exactly the text [w];
    [items_den r s caps res]: a prefix of [s] splits along the items of
    [r], and [res] is [caps] followed by the texts of the groups. *)

Definition atom_den (a : atom) (w : jstring) : Prop :=
  match a with
  | Lit l => w = l
  | Star p => Forall (fun c => p c = true) w
  | Plus p => w <> [] /\ Forall (fun c => p c = true) w
  end.

Fixpoint atoms_den (g : list atom) (w : jstring) : Prop :=
  match g with
  | [] => w = []
  | a :: g' =>
      exists w1 w2, w = w1 ++ w2 /\ atom_den a w1 /\ atoms_den g' w2
  end.

Fixpoint items_den (r : regex) (s : jstring) (caps res : list jstring)
    : Prop :=
  match r with
  | [] => res = caps
  | A a :: r' =>
      exists w s', s = w ++ s' /\ atom_den a w /\ items_den r' s' caps res
  | Group g :: r' =>
      exists w s', s = w ++ s' /\ atoms_den g w
                   /\ items_den r' s' (caps ++ [w]) res
  end.

(** ** Frames of the setters

    [touched i w w']: [w'] is [w], or [w] after setter blocks of line [i];
    the identity of the widget, its links and its first line are kept. *)

Definition same_core (w w' : LVGLWidget) : Prop :=
  type w' = type w /\ variableName w' = variableName w
  /\ parent w' = parent w /\ children w' = children w
  /\ sourceLineStart w' = sourceLineStart w.

Definition touched (i : nat) (w w' : LVGLWidget) : Prop :=
  same_core w w' /\ (w' = w \/ sourceLineEnd w' = i).

Definition steps (i : nat) (st st' : pstate) : Prop :=
  st_map st' = st_map st
  /\ Forall2 (touched i) (st_widgets st) (st_widgets st').

(** The first capture of a setter pattern on [line], if it matches. *)
Definition setterTarget (re : regex) (line : jstring) : option jstring :=
  match re_match re line with
  | Some (v :: _) => Some v
  | _ => None
  end.

(** The lines of a widget lie in order and do not exceed [i]. *)
Definition lines_ok (i : nat) (w : LVGLWidget) : Prop :=
  sourceLineStart w <= sourceLineEnd w /\ sourceLineEnd w <= i.

(** The number of creation statements for the identifier [v]. *)
Definition creationsOf (v : jstring) (lines : list jstring) : nat :=
  length (List.filter (fun fact => jeqb (fst (fst fact)) v)
            (flat_map creationFact lines)).

(** What the loop of [parseArduinoLVGLProject] keeps of one file. *)
Definition keptFile {E} (parser : jstring -> jstring -> E + ParsedLVGLFile)
    (file : jstring * jstring) : list ParsedLVGLFile :=
  match parser (fst file) (snd file) with
  | inr parsed =>
      if (0 <? length (widgets parsed))%nat then [parsed] else []
  | inl _ => []
  end.

(** [widgetMap] refers to widgets of the store under their own names, and
    knows every name of the store. *)
Definition map_ok (st : pstate) : Prop :=
  (forall v idx, map_get v (st_map st) = Some idx ->
     exists w, st_widgets st !! idx = Some w /\ variableName w = v)
  /\ (forall v, map_get v (st_map st) = None ->
        ~ In v (map variableName (st_widgets st))).

(** A label without an identifier. *)
Definition anonymousLabel : EEZWidget :=
  mkEEZ (str "LVGLLabelWidget") [] 0 0 (str "px") (str "px")
    (SNum 0) (SNum 0) (str "px") (str "px") [] None
    None None None None None None None None.

(** The statements generated for the first widget of a parsed text,
    converted as a root. *)
Definition exportFirst (content : jstring) : list jstring :=
  let ws := widgets (parse (str "ui.cpp") content) in
  match ws with
  | w :: _ =>
      match convertWidget (S (length ws)) ws w with
      | Some e =>
          code_lines
            (fst (generateWidget (fun _ => []) e (str "parent") newGenerator))
      | None => []
      end
  | [] => []
  end.

Definition sizesOf (content : jstring) : list (sizeval * sizeval) :=
  map (fun w => (size_width w, size_height w))
    (widgets (parse (str "ui.cpp") content)).

(** Induction on widget trees. *)
Section EEZInduction.
Variable P : EEZWidget -> Prop.
Hypothesis step : forall w, Forall P (e_children w) -> P w.

Fixpoint EEZWidget_tree_ind (w : EEZWidget) : P w :=
  step w
    ((fix go (l : list EEZWidget) : Forall P l :=
        match l with
        | [] => @List.Forall_nil _ P
        | c :: l' =>
            @List.Forall_cons _ P c l' (EEZWidget_tree_ind c) (go l')
        end) (e_children w)).
End EEZInduction.

(** [g'] has the lines of [g] and possibly more, and the same layout. *)
Definition extends (g g' : generator) : Prop :=
  indent g' = indent g /\ indentSize g' = indentSize g
  /\ exists more, code_lines g' = code_lines g ++ more.

(** The widget that [buildHierarchy] makes the parent of the widget [c]. *)
Definition parentIdx (m : jsmap nat) (store : list LVGLWidget) (c : nat)
    : option nat :=
  match store !! c with
  | Some w =>
      match parent w with
      | Some p =>
          if truthy p && negb (jeqb p (str "parent")) then map_get p m
          else None
      | None => None
      end
  | None => None
  end.

(** [level m store c d]: [d] steps lead from [c] up to a widget
    without parent. *)
Inductive level (m : jsmap nat) (store : list LVGLWidget)
    : nat -> nat -> Prop :=
| level_root : forall c w,
    store !! c = Some w -> parentIdx m store c = None -> level m store c 0
| level_child : forall c p d,
    parentIdx m store c = Some p -> level m store p d ->
    level m store c (S d).

(** Every entry of a [children] list is a widget whose parent is the
    owner of the list. *)
Definition children_ok (m : jsmap nat) (store0 store : list LVGLWidget)
    : Prop :=
  forall p w c,
    store !! p = Some w -> In c (children w) -> parentIdx m store0 c = Some p.

(** All identifiers of a widget tree. *)
Fixpoint identifiersOf (e : EEZWidget) : list jstring :=
  identifier e :: flat_map identifiersOf (e_children e).

(** The text does not end inside a word. *)
Definition ends_outside_word (s : jstring) : Prop :=
  forall s0 c, s = s0 ++ [c] -> is_word c = false.

(** The index of the last widget named [v] in a store, counting from
    [i]. *)
Fixpoint lastIndexFrom (v : jstring) (store : list LVGLWidget) (i : nat)
    : option nat :=
  match store with
  | [] => None
  | w :: rest =>
      match lastIndexFrom v rest (S i) with
      | Some j => Some j
      | None => if jeqb (variableName w) v then Some i else None
      end
  end.

(** Two creation statements for one identifier on one line. *)
Definition sameLineCode : jstring :=
  str "w = lv_label_create(parent); w = lv_btn_create(parent);".

(** ** The exported files, and what the parser reads back from them *)

(** A generator as [new LVGLCodeGenerator()] makes it, after [n] calls of
    [Math.random]. *)
Definition freshGenerator (n : nat) : generator := mkGen 0 4 [] n.

(** The lines that a fresh generator holds after [generateWidget]. *)
Definition emitted (rand : nat -> jstring) (w : EEZWidget)
    (parentVar : jstring) (n : nat) : list jstring :=
  code_lines (generateWidgetIn rand w parentVar (freshGenerator n)).

(** [g] with the lines and the random position of [h] after its own. *)
Definition append_to (g h : generator) : generator :=
  mkGen 0 (indentSize g) (code_lines g ++ code_lines h) (rnd h).

(** [F] only appends lines, and what it appends does not depend on the
    lines already there. *)
Definition oblivious (F : generator -> generator) : Prop :=
  forall g, indent g = 0 ->
    indent (F (freshGenerator (rnd g))) = 0
    /\ F g = append_to g (F (freshGenerator (rnd g))).

(** A page as the exporter reads it: [page.name] and [page.widgets]. *)
Record EEZPage : Type := mkEEZPage {
  ep_name : jstring;
  ep_widgets : list EEZWidget
}.

(** [widgetCode.split('\n').map(line => '    ' + line).join('\n')] *)
Definition indentCode (widgetCode : jstring) : jstring :=
  join_lines (map (fun line => str "    " ++ line) (split_lines widgetCode)).

Section ScreenFunction.

Variable rand : nat -> jstring.

(** One iteration of the loop over [page.widgets]. *)
Definition screenStep (acc : generator * list jstring) (widget : EEZWidget)
    : generator * list jstring :=
  let widgetCode := generateWidget rand widget (str "parent") (fst acc) in
  (fst widgetCode, snd acc ++ [indentCode (snd widgetCode)]).

(** [generateScreenFunction]; [n] counts the earlier calls of
    [Math.random], and the result carries the count after the call. *)
Definition generateScreenFunction (page : EEZPage) (functionName : jstring)
    (n : nat) : jstring * nat :=
  let lines :=
    [str "void " ++ functionName ++ str "(lv_obj_t * parent) {";
     str "    lv_obj_clean(parent);";
     str "    lv_obj_set_size(parent, LV_PCT(100), LV_PCT(100));";
     []] in
  let done := fold_left screenStep (ep_widgets page) (freshGenerator n, lines) in
  (join_lines (snd done ++ [str "}"; []]), rnd (fst done)).

End ScreenFunction.

(** The statements of a tree whose widgets all have an identifier. *)
Definition statements (w : EEZWidget) (parentVar : jstring) : list jstring :=
  emitted (fun _ => []) w parentVar 0.

(** [F] does not look at the random position. *)
Definition rnd_blind (F : generator -> generator) : Prop :=
  forall i s c n m, F (mkGen i s c n) =
    mkGen (indent (F (mkGen i s c m))) (indentSize (F (mkGen i s c m)))
          (code_lines (F (mkGen i s c m))) n.

(** A text without [=] and without line break. *)
Definition plainb (s : jstring) : bool :=
  forallb (fun c => negb (Ascii.eqb c "=") && negb (Ascii.eqb c newline)) s.

Definition wordb (s : jstring) : bool := truthy s && forallb is_word s.

Definition plainSizeb (v : sizeval) : bool :=
  match v with SNum _ => true | SStr s => plainb s end.

Definition plainOptb (o : option jstring) : bool :=
  match o with Some s => plainb s | None => true end.

(** The type label is not the name of a member of [Object.prototype]. *)
Definition ownKind (t : jstring) : bool :=
  negb (existsb (jeqb t) inheritedNames).

(** Every identifier of the tree is a word, no type label names a member
    of [Object.prototype], and the texts that the generator copies into
    its statements hold no [=] and no line break. *)
Fixpoint exportable (e : EEZWidget) : bool :=
  wordb (identifier e) && ownKind (e_type e)
  && plainSizeb (width e) && plainSizeb (height e)
  && plainOptb (text e) && plainOptb (rangeMin e) && plainOptb (rangeMax e)
  && plainOptb (value e)
  && match localStyles e with
     | Some d => forallb (fun kv => plainb (fst kv) && plainb (snd kv)) d
     | None => true
     end
  && forallb exportable (e_children e).

(** [parentName === 'parent' ? null : parentName] *)
Definition parentOf (parentName : jstring) : option jstring :=
  if jeqb parentName (str "parent") then None else Some parentName.

(** Identifier, LVGL type and parent of every widget of a tree, in
    document order. *)
Fixpoint treeFacts (e : EEZWidget) (parentVar : jstring)
    : list (jstring * jstring * option jstring) :=
  (identifier e, str "lv_" ++ getWidgetTypeFromEEZ (e_type e),
   parentOf parentVar)
  :: flat_map (fun c => treeFacts c (identifier e)) (e_children e).

Definition plain (s : jstring) : Prop :=
  Forall (fun c => c <> "="%char /\ c <> newline) s.

(** [g'] has the lines of [g] and then lines that satisfy [P]. *)
Definition emitsP (P : jstring -> Prop) (g g' : generator) : Prop :=
  indent g' = indent g /\ indentSize g' = indentSize g
  /\ exists more, code_lines g' = code_lines g ++ more /\ Forall P more.

(** The creation facts of the lines from line [i] on, each with the index
    of its line. *)
Fixpoint creationsFrom (i : nat) (ls : list jstring)
    : list (nat * (jstring * jstring * option jstring)) :=
  match ls with
  | [] => []
  | l :: ls' => map (pair i) (creationFact l) ++ creationsFrom (S i) ls'
  end.

Definition startFact (w : LVGLWidget)
    : nat * (jstring * jstring * option jstring) :=
  (sourceLineStart w, widgetFact w).

(** [c] is a widget whose parent name the map resolves to [p]. *)
Definition childOf (m : jsmap nat) (store : list LVGLWidget) (p c : nat)
    : bool :=
  match parentIdx m store c with
  | Some q => (q =? p)%nat
  | None => false
  end.

(** [GeneratedCode] *)
Record GeneratedCode : Type := mkFile {
  gc_fileName : jstring;
  gc_code : jstring
}.

(** [Set.add]: a set of strings in insertion order. *)
Definition set_add (x : jstring) (s : list jstring) : list jstring :=
  if existsb (jeqb x) s then s else s ++ [x].

(** [collectIdentifiers] of the header: the identifiers of a widget tree
    are added to the set [allIdentifiers]. *)
Fixpoint collectIdentifiers (widget : EEZWidget) (allIdentifiers : list jstring)
    : list jstring :=
  fold_left (fun acc child => collectIdentifiers child acc)
    (e_children widget)
    (if truthy (identifier widget)
     then set_add (identifier widget) allIdentifiers
     else allIdentifiers).

(** [collectIdentifiers] of an implementation file: one definition is
    pushed for every widget that has an identifier. *)
Fixpoint defineIdentifiers (widget : EEZWidget) (implLines : list jstring)
    : list jstring :=
  fold_left (fun acc child => defineIdentifiers child acc)
    (e_children widget)
    (if truthy (identifier widget)
     then implLines ++ [str "lv_obj_t * " ++ identifier widget
                        ++ str " = NULL;"]
     else implLines).

Definition allIdentifiers (project : list EEZPage) : list jstring :=
  fold_left
    (fun acc page =>
       fold_left (fun acc' widget => collectIdentifiers widget acc')
         (ep_widgets page) acc)
    project [].

Definition headerLines (project : list EEZPage) : list jstring :=
  [str "#pragma once";
   str "#include " ++ quoted "lvgl/lvgl.h";
   [];
   str "// Global widget variables"]
  ++ map (fun identifier => str "extern lv_obj_t * " ++ identifier ++ str ";")
       (allIdentifiers project)
  ++ [[]]
  ++ map (fun page => str "void " ++ (ep_name page ++ str "_create")
                      ++ str "(lv_obj_t * parent);") project.

Section ExportToArduino.

Variable rand : nat -> jstring.

(** The implementation file of one page; the second component counts the
    calls of [Math.random]. *)
Definition pageFile (page : EEZPage) (n : nat) : GeneratedCode * nat :=
  let implLines := [str "#include " ++ quoted "ui.h"; []] in
  let implLines :=
    fold_left (fun acc widget => defineIdentifiers widget acc)
      (ep_widgets page) implLines in
  let implLines := implLines ++ [[]] in
  let functionName := ep_name page ++ str "_create" in
  let screenCode := generateScreenFunction rand page functionName n in
  (mkFile (ep_name page ++ str ".cpp")
     (join_lines (implLines ++ [fst screenCode])),
   snd screenCode).

(** The [files] of [exportToArduino], before they are written. *)
Definition exportFiles (project : list EEZPage) (n : nat)
    : list GeneratedCode * nat :=
  fold_left
    (fun acc page =>
       let file := pageFile page (snd acc) in
       (fst acc ++ [fst file], snd file))
    project
    ([mkFile (str "ui.h") (join_lines (headerLines project))], n).

End ExportToArduino.

(** A page that the parser can read back: a name without [=] and line
    break, and exportable root widgets. *)
Definition exportablePage (page : EEZPage) : bool :=
  plainb (ep_name page) && forallb exportable (ep_widgets page).

(** The statements of the root widgets up to the root [i]. *)
Definition cumulative (roots : list EEZWidget) (i : nat) : list jstring :=
  flat_map (fun w => statements w (str "parent")) (take (S i) roots).

Definition pageLines (page : EEZPage) : list jstring :=
  [str "#include " ++ quoted "ui.h"; []]
  ++ map (fun id => str "lv_obj_t * " ++ id ++ str " = NULL;")
       (flat_map identifiersOf (ep_widgets page))
  ++ [[]]
  ++ [str "void " ++ (ep_name page ++ str "_create")
      ++ str "(lv_obj_t * parent) {";
      str "    lv_obj_clean(parent);";
      str "    lv_obj_set_size(parent, LV_PCT(100), LV_PCT(100));";
      []]
  ++ flat_map (fun i => map (fun line => str "    " ++ line)
                          (cumulative (ep_widgets page) i))
       (seq 0 (length (ep_widgets page)))
  ++ [str "}"; []].

(** A label with the identifier [id] and no other setting. *)
Definition labelNamed (id : jstring) : EEZWidget :=
  mkEEZ (str "LVGLLabelWidget") id 0 0 (str "px") (str "px")
    (SNum 0) (SNum 0) (str "px") (str "px") [] None
    None None None None None None None None.

Definition globalStep (gv : jsmap jstring) (l : jstring) : jsmap jstring :=
  match re_match globalVarRe (trim l) with
  | Some [varName] => map_set varName (str "lv_obj_t") gv
  | _ => gv
  end.

(** Some position, counted from the front, at which both texts have a
    character and the characters differ. *)
Fixpoint differ (a b : jstring) : bool :=
  match a, b with
  | c :: a', d :: b' => negb (Ascii.eqb c d) || differ a' b'
  | _, _ => false
  end.

(** An argument of a generated call: not empty, without white space,
    comma and parentheses. *)
Definition argb (s : jstring) : bool :=
  truthy s
  && forallb (fun c => negb (is_space c) && negb (Ascii.eqb c ",")
                       && negb (Ascii.eqb c "(") && negb (Ascii.eqb c ")")) s.

Definition arg (s : jstring) : Prop :=
  s <> []
  /\ Forall (fun c => is_space c = false /\ c <> ","%char /\ c <> "("%char
                      /\ c <> ")"%char) s.

(** The patterns with the literal that precedes their first opening
    parenthesis. *)
Definition callPatterns : list (regex * string) :=
  [(createRe, "_create"); (textRe, "_set_text");
   (sizeRe, "lv_obj_set_size"); (valueRe, "_set_value");
   (rangeRe, "_set_range");
   (bgColorRe, "lv_obj_set_style_bg_color");
   (textColorRe, "lv_obj_set_style_text_color");
   (fontRe, "lv_obj_set_style_text_font");
   (radiusRe, "lv_obj_set_style_radius");
   (borderOpaRe, "lv_obj_set_style_border_opa");
   (alignRe, "lv_obj_align"); (centerRe, "lv_obj_center")]%string.

(** The text ends with a character that is not white space. *)
Definition ends_dark (s : jstring) : Prop :=
  exists s0 d, s = s0 ++ [d] /\ is_space d = false.

(** The units that [convertWidget] derives from the alignment constant
    [c], and the constant that [getAlignment] derives from them. *)
Definition unitsOf (c : jstring) : jstring * jstring :=
  alignUnits [(str "align", c)].

Definition alignmentBack (c : jstring) : jstring :=
  getAlignment (fst (unitsOf c)) (snd (unitsOf c)).

(** * Properties *)

(** ** The tests of the parser *)

Example createRe_label :
  re_match createRe (str "scale_label = lv_label_create(parent);")
  = Some [str "scale_label"; str "label"; str "parent"].
Proof. vm_compute. reflexivity. Qed.

Example createRe_nested :
  re_match createRe (str "w = lv_label_create(lv_scr_act());") = None.
Proof. vm_compute. reflexivity. Qed.

Example sizeRe_pct :
  re_match sizeRe (str "lv_obj_set_size(w, LV_PCT(100), LV_PCT(50));")
  = Some [str "w"; str "LV_PCT(100)"; str "LV_PCT(50"].
Proof. vm_compute. reflexivity. Qed.

Example parse_button_test :
  match widgets (parse (str "test.cpp") buttonTestCode) with
  | [w] =>
      type w = str "lv_btn" /\ variableName w = str "tare_btn"
      /\ size_width w = SNum 90 /\ size_height w = SNum 45
      /\ map_get (str "bg_color") (styles w) = Some (str "0x001122")
      /\ position_x w = 35%Z /\ position_y w = (-100)%Z
      /\ map_get (str "align") (properties w)
         = Some (str "LV_ALIGN_BOTTOM_LEFT")
  | _ => False
  end.
Proof. vm_compute. repeat split. Qed.

(** ** Strings and maps *)

Lemma jeqb_eq (a b : jstring) : jeqb a b = true <-> a = b.
Proof.
  revert b. induction a as [|c a IH]; intros [|d b]; simpl;
    try (split; [discriminate | discriminate]); try tauto.
  rewrite andb_true_iff, Ascii.eqb_eq, IH. split.
  - intros [-> ->]. reflexivity.
  - intros H. injection H as -> ->. split; reflexivity.
Qed.

Lemma jeqb_refl (a : jstring) : jeqb a a = true.
Proof. apply jeqb_eq. reflexivity. Qed.

Lemma jeqb_neq (a b : jstring) : jeqb a b = false <-> a <> b.
Proof.
  rewrite <- jeqb_eq. destruct (jeqb a b); split; congruence.
Qed.

Lemma map_get_notin {V} (k : jstring) (m : jsmap V) :
  ~ In k (map fst m) -> map_get k m = None.
Proof.
  induction m as [|[k' v] m IH]; simpl; intros H; [reflexivity|].
  destruct (jeqb k k') eqn:E.
  - apply jeqb_eq in E. subst. tauto.
  - apply IH. tauto.
Qed.


Lemma lookup_or_inherited (table : list (string * string)) (d : string)
    (k : jstring) :
  ~ In k (map (fun kv => str (fst kv)) table) ->
  In k inheritedNames ->
  exists member,
    lookup_or table d k = member
    /\ In (k, member)
         (map (fun kv => (str (fst kv), str (snd kv))) objectPrototype).
Proof.
  intros H Hi. unfold lookup_or.
  rewrite map_get_notin by (rewrite map_map; simpl; exact H).
  unfold inheritedNames in Hi.
  induction objectPrototype as [|[n t] rest IH]; [destruct Hi|].
  cbn [map map_get fst snd] in *.
  destruct (jeqb k (str n)) eqn:E.
  - apply jeqb_eq in E. subst k. eexists. split; [reflexivity|].
    left. reflexivity.
  - destruct Hi as [Hi|Hi]; [apply jeqb_neq in E; congruence|].
    destruct (IH Hi) as (member & Hm & Hin).
    exists member. split; [exact Hm | right; exact Hin].
Qed.


(** ** The matcher *)

Lemma strip_prefix_app (p s : jstring) : strip_prefix p (p ++ s) = Some s.
Proof.
  induction p as [|c p IH]; simpl; [reflexivity|].
  rewrite Ascii.eqb_refl. exact IH.
Qed.

Lemma strip_prefix_sound (p s s' : jstring) :
  strip_prefix p s = Some s' -> s = p ++ s'.
Proof.
  revert s. induction p as [|c p IH]; simpl; intros s H.
  - congruence.
  - destruct s as [|d s]; [discriminate|].
    destruct (Ascii.eqb c d) eqn:E; [|discriminate].
    apply Ascii.eqb_eq in E. subst d. f_equal. apply IH, H.
Qed.

Section MatcherFacts.
Context {R : Type}.
Implicit Types (k : jstring -> option R) (r : R).

Lemma star_sound p s k r :
  star p s k = Some r ->
  exists w s', s = w ++ s' /\ Forall (fun c => p c = true) w
               /\ k s' = Some r.
Proof.
  induction s as [|c s IH]; simpl; intros H.
  - exists [], []. auto.
  - destruct (p c) eqn:Pc.
    + destruct (star p s k) as [r'|] eqn:E.
      * injection H as ->.
        destruct (IH eq_refl) as (w & s' & -> & Hw & Hk).
        exists (c :: w), s'. repeat split; auto.
      * exists [], (c :: s). auto.
    + exists [], (c :: s). auto.
Qed.

(** A run of characters of the class in front of a text on which the
    repetition succeeds: the repetition succeeds with the same result. *)
Lemma star_app_some p w rest k r :
  Forall (fun c => p c = true) w ->
  star p rest k = Some r ->
  star p (w ++ rest) k = Some r.
Proof.
  intros Hw Hr. induction Hw as [|c w Hc _ IH]; simpl; [exact Hr|].
  rewrite Hc, IH. reflexivity.
Qed.

Lemma star_stop p c rest k :
  p c = false -> star p (c :: rest) k = k (c :: rest).
Proof. intros H. simpl. rewrite H. reflexivity. Qed.

Lemma plus_app_some p w rest k r :
  atom_den (Plus p) w ->
  star p rest k = Some r ->
  match_atom (Plus p) (w ++ rest) k = Some r.
Proof.
  intros [Hne Hw] Hr. destruct w as [|c w]; [congruence|].
  inversion Hw; subst. simpl. rewrite H1.
  apply star_app_some; assumption.
Qed.

Lemma match_atom_sound a s k r :
  match_atom a s k = Some r ->
  exists w s', s = w ++ s' /\ atom_den a w /\ k s' = Some r.
Proof.
  destruct a as [l|p|p]; simpl; intros H.
  - destruct (strip_prefix l s) as [s'|] eqn:E; [|discriminate].
    apply strip_prefix_sound in E. exists l, s'. auto.
  - apply star_sound in H. exact H.
  - destruct s as [|c s]; [discriminate|].
    destruct (p c) eqn:Pc; [|discriminate].
    apply star_sound in H. destruct H as (w & s' & -> & Hw & Hk).
    exists (c :: w), s'. repeat split; auto; discriminate.
Qed.

Lemma match_atoms_sound g s k r :
  match_atoms g s k = Some r ->
  exists w s', s = w ++ s' /\ atoms_den g w /\ k s' = Some r.
Proof.
  revert s k. induction g as [|a g IH]; simpl; intros s k H.
  - exists [], s. auto.
  - apply match_atom_sound in H. destruct H as (w1 & s1 & -> & Ha & H).
    apply IH in H. destruct H as (w2 & s' & -> & Hg & Hk).
    exists (w1 ++ w2), s'. rewrite <- app_assoc. repeat split; auto.
    exists w1, w2. auto.
Qed.
End MatcherFacts.

Lemma consumed_app (w s' : jstring) : consumed (w ++ s') s' = w.
Proof.
  unfold consumed. rewrite length_app.
  replace (length w + length s' - length s') with (length w) by lia.
  apply take_app_length.
Qed.

Lemma match_items_sound (r : regex) (s : jstring) (caps res : list jstring) :
  match_items r s caps = Some res -> items_den r s caps res.
Proof.
  revert s caps. induction r as [|[a|g] r IH]; simpl; intros s caps H.
  - congruence.
  - apply match_atom_sound in H. destruct H as (w & s' & -> & Ha & H).
    exists w, s'. auto.
  - apply match_atoms_sound in H. destruct H as (w & s' & -> & Hg & H).
    rewrite consumed_app in H. exists w, s'. auto.
Qed.

Lemma re_match_sound (r : regex) (s : jstring) (res : list jstring) :
  re_match r s = Some res ->
  exists pre s0, s = pre ++ s0 /\ items_den r s0 [] res.
Proof.
  induction s as [|c s IH]; simpl; intros H.
  - destruct (match_items r [] []) eqn:E; [|discriminate].
    injection H as ->. exists [], []. split; [reflexivity|].
    apply match_items_sound, E.
  - destruct (match_items r (c :: s) []) eqn:E.
    + injection H as ->. exists [], (c :: s). split; [reflexivity|].
      apply match_items_sound, E.
    + destruct (IH H) as (pre & s0 & -> & Hd).
      exists (c :: pre), s0. auto.
Qed.

Lemma re_match_here (r : regex) (s : jstring) (res : list jstring) :
  match_items r s [] = Some res -> re_match r s = Some res.
Proof. intros H. destruct s; simpl; rewrite H; reflexivity. Qed.

(** ** Frames of the setters *)

Lemma touched_refl (i : nat) (w : LVGLWidget) : touched i w w.
Proof. unfold touched, same_core. auto 10. Qed.

Lemma touched_trans (i : nat) (w1 w2 w3 : LVGLWidget) :
  touched i w1 w2 -> touched i w2 w3 -> touched i w1 w3.
Proof.
  unfold touched, same_core.
  intros [(A1 & A2 & A3 & A4 & A5) B] [(C1 & C2 & C3 & C4 & C5) D].
  split; [repeat split; congruence|].
  destruct D as [->|D]; [exact B | right; exact D].
Qed.

Lemma Forall2_touched_refl (i : nat) (ws : list LVGLWidget) :
  Forall2 (touched i) ws ws.
Proof. induction ws; constructor; auto using touched_refl. Qed.

Lemma Forall2_touched_trans (i : nat) (l1 l2 l3 : list LVGLWidget) :
  Forall2 (touched i) l1 l2 -> Forall2 (touched i) l2 l3 ->
  Forall2 (touched i) l1 l3.
Proof.
  intros H. revert l3. induction H; intros l3 H3; inversion H3; subst;
    constructor; eauto using touched_trans.
Qed.

Lemma steps_refl (i : nat) (st : pstate) : steps i st st.
Proof. split; [reflexivity | apply Forall2_touched_refl]. Qed.

Lemma steps_trans (i : nat) (s1 s2 s3 : pstate) :
  steps i s1 s2 -> steps i s2 s3 -> steps i s1 s3.
Proof.
  intros [M1 F1] [M2 F2]. split; [congruence|].
  eapply Forall2_touched_trans; eassumption.
Qed.

Lemma alter_touched (i : nat) (f : LVGLWidget -> LVGLWidget) (idx : nat)
    (ws : list LVGLWidget) :
  (forall w, touched i w (f w)) ->
  Forall2 (touched i) ws (alter f idx ws).
Proof.
  intros Hf. revert idx. induction ws as [|w ws IH]; intros [|idx]; simpl;
    constructor; auto using touched_refl, Forall2_touched_refl.
  apply IH.
Qed.

Lemma with_widget_steps (i : nat) (v : jstring)
    (f : LVGLWidget -> LVGLWidget) (st : pstate) :
  (forall w, touched i w (f w)) -> steps i st (with_widget v f st).
Proof.
  intros Hf. unfold with_widget.
  destruct (map_get v (st_map st)); [|apply steps_refl].
  split; [reflexivity|]. simpl. apply alter_touched, Hf.
Qed.

Lemma with_widget_none (v : jstring) (f : LVGLWidget -> LVGLWidget)
    (st : pstate) :
  map_get v (st_map st) = None -> with_widget v f st = st.
Proof. intros H. unfold with_widget. rewrite H. reflexivity. Qed.

Lemma set_lineEnd_touched (i : nat) (g : LVGLWidget -> LVGLWidget) :
  (forall w, same_core w (g w)) ->
  forall w, touched i w (set_lineEnd i (g w)).
Proof.
  intros Hg w. destruct (Hg w) as (A1 & A2 & A3 & A4 & A5).
  split; [|right; reflexivity].
  unfold same_core. simpl. auto.
Qed.

Ltac caps_cases :=
  match goal with
  | |- context [re_match ?re ?line] =>
      destruct (re_match re line) as [[|? [|? [|? [|? [|? ?]]]]]|]
  end.

Ltac setter_steps :=
  intros; caps_cases; try apply steps_refl;
  apply with_widget_steps, set_lineEnd_touched;
  intros w; unfold same_core; simpl; auto 10.

Ltac setter_skip :=
  unfold setterTarget; intros line i st H; caps_cases; try reflexivity;
  apply with_widget_none, H; reflexivity.

Lemma textSetter_steps line i st : steps i st (textSetter line i st).
Proof. unfold textSetter. setter_steps. Qed.

Lemma sizeSetter_steps line i st : steps i st (sizeSetter line i st).
Proof. unfold sizeSetter. setter_steps. Qed.

Lemma valueSetter_steps line i st : steps i st (valueSetter line i st).
Proof. unfold valueSetter. setter_steps. Qed.

Lemma rangeSetter_steps line i st : steps i st (rangeSetter line i st).
Proof. unfold rangeSetter. setter_steps. Qed.

Lemma style_setter_steps re key conv line i st :
  steps i st (style_setter re key conv line i st).
Proof. unfold style_setter. setter_steps. Qed.

Lemma alignSetter_steps line i st : steps i st (alignSetter line i st).
Proof. unfold alignSetter. setter_steps. Qed.

Lemma centerSetter_steps line i st : steps i st (centerSetter line i st).
Proof. unfold centerSetter. setter_steps. Qed.

Lemma textSetter_skip : forall line i st,
  (forall v, setterTarget textRe line = Some v ->
             map_get v (st_map st) = None) ->
  textSetter line i st = st.
Proof. unfold textSetter. setter_skip. Qed.

Lemma sizeSetter_skip : forall line i st,
  (forall v, setterTarget sizeRe line = Some v ->
             map_get v (st_map st) = None) ->
  sizeSetter line i st = st.
Proof. unfold sizeSetter. setter_skip. Qed.

Lemma valueSetter_skip : forall line i st,
  (forall v, setterTarget valueRe line = Some v ->
             map_get v (st_map st) = None) ->
  valueSetter line i st = st.
Proof. unfold valueSetter. setter_skip. Qed.

Lemma rangeSetter_skip : forall line i st,
  (forall v, setterTarget rangeRe line = Some v ->
             map_get v (st_map st) = None) ->
  rangeSetter line i st = st.
Proof. unfold rangeSetter. setter_skip. Qed.

Lemma style_setter_skip re key conv : forall line i st,
  (forall v, setterTarget re line = Some v ->
             map_get v (st_map st) = None) ->
  style_setter re key conv line i st = st.
Proof. unfold style_setter. setter_skip. Qed.

Lemma alignSetter_skip : forall line i st,
  (forall v, setterTarget alignRe line = Some v ->
             map_get v (st_map st) = None) ->
  alignSetter line i st = st.
Proof. unfold alignSetter. setter_skip. Qed.

Lemma centerSetter_skip : forall line i st,
  (forall v, setterTarget centerRe line = Some v ->
             map_get v (st_map st) = None) ->
  centerSetter line i st = st.
Proof. unfold centerSetter. setter_skip. Qed.

(** The setter blocks of one line, after the creation block. *)
Lemma setters_steps (line : jstring) (i : nat) (st : pstate) :
  steps i st
    (parseLayoutFunctions line i
       (parseStyleSetters line i (parsePropertySetters line i st))).
Proof.
  unfold parseLayoutFunctions, parseStyleSetters, parsePropertySetters.
  repeat (eapply steps_trans;
          [| first [ apply centerSetter_steps | apply alignSetter_steps
                   | apply style_setter_steps | apply rangeSetter_steps
                   | apply valueSetter_steps | apply sizeSetter_steps
                   | apply textSetter_steps ]]).
  apply steps_refl.
Qed.

(** No setter pattern of the line names a known identifier: the setter
    blocks do nothing. *)
Lemma setters_skip (line : jstring) (i : nat) (st : pstate) :
  (forall re v, In re setterRes -> setterTarget re line = Some v ->
                map_get v (st_map st) = None) ->
  parseLayoutFunctions line i
    (parseStyleSetters line i (parsePropertySetters line i st)) = st.
Proof.
  intros H.
  unfold parseLayoutFunctions, parseStyleSetters, parsePropertySetters.
  rewrite textSetter_skip by (intros; eapply H; [|eassumption]; simpl; tauto).
  rewrite sizeSetter_skip by (intros; eapply H; [|eassumption]; simpl; tauto).
  rewrite valueSetter_skip by (intros; eapply H; [|eassumption]; simpl; tauto).
  rewrite rangeSetter_skip by (intros; eapply H; [|eassumption]; simpl; tauto).
  rewrite (style_setter_skip bgColorRe)
    by (intros; eapply H; [|eassumption]; simpl; tauto).
  rewrite (style_setter_skip textColorRe)
    by (intros; eapply H; [|eassumption]; simpl; tauto).
  rewrite (style_setter_skip fontRe)
    by (intros; eapply H; [|eassumption]; simpl; tauto).
  rewrite (style_setter_skip radiusRe)
    by (intros; eapply H; [|eassumption]; simpl; tauto).
  rewrite (style_setter_skip borderOpaRe)
    by (intros; eapply H; [|eassumption]; simpl; tauto).
  rewrite alignSetter_skip by (intros; eapply H; [|eassumption]; simpl; tauto).
  rewrite centerSetter_skip by (intros; eapply H; [|eassumption]; simpl; tauto).
  reflexivity.
Qed.

(** ** The creation block and the loop *)

Lemma Forall2_touched_map {B} (g : LVGLWidget -> B) (i : nat)
    (l l' : list LVGLWidget) :
  (forall w w', same_core w w' -> g w' = g w) ->
  Forall2 (touched i) l l' -> map g l' = map g l.
Proof.
  intros Hg H. induction H as [|w w' l l' [Hc _] _ IH]; simpl;
    [reflexivity|].
  rewrite IH, (Hg w w' Hc). reflexivity.
Qed.

Lemma widgetFact_core (w w' : LVGLWidget) :
  same_core w w' -> widgetFact w' = widgetFact w.
Proof.
  intros (A1 & A2 & A3 & _). unfold widgetFact. congruence.
Qed.

(** The creation block appends at most one widget, with the facts of the
    line and both line numbers equal to [i]. *)
Lemma createWidget_spec (raw : jstring) (i : nat) (st : pstate) :
  exists created,
    st_widgets (createWidget (trim raw) i st) = st_widgets st ++ created
    /\ map widgetFact created = creationFact raw
    /\ Forall (fun w => sourceLineStart w = i /\ sourceLineEnd w = i) created.
Proof.
  unfold createWidget, creationFact.
  destruct (re_match createRe (trim raw)) as [[|v [|t [|p [|? ?]]]]|];
    try (exists []; rewrite app_nil_r; repeat split; constructor).
  eexists [_]. simpl. repeat split. constructor; [|constructor].
  simpl. auto.
Qed.

Lemma processLine_spec (raw : jstring) (i : nat) (st : pstate) :
  exists kept created,
    st_widgets (processLine raw i st) = kept ++ created
    /\ Forall2 (touched i) (st_widgets st) kept
    /\ map widgetFact created = creationFact raw
    /\ Forall (fun w => sourceLineStart w = i /\ sourceLineEnd w = i) created.
Proof.
  unfold processLine.
  destruct (createWidget_spec raw i st) as (created & Hc & Hf & Hl).
  destruct (setters_steps (trim raw) i (createWidget (trim raw) i st))
    as [_ HF].
  rewrite Hc in HF. apply Forall2_app_inv_l in HF.
  destruct HF as (kept & created' & Hk & Hc' & ->).
  exists kept, created'. repeat split; auto.
  - rewrite <- Hf. eapply Forall2_touched_map; [|exact Hc'].
    apply widgetFact_core.
  - clear - Hl Hc'. induction Hc' as [|w w' l l' [Hcore Hend] _ IH];
      [constructor|].
    inversion Hl as [|? ? [Hs He] Hl']; subst. constructor; [|auto].
    destruct Hcore as (_ & _ & _ & _ & Hstart).
    split; [congruence|]. destruct Hend as [->|E]; congruence.
Qed.

Lemma processLines_facts (ls : list jstring) (i : nat) (st : pstate) :
  map widgetFact (st_widgets (processLines ls i st))
  = map widgetFact (st_widgets st) ++ flat_map creationFact ls.
Proof.
  revert i st. induction ls as [|l ls IH]; intros i st; simpl.
  - rewrite app_nil_r. reflexivity.
  - rewrite IH.
    destruct (processLine_spec l i st) as (kept & created & -> & Hk & Hf & _).
    rewrite map_app, Hf, <- app_assoc. f_equal.
    eapply Forall2_touched_map; [|exact Hk]. apply widgetFact_core.
Qed.

Lemma map_alter_same {B} (g : LVGLWidget -> B)
    (f : LVGLWidget -> LVGLWidget) (idx : nat) (ws : list LVGLWidget) :
  (forall w, g (f w) = g w) -> map g (alter f idx ws) = map g ws.
Proof.
  intros Hf. revert idx. induction ws as [|w ws IH]; intros [|idx]; simpl;
    try reflexivity.
  - rewrite Hf. reflexivity.
  - f_equal. apply IH.
Qed.

Lemma linkWidget_map {B} (g : LVGLWidget -> B) (m : jsmap nat)
    (store : list LVGLWidget) (idx : nat) :
  (forall c w, g (push_child c w) = g w) ->
  map g (linkWidget m store idx) = map g store.
Proof.
  intros Hg. unfold linkWidget.
  destruct (store !! idx) as [w|]; [|reflexivity].
  destruct (parent w) as [p|]; [|reflexivity].
  destruct (truthy p && negb (jeqb p (str "parent"))); [|reflexivity].
  destruct (map_get p m); [|reflexivity].
  apply map_alter_same. intros w0. apply Hg.
Qed.

(** [buildHierarchy] changes nothing but the [children] lists. *)
Lemma buildHierarchy_map {B} (g : LVGLWidget -> B) (st : pstate) :
  (forall c w, g (push_child c w) = g w) ->
  map g (st_widgets (buildHierarchy st)) = map g (st_widgets st).
Proof.
  intros Hg. unfold buildHierarchy. simpl.
  generalize (map_values (st_map st)) as idxs.
  generalize (st_widgets st) as store.
  intros store idxs. revert store.
  induction idxs as [|idx idxs IH]; intros store; simpl; [reflexivity|].
  rewrite IH. apply linkWidget_map, Hg.
Qed.

(** The widget collection of a parse has one record per line that the
    creation pattern matches, in line order, with the identifier, type
    and parent of that line. *)
Lemma parse_facts (f content : jstring) :
  map widgetFact (widgets (parse f content))
  = flat_map creationFact (split_lines content).
Proof.
  unfold parse, parseWidgets. cbn [widgets].
  rewrite (buildHierarchy_map widgetFact) by reflexivity.
  rewrite processLines_facts. reflexivity.
Qed.

(** ** Invariants of the loop *)

Lemma map_get_set {V} (k k' : jstring) (v : V) (m : jsmap V) :
  map_get k (map_set k' v m)
  = if jeqb k k' then Some v else map_get k m.
Proof.
  induction m as [|[k0 v0] m IH]; simpl.
  - reflexivity.
  - destruct (jeqb k' k0) eqn:E; simpl.
    + apply jeqb_eq in E. subst k0.
      destruct (jeqb k k'); reflexivity.
    + rewrite IH. destruct (jeqb k k0) eqn:E0; [|reflexivity].
      apply jeqb_eq in E0. subst k0.
      destruct (jeqb k k') eqn:E1; [|reflexivity].
      apply jeqb_eq in E1. subst k'. rewrite jeqb_refl in E. discriminate.
Qed.

Lemma map_ok_init : map_ok (mkState [] []).
Proof. split; simpl; [discriminate | tauto]. Qed.

Lemma map_ok_create (line : jstring) (i : nat) (st : pstate) :
  map_ok st -> map_ok (createWidget line i st).
Proof.
  intros [H1 H2]. unfold createWidget.
  destruct (re_match createRe line) as [[|v [|t [|p [|? ?]]]]|];
    try (split; assumption).
  split; simpl; intros k.
  - intros idx. rewrite map_get_set. destruct (jeqb k v) eqn:E.
    + apply jeqb_eq in E. subst k. intros [= <-].
      eexists. rewrite lookup_app_r, Nat.sub_diag by lia. simpl.
      split; reflexivity.
    + intros Hk. destruct (H1 k idx Hk) as (w & Hw & Hn).
      exists w. split; [|exact Hn].
      apply lookup_app_l_Some, Hw.
  - rewrite map_get_set. destruct (jeqb k v) eqn:E; [discriminate|].
    intros Hk. rewrite map_app, in_app_iff. simpl.
    apply jeqb_neq in E. intros [Hin|[Heq|[]]]; [|congruence].
    exact (H2 k Hk Hin).
Qed.

Lemma map_ok_steps (i : nat) (st st' : pstate) :
  steps i st st' -> map_ok st -> map_ok st'.
Proof.
  intros [Hm HF] [H1 H2]. split; rewrite Hm.
  - intros v idx Hv. destruct (H1 v idx Hv) as (w & Hw & Hn).
    destruct (Forall2_lookup_l _ _ _ _ _ HF Hw) as (w' & Hw' & [Hc _]).
    exists w'. split; [exact Hw'|].
    destruct Hc as (_ & Hname & _). congruence.
  - intros v Hv.
    rewrite (Forall2_touched_map variableName i _ _) by
      (first [ exact HF | intros ? ? (_ & Hname & _); exact Hname ]).
    apply H2, Hv.
Qed.

Lemma map_ok_processLine (raw : jstring) (i : nat) (st : pstate) :
  map_ok st -> map_ok (processLine raw i st).
Proof.
  intros H. unfold processLine.
  eapply map_ok_steps; [apply setters_steps|].
  apply map_ok_create, H.
Qed.

Lemma reachable_map_ok (i : nat) (st : pstate) :
  reachable i st -> map_ok st.
Proof.
  induction 1; [apply map_ok_init | apply map_ok_processLine; assumption].
Qed.

Lemma reachable_processLines (ls : list jstring) (i : nat) (st : pstate) :
  reachable i st -> reachable (i + length ls) (processLines ls i st).
Proof.
  revert i st. induction ls as [|l ls IH]; intros i st H; simpl.
  - rewrite Nat.add_0_r. exact H.
  - replace (i + S (length ls)) with (S i + length ls) by lia.
    apply IH. constructor. exact H.
Qed.

Lemma lines_ok_weaken (i j : nat) (w : LVGLWidget) :
  i <= j -> lines_ok i w -> lines_ok j w.
Proof. unfold lines_ok. lia. Qed.

Lemma touched_lines_ok (i : nat) (w w' : LVGLWidget) :
  touched i w w' -> lines_ok i w ->
  lines_ok i w' /\ sourceLineEnd w <= sourceLineEnd w'.
Proof.
  unfold lines_ok. intros [(_ & _ & _ & _ & Hs) [->|He]] [H1 H2]; lia.
Qed.

Lemma processLine_lines_ok (raw : jstring) (i : nat) (st : pstate) :
  Forall (lines_ok i) (st_widgets st) ->
  Forall (lines_ok (S i)) (st_widgets (processLine raw i st)).
Proof.
  intros H.
  destruct (processLine_spec raw i st) as (kept & created & -> & Hk & _ & Hl).
  apply Forall_app. split.
  - clear - H Hk. induction Hk as [|w w' l l' Ht _ IH]; [constructor|].
    inversion H; subst. constructor; [|auto].
    apply (lines_ok_weaken i); [lia|].
    apply (touched_lines_ok i w w'); assumption.
  - eapply Forall_impl; [exact Hl|].
    intros w [Hs He]. unfold lines_ok. lia.
Qed.

Lemma reachable_lines_ok (i : nat) (st : pstate) :
  reachable i st -> Forall (lines_ok i) (st_widgets st).
Proof.
  induction 1; [constructor | apply processLine_lines_ok; assumption].
Qed.

(** ** The mapping tables *)




(** ** The batch entry point *)

Lemma parseProjectWith_app {E}
    (parser : jstring -> jstring -> E + ParsedLVGLFile)
    (files : list (jstring * jstring)) (acc : list ParsedLVGLFile) :
  fold_left (batchStep parser) files acc
  = acc ++ flat_map (keptFile parser) files.
Proof.
  revert acc. induction files as [|file files IH]; intros acc; simpl.
  - rewrite app_nil_r. reflexivity.
  - rewrite IH. unfold batchStep, keptFile.
    destruct (parser (fst file) (snd file)) as [e|parsed]; [reflexivity|].
    destruct (0 <? length (widgets parsed))%nat; [|reflexivity].
    rewrite <- app_assoc. reflexivity.
Qed.

(** C7: the batch entry point returns, in input order, exactly the parsed
    files that have at least one widget; a file without widgets, or a
    file on which the parser throws, contributes nothing and leaves the
    results of the other files as they are. *)
Theorem batch_parse_spec :
  (forall files,
     parseArduinoLVGLProject files
     = List.filter (fun parsed => (0 <? length (widgets parsed))%nat)
         (map (fun file => parse (fst file) (snd file)) files))
  /\ (forall E (parser : jstring -> jstring -> E + ParsedLVGLFile) files,
        parseProjectWith parser files = flat_map (keptFile parser) files)
  /\ (forall files1 files2,
        parseArduinoLVGLProject (files1 ++ files2)
        = parseArduinoLVGLProject files1 ++ parseArduinoLVGLProject files2).
Proof.
  assert (G : forall E (parser : jstring -> jstring -> E + ParsedLVGLFile)
                files,
             parseProjectWith parser files = flat_map (keptFile parser) files).
  { intros E parser files. unfold parseProjectWith.
    rewrite parseProjectWith_app. reflexivity. }
  split; [|split].
  - intros files. unfold parseArduinoLVGLProject. rewrite G.
    induction files as [|file files IH]; [reflexivity|].
    cbn [flat_map map List.filter]. rewrite IH.
    unfold keptFile at 1, tryParse.
    destruct (0 <? length (widgets (parse (fst file) (snd file))))%nat;
      reflexivity.
  - exact G.
  - intros files1 files2. unfold parseArduinoLVGLProject.
    rewrite !G. apply flat_map_app.
Qed.

(** ** Lines without a recognizable pattern *)

Lemma matched_false (re : regex) (line : jstring) :
  matched re line = false -> re_match re line = None.
Proof. unfold matched. destruct (re_match re line); congruence. Qed.

(** C8: a line that no creation, property, style or layout pattern
    matches leaves the whole state of the parser as it is: no widget is
    created and no field of a widget, its last line included, changes. *)
Theorem unrecognized_line_frame (raw : jstring) (i : nat) (st : pstate) :
  recognized (trim raw) = false -> processLine raw i st = st.
Proof.
  unfold recognized. simpl. intros H.
  repeat (apply orb_false_elim in H; destruct H as [?M H]).
  unfold processLine.
  assert (C : createWidget (trim raw) i st = st).
  { unfold createWidget. rewrite (matched_false _ _ M). reflexivity. }
  rewrite C. apply setters_skip.
  intros re v Hin Hv. exfalso. unfold setterTarget in Hv.
  simpl in Hin.
  repeat (destruct Hin as [<-|Hin];
          [ match type of Hv with
            | context [re_match ?r _] =>
                match goal with
                | Hm : matched r _ = false |- _ =>
                    rewrite (matched_false _ _ Hm) in Hv
                end
            end; discriminate |]).
  destruct Hin.
Qed.

Lemma unrecognized_line_frame_witness :
  let st := processLine (str "a = lv_obj_create(parent);") 0
              (mkState [] []) in
  processLine (str "    delay(100);  // wait") 1 st = st.
Proof.
  apply unrecognized_line_frame. vm_compute. reflexivity.
Defined.

(** ** Repeated creation statements *)

Lemma filter_map_count {B C} (g : B -> C) (p : C -> bool) (l : list B) :
  length (List.filter (fun x => p (g x)) l)
  = length (List.filter p (map g l)).
Proof.
  induction l as [|x l IH]; simpl; [reflexivity|].
  destruct (p (g x)); simpl; rewrite IH; reflexivity.
Qed.

(** ** Line ranges *)

Lemma parse_reachable (content : jstring) :
  reachable (length (split_lines content))
    (processLines (split_lines content) 0 (mkState [] [])).
Proof. apply (reachable_processLines _ 0), reach_init. Qed.

(** C10: in a parse result every widget starts no later than it ends;
    while the lines are processed the last line of a widget never
    decreases; and a line whose setter patterns name only identifiers
    that no earlier or same-line creation statement has created does
    nothing beyond the creation block. *)
Theorem line_ranges :
  (forall f content w,
     In w (widgets (parse f content)) ->
     sourceLineStart w <= sourceLineEnd w)
  /\ (forall i st raw j w,
        reachable i st -> st_widgets st !! j = Some w ->
        exists w',
          st_widgets (processLine raw i st) !! j = Some w'
          /\ sourceLineEnd w <= sourceLineEnd w')
  /\ (forall i st raw,
        reachable i st ->
        (forall re v,
           In re setterRes -> setterTarget re (trim raw) = Some v ->
           ~ In v (map variableName
                     (st_widgets (createWidget (trim raw) i st)))) ->
        processLine raw i st = createWidget (trim raw) i st).
Proof.
  split; [|split].
  - intros f content w Hin.
    pose proof (reachable_lines_ok _ _ (parse_reachable content)) as Hok.
    apply (in_map (fun w => (sourceLineStart w, sourceLineEnd w))) in Hin.
    unfold parse, parseWidgets in Hin. cbn [widgets] in Hin.
    rewrite (buildHierarchy_map
               (fun w => (sourceLineStart w, sourceLineEnd w)))
      in Hin by reflexivity.
    apply in_map_iff in Hin. destruct Hin as (w0 & Heq & Hin0).
    rewrite List.Forall_forall in Hok. destruct (Hok w0 Hin0) as [Hs _].
    injection Heq as <- <-. exact Hs.
  - intros i st raw j w Hr Hj.
    pose proof (reachable_lines_ok _ _ Hr) as Hok.
    destruct (processLine_spec raw i st) as (kept & created & -> & Hk & _).
    destruct (Forall2_lookup_l _ _ _ _ _ Hk Hj) as (w' & Hw' & Ht).
    exists w'. split; [apply lookup_app_l_Some, Hw'|].
    rewrite List.Forall_forall in Hok.
    apply (touched_lines_ok i w w' Ht). apply Hok.
    apply list_elem_of_In. eapply list_elem_of_lookup_2, Hj.
  - intros i st raw Hr H. unfold processLine. apply setters_skip.
    intros re v Hin Hv.
    pose proof (map_ok_create (trim raw) i st (reachable_map_ok _ _ Hr))
      as [H1 H2].
    destruct (map_get v (st_map (createWidget (trim raw) i st)))
      as [idx|] eqn:E; [|reflexivity].
    exfalso. apply (H re v Hin Hv).
    destruct (H1 v idx E) as (w & Hw & <-).
    apply in_map. apply list_elem_of_In. eapply list_elem_of_lookup_2, Hw.
Qed.

Lemma line_ranges_witness :
  match widgets (parse (str "test.cpp") labelTestCode) with
  | w :: _ => sourceLineStart w <= sourceLineEnd w
  | [] => True
  end
  /\ (let st := processLine (str "a = lv_obj_create(parent);") 0
                  (mkState [] []) in
      processLine (str "lv_obj_center(b);") 1 st
      = createWidget (trim (str "lv_obj_center(b);")) 1 st).
Proof.
  destruct line_ranges as (H1 & _ & H3). split.
  - destruct (widgets (parse (str "test.cpp") labelTestCode))
      as [|w ws] eqn:E; [exact I|].
    apply (H1 (str "test.cpp") labelTestCode). rewrite E. left. reflexivity.
  - apply H3.
    + apply reach_step, reach_init.
    + intros re v Hin Hv. simpl in Hin.
      repeat (destruct Hin as [<-|Hin];
              [vm_compute in Hv; try discriminate Hv|]);
        try destruct Hin.
      injection Hv as <-. vm_compute. intuition discriminate.
Defined.

(** ** The creation pattern *)

Lemma word_not_space c : is_word c = true -> is_space c = false.
Proof. destruct c as [[] [] [] [] [] [] [] []]; vm_compute; congruence. Qed.

Lemma create_prefix (R : regex) (X : jstring) (caps : list jstring) :
  match_items (A S0 :: A (L "=") :: A S0 :: A (L "lv_") :: R)
    (str " = lv_" ++ X) caps
  = match_items R X caps.
Proof.
  simpl. destruct (match_items R X caps); reflexivity.
Qed.

Lemma match_items_group1 (a : atom) (r : regex) (s : jstring)
    (caps : list jstring) :
  match_items (Group [a] :: r) s caps
  = match_atom a s (fun s' => match_items r s' (caps ++ [consumed s s'])).
Proof. reflexivity. Qed.

Lemma create_tail (kind rest : jstring) (caps : list jstring) :
  all_word kind ->
  match_items [Group [W]; A (L "_create("); Group [Not ")"]; A (L ")");
               A S0; A (L ";")]
    (kind ++ str "_create(parent);" ++ rest) caps
  = Some (caps ++ [kind; str "parent"]).
Proof.
  intros Hk. rewrite match_items_group1.
  apply plus_app_some; [exact Hk|].
  simpl. rewrite consumed_app, <- app_assoc.
  change (consumed (_ :: _) _)
    with (consumed (str "parent" ++ (")"%char :: ";"%char :: rest))
            (")"%char :: ";"%char :: rest)).
  rewrite consumed_app. reflexivity.
Qed.

(** At the start of the identifier the pattern matches the statement. *)
Lemma createRe_statement_here (ident kind rest : jstring) :
  all_word ident -> all_word kind ->
  match_items createRe
    (ident ++ str " = lv_" ++ kind ++ str "_create(parent);" ++ rest) []
  = Some [ident; kind; str "parent"].
Proof.
  intros Hi Hk. unfold createRe.
  rewrite match_items_group1.
  apply plus_app_some; [exact Hi|].
  change (str " = lv_" ++ kind ++ str "_create(parent);" ++ rest)
    with (" "%char :: str "= lv_" ++ kind ++ str "_create(parent);" ++ rest).
  rewrite star_stop by reflexivity.
  change (" "%char :: str "= lv_" ++ kind ++ str "_create(parent);" ++ rest)
    with (str " = lv_" ++ kind ++ str "_create(parent);" ++ rest).
  rewrite consumed_app, create_prefix.
  apply create_tail, Hk.
Qed.

Lemma is_not_neq (x c : ascii) : is_not x c = true <-> c <> x.
Proof.
  unfold is_not. rewrite negb_true_iff. split.
  - intros H ->. rewrite Ascii.eqb_refl in H. discriminate.
  - intros H. destruct (Ascii.eqb c x) eqn:E; [|reflexivity].
    apply Ascii.eqb_eq in E. contradiction.
Qed.

Lemma createRe_sound (s : jstring) (res : list jstring) :
  re_match createRe s = Some res ->
  exists pre v s1 s2 t p s3 rest,
    s = pre ++ v ++ s1 ++ str "=" ++ s2 ++ str "lv_" ++ t ++ str "_create("
        ++ p ++ str ")" ++ s3 ++ str ";" ++ rest
    /\ res = [v; t; p]
    /\ all_word v /\ all_word t
    /\ p <> [] /\ no_char ")" p
    /\ Forall (fun c => is_space c = true) s3.
Proof.
  intros H. apply re_match_sound in H. destruct H as (pre & s0 & -> & H).
  simpl in H.
  destruct H as (w & ? & -> & (v & ? & -> & Hv & ->) & sp1 & ? & -> & Hsp1
                 & ? & ? & -> & -> & sp2 & ? & -> & Hsp2
                 & ? & ? & -> & -> & w4 & ? & -> & (t & ? & -> & Ht & ->)
                 & ? & ? & -> & -> & w6 & ? & -> & (p & ? & -> & Hp & ->)
                 & ? & ? & -> & -> & sp3 & ? & -> & Hsp3
                 & ? & rest & -> & -> & ->).
  exists pre, v, sp1, sp2, t, p, sp3, rest.
  rewrite !app_nil_r.
  split; [rewrite <- ?app_assoc; reflexivity|].
  split; [reflexivity|].
  split; [exact Hv|]. split; [exact Ht|].
  split; [apply Hp|]. split; [|exact Hsp3].
  destruct Hp as [_ Hp]. eapply Forall_impl; [exact Hp|].
  intros c Hc. apply is_not_neq, Hc.
Qed.

Lemma dropWhile_app_stop (p : ascii -> bool) (a : jstring) (c : ascii)
    (b : jstring) :
  p c = false -> dropWhile p (a ++ c :: b) = dropWhile p a ++ c :: b.
Proof.
  intros Hc. induction a as [|x a IH]; simpl.
  - rewrite Hc. reflexivity.
  - destruct (p x); [exact IH | reflexivity].
Qed.

Lemma dropWhile_all (p : ascii -> bool) (a b : jstring) :
  Forall (fun c => p c = true) a -> dropWhile p (a ++ b) = dropWhile p b.
Proof.
  induction 1 as [|x a Hx _ IH]; simpl; [reflexivity|].
  rewrite Hx. exact IH.
Qed.

Lemma Forall_dropWhile (P : ascii -> Prop) (p : ascii -> bool) (s : jstring) :
  Forall P s -> Forall P (dropWhile p s).
Proof.
  induction 1 as [|x s Hx Hs IH]; simpl; [constructor|].
  destruct (p x); [exact IH | constructor; assumption].
Qed.

(** A text that ends with a character other than white space loses only
    its leading white space. *)
Lemma trim_ends (s0 : jstring) (c : ascii) :
  is_space c = false -> trim (s0 ++ [c]) = dropWhile is_space s0 ++ [c].
Proof.
  intros Hc. unfold trim. rewrite dropWhile_app_stop by exact Hc.
  rewrite rev_app_distr. simpl. rewrite Hc. simpl.
  rewrite rev_involutive. reflexivity.
Qed.



Lemma word_not_newline (c : ascii) : is_word c = true -> c <> newline.
Proof. intros H ->. vm_compute in H. discriminate. Qed.

Lemma word_not_close (c : ascii) : is_word c = true -> c <> ")"%char.
Proof. intros H ->. vm_compute in H. discriminate. Qed.

Lemma split_lines_nonempty (s : jstring) : split_lines s <> [].
Proof.
  destruct s as [|c s]; simpl; [discriminate|].
  destruct (Ascii.eqb c newline); [discriminate|].
  destruct (split_lines s); discriminate.
Qed.

Lemma split_lines_app (l r : jstring) :
  no_char newline l ->
  split_lines (l ++ newline :: r) = l :: split_lines r.
Proof.
  induction 1 as [|c l Hc _ IH]; simpl.
  - reflexivity.
  - rewrite IH. destruct (Ascii.eqb c newline) eqn:E; [|reflexivity].
    apply Ascii.eqb_eq in E. contradiction.
Qed.

Lemma split_lines_single (l : jstring) :
  no_char newline l -> split_lines l = [l].
Proof.
  induction 1 as [|c l Hc _ IH]; simpl; [reflexivity|].
  rewrite IH. destruct (Ascii.eqb c newline) eqn:E; [|reflexivity].
  apply Ascii.eqb_eq in E. contradiction.
Qed.

Lemma split_join (ls : list jstring) :
  ls <> [] -> Forall (no_char newline) ls ->
  split_lines (join_lines ls) = ls.
Proof.
  intros Hne H. induction H as [|l ls Hl Hls IH]; [congruence|].
  destruct ls as [|l2 ls].
  - simpl. apply split_lines_single, Hl.
  - change (join_lines (l :: l2 :: ls))
      with (l ++ newline :: join_lines (l2 :: ls)).
    rewrite split_lines_app by exact Hl. rewrite IH by discriminate.
    reflexivity.
Qed.

Lemma flat_map_nil {B C} (g : B -> list C) (l : list B) :
  Forall (fun x => g x = []) l -> flat_map g l = [].
Proof.
  induction 1 as [|x l Hx _ IH]; simpl; [reflexivity|].
  rewrite Hx, IH. reflexivity.
Qed.

Lemma all_word_no (x : ascii) (s : jstring) :
  is_word x = false -> all_word s -> no_char x s.
Proof.
  intros Hx [_ H]. eapply Forall_impl; [exact H|].
  intros c Hc ->. congruence.
Qed.

Lemma widgets_of_single_fact (f content : jstring)
    (fact : jstring * jstring * option jstring) :
  flat_map creationFact (split_lines content) = [fact] ->
  exists w, widgets (parse f content) = [w] /\ widgetFact w = fact.
Proof.
  intros H. pose proof (parse_facts f content) as P. rewrite H in P.
  destruct (widgets (parse f content)) as [|w [|w2 ws]]; try discriminate.
  exists w. split; [reflexivity|]. simpl in P. congruence.
Qed.

Lemma first_split (x : ascii) (a a' b b' : jstring) :
  no_char x a -> no_char x a' ->
  a ++ x :: b = a' ++ x :: b' -> a = a' /\ b = b'.
Proof.
  intros Ha. revert a'. induction Ha as [|c a Hc _ IH]; intros a' Ha' H.
  - destruct Ha' as [|c' a' Hc' _]; simpl in H.
    + injection H as ->. auto.
    + injection H as <- _. congruence.
  - destruct Ha' as [|c' a' Hc' Ha']; simpl in H.
    + injection H as -> _. congruence.
    + injection H as -> H. destruct (IH a' Ha' H) as [-> ->]. auto.
Qed.

Lemma word_not_eq (c : ascii) : is_word c = true -> c <> "="%char.
Proof. intros H ->. vm_compute in H. discriminate. Qed.

Lemma space_not_eq (c : ascii) : is_space c = true -> c <> "="%char.
Proof. intros H ->. vm_compute in H. discriminate. Qed.

(** Before the identifier, in a text without [=] that ends outside a
    word, the pattern cannot start. *)
Lemma createRe_not_before (p0 : jstring) (x : ascii) (ident rest : jstring) :
  no_char "=" (p0 ++ [x]) -> is_word x = false -> all_word ident ->
  match_items createRe
    ((p0 ++ [x]) ++ ident ++ str " = lv_" ++ rest) [] = None.
Proof.
  intros Hp Hx [Hne Hid].
  destruct (match_items createRe _ []) as [res|] eqn:E; [exfalso|reflexivity].
  apply match_items_sound in E. simpl in E.
  destruct E as (w & s1 & E & (v & ? & -> & [_ Hv] & ->) & sp & s2 & ->
                 & Hsp & ? & s3 & -> & -> & _).
  rewrite app_nil_r in E.
  assert (S : p0 ++ x :: ident ++ [" "%char] = v ++ sp
              /\ str " lv_" ++ rest = s3).
  { apply (first_split "="%char).
    - unfold no_char. apply Forall_app in Hp. destruct Hp as [Hp0 Hpx].
      rewrite Forall_app. split; [exact Hp0|].
      inversion Hpx; subst. constructor; [assumption|].
      rewrite Forall_app. split; [|repeat constructor; discriminate].
      eapply Forall_impl; [exact Hid|]. intros c. apply word_not_eq.
    - unfold no_char. rewrite Forall_app. split.
      + eapply Forall_impl; [exact Hv|]. intros c. apply word_not_eq.
      + eapply Forall_impl; [exact Hsp|]. intros c. apply space_not_eq.
    - revert E. repeat (rewrite <- app_assoc; simpl).
      intros E. exact E. }
  destruct S as [S _].
  assert (D : Forall (fun c => is_space c = true)
                (dropWhile is_word (v ++ sp))).
  { rewrite dropWhile_all by exact Hv. apply Forall_dropWhile, Hsp. }
  rewrite <- S, dropWhile_app_stop in D by exact Hx.
  apply Forall_app in D. destruct D as [_ D].
  inversion D as [|? ? _ D']; subst.
  destruct Hid as [|c ident Hc _]; [congruence|].
  inversion D' as [|? ? Hs _]; subst.
  rewrite (word_not_space c Hc) in Hs. discriminate.
Qed.

Lemma ends_outside_word_tail (c : ascii) (s : jstring) :
  ends_outside_word (c :: s) -> s <> [] -> ends_outside_word s.
Proof.
  intros H Hne s0 d ->. apply (H (c :: s0) d). reflexivity.
Qed.

(** The leftmost match of the creation pattern in a line that holds the
    statement after a text without [=] that ends outside a word. *)
Lemma createRe_statement (pre ident kind rest : jstring) :
  no_char "=" pre -> ends_outside_word pre ->
  all_word ident -> all_word kind ->
  re_match createRe
    (pre ++ ident ++ str " = lv_" ++ kind ++ str "_create(parent);" ++ rest)
  = Some [ident; kind; str "parent"].
Proof.
  intros Hp He Hi Hk. induction pre as [|c pre IH].
  - apply re_match_here, createRe_statement_here; assumption.
  - assert (N : match_items createRe
                  ((c :: pre) ++ ident ++ str " = lv_" ++ kind
                   ++ str "_create(parent);" ++ rest) [] = None).
    { destruct (exists_last (l := c :: pre)) as (p0 & x & Ex);
        [discriminate|].
      rewrite Ex. apply createRe_not_before; [|eapply He; exact Ex|exact Hi].
      rewrite <- Ex. exact Hp. }
    simpl in *. rewrite N. inversion Hp; subst.
    destruct pre as [|c' pre'].
    + apply re_match_here, createRe_statement_here; assumption.
    + apply IH; [assumption|].
      apply (ends_outside_word_tail c); [exact He | discriminate].
Qed.

Lemma dropWhile_suffix (p : ascii -> bool) (s : jstring) :
  exists a, s = a ++ dropWhile p s.
Proof.
  induction s as [|c s [a IH]]; simpl; [exists []; reflexivity|].
  destruct (p c); [|exists []; reflexivity].
  exists (c :: a). simpl. f_equal. exact IH.
Qed.

(** The end of a text is trimmed separately when a character other than
    white space precedes it. *)
Lemma trim_split (pre : jstring) (c : ascii) (mid : jstring) (d : ascii)
    (post : jstring) :
  is_space c = false -> is_space d = false ->
  trim (pre ++ c :: mid ++ d :: post)
  = dropWhile is_space pre ++ c :: mid ++ d
    :: rev (dropWhile is_space (rev post)).
Proof.
  intros Hc Hd. unfold trim.
  rewrite dropWhile_app_stop by exact Hc.
  replace (rev (dropWhile is_space pre ++ c :: mid ++ d :: post))
    with (rev post ++ d :: rev (dropWhile is_space pre ++ c :: mid)).
  - rewrite dropWhile_app_stop by exact Hd.
    rewrite rev_app_distr. simpl. rewrite rev_involutive.
    repeat (rewrite <- app_assoc; simpl). reflexivity.
  - change (c :: mid ++ d :: post) with ((c :: mid) ++ d :: post).
    rewrite (app_assoc _ (c :: mid)), (rev_app_distr _ (d :: post)).
    simpl. rewrite <- app_assoc. reflexivity.
Qed.

Lemma creationFact_statement (pre ident kind post : jstring) :
  no_char "=" pre -> ends_outside_word pre ->
  all_word ident -> all_word kind ->
  creationFact (pre ++ ident ++ str " = lv_" ++ kind
                ++ str "_create(parent);" ++ post)
  = [(ident, str "lv_" ++ kind, None)].
Proof.
  intros Hp He Hi Hk. unfold creationFact.
  assert (T : exists post',
             trim (pre ++ ident ++ str " = lv_" ++ kind
                   ++ str "_create(parent);" ++ post)
             = dropWhile is_space pre ++ ident ++ str " = lv_" ++ kind
               ++ str "_create(parent);" ++ post').
  { destruct Hi as [Hne Hw]. destruct Hw as [|c ident' Hc Hw]; [congruence|].
    exists (rev (dropWhile is_space (rev post))).
    pose proof (trim_split pre c
                  (ident' ++ str " = lv_" ++ kind ++ str "_create(parent)")
                  ";"%char post (word_not_space c Hc) eq_refl) as E.
    revert E. repeat (rewrite <- app_assoc; simpl). intros E. exact E. }
  destruct T as [post' ->].
  rewrite createRe_statement; try assumption.
  - reflexivity.
  - apply Forall_dropWhile, Hp.
  - destruct (dropWhile_suffix is_space pre) as [a Ea].
    intros s0 x Ex. apply (He (a ++ s0) x).
    rewrite Ea at 1. rewrite Ex, app_assoc. reflexivity.
Qed.

(** C2: a text whose only creation statement is
    [identifier = lv_<kind>_create(parent);] parses to exactly one widget,
    of type [lv_<kind>], named by the identifier, with no parent.  The
    statement may follow, on its line, a text without [=] that ends
    outside a word (indentation, a type) and may be followed by any text;
    the other lines match no creation pattern.  And the text of the first
    parser test yields one widget of type [lv_label] named [scale_label]
    with the text [0.0g] among its properties and the text color
    [0x00FFFF] among its styles. *)
Theorem single_creation_statement :
  (forall f before after pre post ident kind,
     all_word ident -> all_word kind ->
     no_char "=" pre -> ends_outside_word pre ->
     no_char newline pre -> no_char newline post ->
     Forall (no_char newline) (before ++ after) ->
     Forall (fun l => creationFact l = []) (before ++ after) ->
     exists w,
       widgets (parse f (join_lines
                  (before
                   ++ [pre ++ ident ++ str " = lv_" ++ kind
                       ++ str "_create(parent);" ++ post]
                   ++ after))) = [w]
       /\ type w = str "lv_" ++ kind
       /\ variableName w = ident
       /\ parent w = None)
  /\ match widgets (parse (str "test.cpp") labelTestCode) with
     | [w] =>
         type w = str "lv_label"
         /\ variableName w = str "scale_label"
         /\ parent w = None
         /\ map_get (str "text") (properties w) = Some (str "0.0g")
         /\ map_get (str "text_color") (styles w) = Some (str "0x00FFFF")
     | _ => False
     end.
Proof.
  split; [|vm_compute; repeat split].
  intros f before after pre post ident kind Hi Hk Hp He Hnp Hnq Hlines Hnone.
  apply Forall_app in Hlines. destruct Hlines as [Hb Ha].
  apply Forall_app in Hnone. destruct Hnone as [Nb Na].
  set (stmt := pre ++ ident ++ str " = lv_" ++ kind
               ++ str "_create(parent);" ++ post).
  destruct (widgets_of_single_fact f
              (join_lines (before ++ [stmt] ++ after))
              (ident, str "lv_" ++ kind, None)) as (w & Hw & Hf).
  - rewrite split_join.
    + rewrite !flat_map_app, (flat_map_nil _ _ Nb), (flat_map_nil _ _ Na).
      cbn [flat_map app]. rewrite !app_nil_r. unfold stmt.
      apply creationFact_statement; assumption.
    + destruct before; discriminate.
    + apply Forall_app. split; [exact Hb|].
      constructor; [|exact Ha].
      unfold stmt, no_char. rewrite !Forall_app.
      split; [exact Hnp|].
      split; [apply (all_word_no newline); [reflexivity | exact Hi]|].
      split; [repeat constructor; discriminate|].
      split; [apply (all_word_no newline); [reflexivity | exact Hk]|].
      split; [repeat constructor; discriminate | exact Hnq].
  - exists w. split; [exact Hw|].
    unfold widgetFact in Hf. injection Hf as H1 H2 H3. auto.
Qed.

Lemma single_creation_statement_witness :
  exists w,
    widgets (parse (str "ui.cpp")
               (join_lines ([str "void build(lv_obj_t * parent) {"]
                            ++ [str "  lv_obj_t * " ++ str "title"
                                ++ str " = lv_" ++ str "label"
                                ++ str "_create(parent);"
                                ++ str " // the title"]
                            ++ [str "}"]))) = [w]
    /\ type w = str "lv_" ++ str "label"
    /\ variableName w = str "title"
    /\ parent w = None.
Proof.
  destruct single_creation_statement as [H _].
  apply H.
  - split; [discriminate | repeat constructor].
  - split; [discriminate | repeat constructor].
  - repeat constructor; discriminate.
  - intros s0 c E.
    assert (R : rev (str "  lv_obj_t * ") = rev (s0 ++ [c]))
      by (rewrite E; reflexivity).
    rewrite rev_app_distr in R. simpl in R. injection R as <- _.
    reflexivity.
  - repeat constructor; discriminate.
  - repeat constructor; discriminate.
  - repeat constructor; discriminate.
  - repeat constructor.
Defined.



(** ** Percentage sizes

    C1, at the input [pctCode]: the parser keeps the percentage of the
    width as [100%] but stores the text [LV_PCT(50] for the height; the
    generator wraps the marked width again and emits
    [LV_PCT(100%)]; parsing the generated text gives neither [100%] nor
    [50%]. *)
Theorem percentage_size_divergence :
  sizesOf pctCode = [(SStr (str "100%"), SStr (str "LV_PCT(50"))]
  /\ exportFirst pctCode
     = [str "panel = lv_obj_create(parent);";
        str "lv_obj_set_size(panel, LV_PCT(100%), LV_PCT(50);";
        str "lv_obj_set_pos(panel, 0, 0);";
        []]
  /\ sizesOf (join_lines (exportFirst pctCode))
     = [(SStr (str "LV_PCT(100%)"), SStr (str "LV_PCT(50"))].
Proof. vm_compute. repeat split. Qed.

(** ** The code generator *)

Lemma generateWidgetIn_eq (rand : nat -> jstring) (w : EEZWidget)
    (parentVar : jstring) (g : generator) :
  generateWidgetIn rand w parentVar g
  = fold_left
      (fun acc child =>
         generateWidgetIn rand child (fst (widgetVarName rand w g)) acc)
      (e_children w)
      (generateOwn w (fst (widgetVarName rand w g)) parentVar
         (snd (widgetVarName rand w g))).
Proof.
  destruct w. simpl. destruct (widgetVarName _ _ _). reflexivity.
Qed.

Lemma fold_left_ext_Forall {B C} (F1 F2 : C -> B -> C) (l : list B) (c : C) :
  Forall (fun x => forall acc, F1 acc x = F2 acc x) l ->
  fold_left F1 l c = fold_left F2 l c.
Proof.
  intros H. revert c. induction H as [|x l Hx _ IH]; intros c; simpl;
    [reflexivity|].
  rewrite Hx. apply IH.
Qed.

Lemma generateWidgetIn_rand (rand1 rand2 : nat -> jstring) (w : EEZWidget) :
  allIdentified w = true ->
  forall parentVar g,
    generateWidgetIn rand1 w parentVar g = generateWidgetIn rand2 w parentVar g.
Proof.
  induction w as [w IH] using EEZWidget_tree_ind. intros Hw parentVar g.
  destruct w; simpl in *. 
  apply andb_true_iff in Hw. destruct Hw as [Hid Hkids].
  unfold widgetVarName. simpl. rewrite Hid.
  apply fold_left_ext_Forall.
  rewrite forallb_forall in Hkids. rewrite List.Forall_forall in IH |- *.
  intros c Hc acc. apply IH; auto.
Qed.

Lemma addLine_lines (line : jstring) (g : generator) :
  code_lines (addLine line g)
  = code_lines g ++ [repeat " "%char (indent g * indentSize g) ++ line].
Proof. reflexivity. Qed.

Lemma extends_refl g : extends g g.
Proof. repeat split. exists []. rewrite app_nil_r. reflexivity. Qed.

Lemma extends_trans g1 g2 g3 : extends g1 g2 -> extends g2 g3 -> extends g1 g3.
Proof.
  intros (A1 & A2 & m1 & E1) (B1 & B2 & m2 & E2).
  repeat split; try congruence.
  exists (m1 ++ m2). rewrite E2, E1, app_assoc. reflexivity.
Qed.

Lemma extends_addLine line g : extends g (addLine line g).
Proof. repeat split. eexists. apply addLine_lines. Qed.

Lemma extends_fold {B} (F : generator -> B -> generator) (l : list B) g :
  (forall acc x, extends acc (F acc x)) -> extends g (fold_left F l g).
Proof.
  intros HF. revert g. induction l as [|x l IH]; intros g; simpl.
  - apply extends_refl.
  - eapply extends_trans; [apply HF | apply IH].
Qed.

Lemma extends_generateStyles v ls g : extends g (generateStyles v ls g).
Proof.
  destruct ls as [d|]; simpl; [|apply extends_refl].
  apply extends_fold. intros acc x. apply extends_addLine.
Qed.

Lemma generateOwn_first (w : EEZWidget) (v parentVar : jstring) (g : generator) :
  exists g1,
    g1 = addLine (v ++ str " = lv_" ++ getWidgetTypeFromEEZ (e_type w)
                  ++ str "_create(" ++ parentVar ++ str ");") g
    /\ extends g1 (generateOwn w v parentVar g).
Proof.
  eexists. split; [reflexivity|]. unfold generateOwn.
  repeat first
    [ apply extends_refl
    | (eapply extends_trans; [|apply extends_addLine])
    | (eapply extends_trans; [|apply extends_generateStyles])
    | match goal with
      | |- extends _ (if ?b then _ else _) => destruct b
      | |- extends _ (match ?o with Some _ => _ | None => _ end) => destruct o
      end ].
Qed.

Lemma extends_widgetVarName rand (w : EEZWidget) (g : generator) :
  extends g (snd (widgetVarName rand w g)).
Proof.
  unfold widgetVarName. destruct (truthy (identifier w)); simpl.
  - apply extends_refl.
  - repeat split. exists []. simpl. rewrite app_nil_r. reflexivity.
Qed.

Lemma extends_generateWidgetIn rand (w : EEZWidget) :
  forall parentVar g, extends g (generateWidgetIn rand w parentVar g).
Proof.
  induction w as [w IH] using EEZWidget_tree_ind. intros parentVar g.
  rewrite generateWidgetIn_eq.
  destruct (generateOwn_first w (fst (widgetVarName rand w g)) parentVar
              (snd (widgetVarName rand w g))) as (g1 & -> & Hown).
  eapply extends_trans; [apply extends_widgetVarName|].
  eapply extends_trans; [apply extends_addLine|].
  eapply extends_trans; [exact Hown|].
  revert IH. generalize (e_children w) as kids.
  generalize (generateOwn w (fst (widgetVarName rand w g)) parentVar
                (snd (widgetVarName rand w g))) as g2.
  intros g2 kids. revert g2.
  induction kids as [|c kids IHk]; intros g2 IH; simpl.
  - apply extends_refl.
  - inversion IH; subst.
    eapply extends_trans; [|apply IHk; assumption]. auto.
Qed.

(** C5 (as the code has it): for a tree in which every widget has a
    non-empty identifier the generated text does not depend on the
    random source, only on the tree, the parent reference and the lines
    already in the generator; a widget without identifier is not
    rejected: its statements are emitted under the synthesized name
    [obj_] followed by the random text. *)
Theorem generation_deterministic_when_identified :
  (forall rand1 rand2 w parentVar g,
     allIdentified w = true ->
     generateWidget rand1 w parentVar g = generateWidget rand2 w parentVar g)
  /\ (forall rand w parentVar g,
        truthy (identifier w) = false ->
        exists more,
          code_lines (fst (generateWidget rand w parentVar g))
          = code_lines g
            ++ (repeat " "%char (indent g * indentSize g)
                ++ str "obj_" ++ rand (rnd g) ++ str " = lv_"
                ++ getWidgetTypeFromEEZ (e_type w) ++ str "_create("
                ++ parentVar ++ str ");") :: more).
Proof.
  split.
  - intros rand1 rand2 w parentVar g H. unfold generateWidget.
    rewrite (generateWidgetIn_rand rand1 rand2 w H). reflexivity.
  - intros rand w parentVar g H. unfold generateWidget. cbn [fst].
    rewrite generateWidgetIn_eq.
    unfold widgetVarName. rewrite H. cbn [fst snd].
    set (g0 := mkGen (indent g) (indentSize g) (code_lines g) (S (rnd g))).
    set (v := str "obj_" ++ rand (rnd g)).
    destruct (generateOwn_first w v parentVar g0) as (g1 & -> & Hown).
    assert (Hkids : extends (generateOwn w v parentVar g0)
              (fold_left (fun acc child => generateWidgetIn rand child v acc)
                 (e_children w) (generateOwn w v parentVar g0))).
    { apply extends_fold. intros acc x. apply extends_generateWidgetIn. }
    destruct (extends_trans _ _ _ Hown Hkids) as (_ & _ & more & E).
    exists more. rewrite E, addLine_lines. unfold g0. cbn [code_lines indent indentSize].
    rewrite <- app_assoc. unfold v. rewrite <- !app_assoc. reflexivity.
Qed.

Lemma generation_deterministic_when_identified_witness :
  generateWidget (fun _ => str "k3j2h1")
    (mkEEZ (str "LVGLButtonWidget") (str "ok_btn") 4 8 (str "px") (str "px")
       (SNum 90) (SNum 45) (str "px") (str "px") [] None
       None None None None None None None (Some false))
    (str "parent") newGenerator
  = generateWidget (fun _ => str "x9y8z7")
      (mkEEZ (str "LVGLButtonWidget") (str "ok_btn") 4 8 (str "px") (str "px")
         (SNum 90) (SNum 45) (str "px") (str "px") [] None
         None None None None None None None (Some false))
      (str "parent") newGenerator
  /\ exists more,
       code_lines (fst (generateWidget (fun _ => str "k3j2h1") anonymousLabel
                          (str "parent") newGenerator))
       = code_lines newGenerator
         ++ (repeat " "%char (indent newGenerator * indentSize newGenerator)
             ++ str "obj_" ++ str "k3j2h1" ++ str " = lv_"
             ++ getWidgetTypeFromEEZ (e_type anonymousLabel)
             ++ str "_create(" ++ str "parent" ++ str ");") :: more.
Proof.
  destruct generation_deterministic_when_identified as [H1 H2]. split.
  - apply H1. reflexivity.
  - apply (H2 (fun _ => str "k3j2h1")). reflexivity.
Defined.

(** C5 does not hold as the specification words it: for a label
    without identifier two random sources give two different texts, and
    the text declares the synthesized name without any flag. *)
Lemma anonymous_widget_random_identifier :
  snd (generateWidget (fun _ => str "k3j2h1") anonymousLabel (str "parent")
         newGenerator)
  <> snd (generateWidget (fun _ => str "x9y8z7") anonymousLabel (str "parent")
            newGenerator)
  /\ code_lines (fst (generateWidget (fun _ => str "k3j2h1") anonymousLabel
                        (str "parent") newGenerator))
     = [str "obj_k3j2h1 = lv_label_create(parent);";
        str "lv_obj_set_pos(obj_k3j2h1, 0, 0);";
        []].
Proof. vm_compute. split; [discriminate | reflexivity]. Qed.

(** ** The hierarchy and the page *)

Lemma linkWidget_parentIdx m store idx :
  linkWidget m store idx
  = match parentIdx m store idx with
    | Some pidx => alter (push_child idx) pidx store
    | None => store
    end.
Proof.
  unfold linkWidget, parentIdx.
  destruct (store !! idx) as [w|]; [|reflexivity].
  destruct (parent w) as [p|]; [|reflexivity].
  destruct (truthy p && negb (jeqb p (str "parent"))); [|reflexivity].
  destruct (map_get p m); reflexivity.
Qed.

Lemma lookup_map_eq {B} (g : LVGLWidget -> B) (l l' : list LVGLWidget)
    (i : nat) :
  map g l' = map g l -> g <$> (l' !! i) = g <$> (l !! i).
Proof.
  revert l i. induction l' as [|x l' IH]; intros [|y l] i H;
    try discriminate; [reflexivity|].
  injection H as Hx Hl. destruct i as [|i]; simpl; [congruence|].
  apply IH, Hl.
Qed.

Lemma parentIdx_ext m (store store' : list LVGLWidget) :
  map parent store' = map parent store ->
  forall c, parentIdx m store' c = parentIdx m store c.
Proof.
  intros H c. unfold parentIdx.
  assert (E : parent <$> store' !! c = parent <$> store !! c)
    by (apply lookup_map_eq, H).
  destruct (store' !! c) as [w'|], (store !! c) as [w|]; simpl in E;
    try discriminate; [|reflexivity].
  injection E as ->. reflexivity.
Qed.

Lemma parentIdx_valid m store c p :
  parentIdx m store c = Some p -> is_Some (store !! c).
Proof.
  unfold parentIdx. destruct (store !! c); [eauto | discriminate].
Qed.

Lemma linkWidget_children_ok m store0 cur idx :
  map parent cur = map parent store0 ->
  children_ok m store0 cur ->
  children_ok m store0 (linkWidget m cur idx).
Proof.
  intros Hp Hok. rewrite linkWidget_parentIdx.
  destruct (parentIdx m cur idx) as [pidx|] eqn:E; [|exact Hok].
  rewrite (parentIdx_ext m store0 cur Hp) in E.
  intros p w c Hw Hc.
  destruct (decide (pidx = p)) as [->|Hne].
  - rewrite list_lookup_alter_eq in Hw.
    destruct (cur !! p) as [w0|] eqn:E0; [|discriminate].
    simpl in Hw. injection Hw as <-. simpl in Hc.
    apply in_app_iff in Hc. destruct Hc as [Hc|[<-|[]]].
    + exact (Hok p w0 c E0 Hc).
    + exact E.
  - rewrite list_lookup_alter_ne in Hw by exact Hne.
    exact (Hok p w c Hw Hc).
Qed.

Lemma buildHierarchy_children_ok (st : pstate) :
  Forall (fun w => children w = []) (st_widgets st) ->
  children_ok (st_map st) (st_widgets st) (st_widgets (buildHierarchy st)).
Proof.
  intros Hnil. unfold buildHierarchy. cbn [st_widgets].
  assert (G : forall idxs cur,
             map parent cur = map parent (st_widgets st) ->
             children_ok (st_map st) (st_widgets st) cur ->
             children_ok (st_map st) (st_widgets st)
               (fold_left (linkWidget (st_map st)) idxs cur)).
  { induction idxs as [|idx idxs IH]; intros cur Hp Hok; simpl; [exact Hok|].
    apply IH.
    - rewrite linkWidget_map by reflexivity. exact Hp.
    - apply linkWidget_children_ok; assumption. }
  apply G; [reflexivity|].
  intros p w c Hw Hc. rewrite List.Forall_forall in Hnil.
  rewrite (Hnil w) in Hc; [destruct Hc|].
  apply list_elem_of_In. eapply list_elem_of_lookup_2, Hw.
Qed.

Lemma createWidget_children_nil line i st :
  Forall (fun w => children w = []) (st_widgets st) ->
  Forall (fun w => children w = []) (st_widgets (createWidget line i st)).
Proof.
  intros H. unfold createWidget.
  destruct (re_match createRe line) as [[|v [|t [|p [|? ?]]]]|]; try exact H.
  simpl. apply Forall_app. split; [exact H|]. repeat constructor.
Qed.

Lemma reachable_children_nil i st :
  reachable i st -> Forall (fun w => children w = []) (st_widgets st).
Proof.
  induction 1 as [|i st raw _ IH]; [constructor|].
  unfold processLine.
  destruct (setters_steps (trim raw) i (createWidget (trim raw) i st))
    as [_ HF].
  pose proof (createWidget_children_nil (trim raw) i st IH) as Hc.
  revert Hc HF. generalize (st_widgets (createWidget (trim raw) i st)).
  intros l Hc HF. induction HF as [|w w' l l' [Hcore _] _ IHF]; [constructor|].
  inversion Hc; subst. constructor; [|auto].
  destruct Hcore as (_ & _ & _ & Hch & _). congruence.
Qed.

(** ** Levels *)

Section Levels.
Variable m : jsmap nat.
Variable store : list LVGLWidget.

Lemma level_fun c d d' :
  level m store c d -> level m store c d' -> d = d'.
Proof.
  intros H. revert d'. induction H as [c w Hw Hp|c p d Hp _ IH];
    intros d' H'; inversion H'; subst; try congruence.
  f_equal. apply IH. congruence.
Qed.

Lemma level_valid c d : level m store c d -> c < length store.
Proof.
  intros H. inversion H; subst.
  - eapply lookup_lt_Some; eassumption.
  - apply lookup_lt_is_Some. eapply parentIdx_valid; eassumption.
Qed.

Lemma level_chain c d :
  level m store c d ->
  exists l, length l = S d /\ NoDup l
            /\ forall x, In x l ->
                 x < length store /\ exists e, e <= d /\ level m store x e.
Proof.
  induction 1 as [c w Hw Hp|c p d Hp Hh IH].
  - exists [c]. split; [reflexivity|]. split.
    + apply NoDup_cons_2; [apply not_elem_of_nil | apply NoDup_nil_2].
    + intros x [<-|[]]. split; [eapply lookup_lt_Some; eassumption|].
      exists 0. split; [lia|]. econstructor; eassumption.
  - destruct IH as (l & Hlen & Hnd & Hall).
    assert (Hc : level m store c (S d)) by (econstructor; eassumption).
    exists (c :: l). split; [simpl; lia|]. split.
    + apply NoDup_cons_2; [|exact Hnd].
      intros Hin. apply list_elem_of_In in Hin.
      destruct (Hall c Hin) as (_ & e & He & Hce).
      pose proof (level_fun c _ _ Hc Hce). lia.
    + intros x [<-|Hin].
      * split; [eapply level_valid; exact Hc|]. exists (S d). auto.
      * destruct (Hall x Hin) as (Hx & e & He & Hxe).
        split; [exact Hx|]. exists e. split; [lia | exact Hxe].
Qed.

Lemma level_bound c d : level m store c d -> d < length store.
Proof.
  intros H. destruct (level_chain c d H) as (l & Hlen & Hnd & Hall).
  assert (Hle : length l <= length (seq 0 (length store))).
  { apply List.NoDup_incl_length.
    - apply NoDup_ListNoDup, Hnd.
    - intros x Hx. apply in_seq. destruct (Hall x Hx) as [Hlt _]. lia. }
  rewrite length_seq in Hle. lia.
Qed.

Hypothesis Hok : children_ok m store store.

Lemma convertWidget_total fuel :
  forall c w d,
    level m store c d -> store !! c = Some w ->
    length store <= d + fuel ->
    is_Some (convertWidget fuel store w).
Proof.
  induction fuel as [|fuel IH]; intros c w d Hh Hw Hlen.
  - pose proof (level_bound c d Hh). lia.
  - cbn [convertWidget].
    destruct (mapM _ (children w)) as [kids|] eqn:E; [eauto|].
    exfalso.
    assert (S : is_Some (mapM
                 (fun c => match store !! c with
                           | Some child => convertWidget fuel store child
                           | None => None
                           end) (children w))).
    { apply mapM_is_Some. apply List.Forall_forall. intros c' Hc'.
      pose proof (Hok c w c' Hw Hc') as Hp.
      destruct (parentIdx_valid _ _ _ _ Hp) as [w' Hw'].
      simpl. rewrite Hw'. apply (IH c' w' (S d)); [|exact Hw'|lia].
      econstructor; eassumption. }
    rewrite E in S. destruct S as [? S]. discriminate.
Qed.
End Levels.

Lemma convertWidget_identifier fuel store w e :
  convertWidget fuel store w = Some e -> identifier e = variableName w.
Proof.
  destruct fuel as [|fuel]; [discriminate|]. cbn [convertWidget].
  destruct (mapM _ (children w)); [|discriminate].
  intros [= <-]. reflexivity.
Qed.

Lemma map_ok_buildHierarchy st : map_ok st -> map_ok (buildHierarchy st).
Proof.
  intros [H1 H2].
  pose proof (buildHierarchy_map variableName st (fun _ _ => eq_refl)) as Hn.
  split.
  - intros v idx Hv. destruct (H1 v idx Hv) as (w & Hw & Hname).
    assert (E : variableName <$> st_widgets (buildHierarchy st) !! idx
                = Some v).
    { rewrite (lookup_map_eq variableName _ _ idx Hn), Hw.
      simpl. congruence. }
    destruct (st_widgets (buildHierarchy st) !! idx) as [w'|];
      [|discriminate].
    exists w'. split; [reflexivity|]. simpl in E. congruence.
  - intros v Hv. rewrite Hn. apply H2, Hv.
Qed.

Lemma isTopLevel_no_parent m store r w :
  store !! r = Some w -> isTopLevel w = true -> parentIdx m store r = None.
Proof.
  intros Hw Ht. unfold parentIdx. rewrite Hw. unfold isTopLevel in Ht.
  destruct (parent w) as [p|]; [|reflexivity].
  destruct (truthy p), (jeqb p (str "parent")); simpl in *;
    try reflexivity; discriminate.
Qed.

Lemma parse_parent_not_placeholder f content w :
  In w (widgets (parse f content)) -> parent w <> Some (str "parent").
Proof.
  intros Hin. apply (in_map widgetFact) in Hin.
  rewrite parse_facts in Hin. apply in_flat_map in Hin.
  destruct Hin as (line & _ & Hf). unfold creationFact in Hf.
  destruct (re_match createRe (trim line)) as [[|v [|t [|p [|? ?]]]]|];
    try contradiction.
  destruct Hf as [Hf|[]]. unfold widgetFact in Hf.
  injection Hf as _ _ Hp. rewrite <- Hp.
  match goal with
  | |- context [jeqb ?a ?b] => destruct (jeqb a b) eqn:E
  end; [discriminate|].
  apply jeqb_neq in E. intros [= Heq]. apply E. exact Heq.
Qed.

(** C3 (as the code has it): the page of a parsed file is built (the
    conversion comes back as soon as the fuel reaches the number of
    widgets) and its root widgets are the widgets that pass the guard of
    [createProjectFromArduino], in order; a widget of a parsed file
    passes the guard exactly when its parent is null or empty; a widget
    created under any other identifier is not among the roots; and a
    widget whose parent identifier names no widget of the file is in no
    [children] list either. *)
Theorem page_roots (f content : jstring) :
  let pf := parse f content in
  (forall fuel,
     length (widgets pf) <= fuel ->
     exists page,
       createPage fuel pf = Some page
       /\ map identifier (page_widgets page)
          = map variableName (List.filter isTopLevel (widgets pf)))
  /\ (forall w,
        In w (widgets pf) ->
        (isTopLevel w = true <-> parent w = None \/ parent w = Some []))
  /\ (forall w p,
        In w (widgets pf) -> parent w = Some p -> p <> [] ->
        isTopLevel w = false)
  /\ (forall i w p,
        widgets pf !! i = Some w -> parent w = Some p ->
        ~ In p (map variableName (widgets pf)) ->
        forall w', In w' (widgets pf) -> ~ In i (children w')).
Proof.
  set (stL := processLines (split_lines content) 0 (mkState [] [])).
  assert (Hr : reachable (length (split_lines content)) stL)
    by apply parse_reachable.
  assert (Hw : widgets (parse f content) = st_widgets (buildHierarchy stL))
    by reflexivity.
  cbv zeta. rewrite Hw.
  set (final := st_widgets (buildHierarchy stL)).
  set (m := st_map stL).
  assert (Hpar : map parent final = map parent (st_widgets stL))
    by (apply buildHierarchy_map; reflexivity).
  assert (Hok : children_ok m final final).
  { intros p w c Hp Hc. rewrite (parentIdx_ext m _ _ Hpar).
    eapply (buildHierarchy_children_ok stL); [|exact Hp|exact Hc].
    eapply reachable_children_nil, Hr. }
  assert (Hguard : forall w p,
             In w final -> parent w = Some p -> p <> [] ->
             isTopLevel w = false).
  { intros w p Hin Hp Hne. unfold isTopLevel. rewrite Hp.
    assert (Hph : parent w <> Some (str "parent")).
    { apply (parse_parent_not_placeholder f content). rewrite Hw. exact Hin. }
    destruct (jeqb p (str "parent")) eqn:E;
      [apply jeqb_eq in E; congruence|].
    destruct p as [|c p]; [congruence | reflexivity]. }
  split; [|split; [|split]].
  - intros fuel Hfuel. unfold createPage.
    change (widgets (parse f content)) with final.
    assert (S : is_Some (mapM (convertWidget fuel final)
                           (List.filter isTopLevel final))).
    { apply mapM_is_Some, List.Forall_forall. intros w Hin.
      apply filter_In in Hin. destruct Hin as [Hin Ht].
      apply list_elem_of_In, list_elem_of_lookup in Hin.
      destruct Hin as [r Hrw]. simpl.
      apply (convertWidget_total m final Hok fuel r w 0); [|exact Hrw|lia].
      econstructor; [exact Hrw|].
      eapply isTopLevel_no_parent; eassumption. }
    destruct S as [ws Hws]. rewrite Hws. eexists. split; [reflexivity|].
    cbn [page_widgets]. apply mapM_Some_1 in Hws.
    induction Hws as [|w e l k He _ IH]; simpl; [reflexivity|].
    rewrite IH, (convertWidget_identifier _ _ _ _ He). reflexivity.
  - intros w Hin. split.
    + intros Ht. destruct (parent w) as [p|] eqn:Hp; [|left; reflexivity].
      destruct p as [|c p]; [right; reflexivity|].
      rewrite (Hguard w (c :: p) Hin Hp) in Ht by discriminate.
      discriminate.
    + unfold isTopLevel. intros [-> | ->]; reflexivity.
  - exact Hguard.
  - intros i w p Hi Hp Hnot w' Hin' Hc.
    apply list_elem_of_In, list_elem_of_lookup in Hin'.
    destruct Hin' as [p' Hp'].
    pose proof (Hok p' w' i Hp' Hc) as Hidx.
    unfold parentIdx in Hidx. rewrite Hi, Hp in Hidx.
    destruct (truthy p && negb (jeqb p (str "parent"))); [|discriminate].
    destruct (map_ok_buildHierarchy stL (reachable_map_ok _ _ Hr))
      as [H1 _].
    destruct (H1 p p' Hidx) as (wp & Hwp & Hname).
    apply Hnot. rewrite <- Hname. apply in_map.
    apply list_elem_of_In. eapply list_elem_of_lookup_2, Hwp.
Qed.

Lemma page_roots_witness :
  (exists page,
     createPage 2 (parse (str "ui.cpp") orphanCode) = Some page
     /\ map identifier (page_widgets page)
        = map variableName
            (List.filter isTopLevel
               (widgets (parse (str "ui.cpp") orphanCode))))
  /\ (exists a,
        widgets (parse (str "ui.cpp") orphanCode) !! 0 = Some a
        /\ (isTopLevel a = true
            <-> parent a = None \/ parent a = Some []))
  /\ exists b,
       widgets (parse (str "ui.cpp") orphanCode) !! 1 = Some b
       /\ isTopLevel b = false
       /\ forall w', In w' (widgets (parse (str "ui.cpp") orphanCode)) ->
                     ~ In 1 (children w').
Proof.
  destruct (page_roots (str "ui.cpp") orphanCode) as (H1 & H2 & H3 & H4).
  split; [|split].
  - apply H1. vm_compute. lia.
  - eexists. split; [vm_compute; reflexivity|].
    apply H2. vm_compute. tauto.
  - eexists. split; [vm_compute; reflexivity|]. split.
    + apply (H3 _ (str "ghost")).
      * vm_compute. tauto.
      * reflexivity.
      * discriminate.
    + eapply (H4 1 _ (str "ghost")).
      * vm_compute. reflexivity.
      * reflexivity.
      * vm_compute. intuition discriminate.
Defined.

(** C3 does not hold as the specification words it: [b] is created
    under [ghost], which the file never creates; the parse result keeps
    [b], but the page has the single identifier [a]. *)
Lemma orphan_widget_dropped :
  map widgetFact (widgets (parse (str "ui.cpp") orphanCode))
  = [(str "a", str "lv_obj", None);
     (str "b", str "lv_label", Some (str "ghost"))]
  /\ exists page,
       createPage 2 (parse (str "ui.cpp") orphanCode) = Some page
       /\ flat_map identifiersOf (page_widgets page) = [str "a"]
       /\ ~ In (str "b") (flat_map identifiersOf (page_widgets page)).
Proof.
  split; [vm_compute; reflexivity|].
  eexists. split; [vm_compute; reflexivity|].
  split; [vm_compute; reflexivity|].
  vm_compute. intuition discriminate.
Qed.

(** ** Repeated creation statements, and the lookup table *)

Lemma creationFact_short (l : jstring) : length (creationFact l) <= 1.
Proof.
  unfold creationFact.
  destruct (re_match createRe (trim l)) as [[|v [|t [|p [|? ?]]]]|];
    simpl; lia.
Qed.

Lemma lastIndexFrom_ext (v : jstring) (l l' : list LVGLWidget) (i : nat) :
  map variableName l' = map variableName l ->
  lastIndexFrom v l' i = lastIndexFrom v l i.
Proof.
  revert l i. induction l' as [|x l' IH]; intros [|y l] i H;
    try discriminate; [reflexivity|].
  injection H as Hx Hl. simpl. rewrite (IH l (S i) Hl), Hx. reflexivity.
Qed.

Lemma lastIndexFrom_app (v : jstring) (l : list LVGLWidget) (w : LVGLWidget)
    (i : nat) :
  lastIndexFrom v (l ++ [w]) i
  = if jeqb (variableName w) v then Some (i + length l)
    else lastIndexFrom v l i.
Proof.
  revert i. induction l as [|x l IH]; intros i; simpl.
  - rewrite Nat.add_0_r. reflexivity.
  - rewrite IH. destruct (jeqb (variableName w) v); [|reflexivity].
    f_equal. lia.
Qed.

Lemma jeqb_sym (a b : jstring) : jeqb a b = jeqb b a.
Proof.
  destruct (jeqb a b) eqn:E, (jeqb b a) eqn:E'; try reflexivity.
  - apply jeqb_eq in E. apply jeqb_neq in E'. congruence.
  - apply jeqb_eq in E'. apply jeqb_neq in E. congruence.
Qed.

Lemma createWidget_latest (line : jstring) (i : nat) (st : pstate)
    (v : jstring) :
  map_get v (st_map st) = lastIndexFrom v (st_widgets st) 0 ->
  map_get v (st_map (createWidget line i st))
  = lastIndexFrom v (st_widgets (createWidget line i st)) 0.
Proof.
  intros H. unfold createWidget.
  destruct (re_match createRe line) as [[|v0 [|t [|p [|? ?]]]]|]; try exact H.
  cbn [st_map st_widgets]. rewrite map_get_set, lastIndexFrom_app.
  cbn [variableName]. rewrite (jeqb_sym v0 v).
  destruct (jeqb v v0); [reflexivity | exact H].
Qed.

(** In every state of the loop the lookup table maps an identifier to
    the last record created under it. *)
Lemma reachable_latest (i : nat) (st : pstate) (v : jstring) :
  reachable i st ->
  map_get v (st_map st) = lastIndexFrom v (st_widgets st) 0.
Proof.
  induction 1 as [|i st raw _ IH]; [reflexivity|].
  unfold processLine.
  destruct (setters_steps (trim raw) i (createWidget (trim raw) i st))
    as [Hm HF].
  rewrite Hm.
  rewrite (lastIndexFrom_ext v (st_widgets (createWidget (trim raw) i st))).
  - apply createWidget_latest, IH.
  - eapply Forall2_touched_map; [|exact HF].
    intros w w' (_ & Hn & _). exact Hn.
Qed.

(** C4 (as the code has it): every line that the creation pattern
    matches adds one widget record, with the identifier, type and parent
    of the leftmost creation statement of the line, in line order; a line
    adds at most one record, so a second creation statement on the same
    line adds none; the widget collection holds as many records for an
    identifier as there are such lines for it; and the lookup table maps
    every identifier to the last of its records: a later creation
    replaces the entry of the table, the earlier record stays in the
    collection. *)
Theorem creation_records (f content : jstring) :
  map widgetFact (widgets (parse f content))
  = flat_map creationFact (split_lines content)
  /\ (forall v,
        countNamed v (widgets (parse f content))
        = creationsOf v (split_lines content))
  /\ (forall line, length (creationFact line) <= 1)
  /\ (forall ident kind post,
        all_word ident -> all_word kind ->
        creationFact (ident ++ str " = lv_" ++ kind
                      ++ str "_create(parent);" ++ post)
        = [(ident, str "lv_" ++ kind, None)])
  /\ (forall v,
        map_get v (st_map (parseWidgets (split_lines content)))
        = lastIndexFrom v (widgets (parse f content)) 0).
Proof.
  split; [apply parse_facts|]. split; [|split; [|split]].
  - intros v. unfold countNamed, creationsOf.
    rewrite <- (parse_facts f).
    apply (filter_map_count widgetFact (fun fact => jeqb (fst (fst fact)) v)).
  - apply creationFact_short.
  - intros ident kind post Hi Hk.
    apply (creationFact_statement [] ident kind post); try assumption.
    + constructor.
    + intros s0 c E. destruct s0; discriminate.
  - intros v. unfold parse, parseWidgets. cbn [widgets st_map buildHierarchy].
    rewrite (reachable_latest _ _ v (parse_reachable content)).
    symmetry. apply lastIndexFrom_ext.
    apply (buildHierarchy_map variableName). reflexivity.
Qed.

Lemma creation_records_witness :
  creationFact (str "w" ++ str " = lv_" ++ str "label"
                ++ str "_create(parent);"
                ++ str " w = lv_btn_create(parent);")
  = [(str "w", str "lv_" ++ str "label", None)].
Proof.
  apply (creation_records [] []).
  - split; [discriminate | repeat constructor].
  - split; [discriminate | repeat constructor].
Defined.

(** C4 does not hold as the specification words it: two creation
    statements for [w] on two lines give two records named [w], a label
    and a button, and the lookup table refers to the second; on one line
    they give the single record of the first statement. *)
Lemma duplicate_creation_two_records :
  countNamed (str "w") (widgets (parse (str "dup.cpp") duplicateCode)) <> 1
  /\ map type (widgets (parse (str "dup.cpp") duplicateCode))
     = [str "lv_label"; str "lv_btn"]
  /\ map_get (str "w") (st_map (parseWidgets (split_lines duplicateCode)))
     = Some 1
  /\ map type (widgets (parse (str "dup.cpp") sameLineCode))
     = [str "lv_label"].
Proof.
  vm_compute. split; [discriminate|]. repeat split; reflexivity.
Qed.

(** ** Numbers and their decimal text *)

Lemma digit_not_space (c : ascii) : is_digit c = true -> is_space c = false.
Proof. destruct c as [[] [] [] [] [] [] [] []]; vm_compute; congruence. Qed.

Lemma digit_not_sign (c : ascii) :
  is_digit c = true ->
  Ascii.eqb c "-" = false /\ Ascii.eqb c "+" = false
  /\ Ascii.eqb c "x" = false /\ Ascii.eqb c "X" = false.
Proof. destruct c as [[] [] [] [] [] [] [] []]; vm_compute; intuition congruence. Qed.

Lemma takeWhile_all (p : ascii -> bool) (s : jstring) :
  Forall (fun c => p c = true) s -> takeWhile p s = s.
Proof.
  induction 1 as [|c s Hc _ IH]; simpl; [reflexivity|].
  rewrite Hc, IH. reflexivity.
Qed.

Lemma parseInt_digits (ds : jstring) :
  ds <> [] -> Forall (fun c => is_digit c = true) ds ->
  parseInt ds = Some (digits_value 10 ds).
Proof.
  intros Hne H. destruct H as [|c r Hc Hr]; [congruence|].
  destruct (digit_not_sign c Hc) as (E1 & E2 & _).
  unfold parseInt. simpl dropWhile. rewrite (digit_not_space c Hc).
  rewrite E1, E2.
  assert (T : takeWhile is_digit (c :: r) = c :: r)
    by (apply takeWhile_all; constructor; assumption).
  destruct r as [|x r'].
  - rewrite T. reflexivity.
  - inversion Hr; subst. destruct (digit_not_sign x H1) as (_ & _ & E3 & E4).
    rewrite E3, E4, andb_false_r. rewrite T. reflexivity.
Qed.

Lemma parseInt_minus_digits (ds : jstring) :
  ds <> [] -> Forall (fun c => is_digit c = true) ds ->
  parseInt ("-"%char :: ds) = Some (- digits_value 10 ds)%Z.
Proof.
  intros Hne H. destruct H as [|c r Hc Hr]; [congruence|].
  unfold parseInt. simpl.
  assert (T : takeWhile is_digit (c :: r) = c :: r)
    by (apply takeWhile_all; constructor; assumption).
  destruct r as [|x r'].
  - rewrite T. reflexivity.
  - inversion Hr; subst. destruct (digit_not_sign x H1) as (_ & _ & E3 & E4).
    rewrite E3, E4, andb_false_r. rewrite T. reflexivity.
Qed.

Lemma uint_digits (d : Decimal.uint) :
  Forall (fun c => is_digit c = true) (str (NilEmpty.string_of_uint d)).
Proof. induction d; simpl; constructor; auto. Qed.

Lemma digits_value_acc (d : Decimal.uint) (acc : positive) :
  fold_left (fun a c => a * 10 + digit_value c)%Z
    (str (NilEmpty.string_of_uint d)) (Z.pos acc)
  = Z.pos (Pos.of_uint_acc d acc).
Proof.
  revert acc. induction d; intros acc; simpl; [reflexivity|..];
    rewrite <- IHd; f_equal; vm_compute digit_value; lia.
Qed.

Lemma digits_value_uint (d : Decimal.uint) :
  digits_value 10 (str (NilEmpty.string_of_uint d)) = Z.of_N (Pos.of_uint d).
Proof.
  unfold digits_value. induction d; simpl; [reflexivity| exact IHd |..];
    apply (digits_value_acc d).
Qed.

Lemma string_of_Z_pos (p : positive) :
  string_of_Z (Z.pos p) = str (NilEmpty.string_of_uint (Pos.to_uint p)).
Proof.
  unfold string_of_Z. simpl. unfold NilZero.string_of_uint.
  pose proof (Unsigned.to_uint_nonnil p).
  destruct (Pos.to_uint p); congruence.
Qed.

Lemma string_of_Z_neg (p : positive) :
  string_of_Z (Z.neg p)
  = "-"%char :: str (NilEmpty.string_of_uint (Pos.to_uint p)).
Proof.
  unfold string_of_Z. simpl. unfold NilZero.string_of_uint.
  pose proof (Unsigned.to_uint_nonnil p).
  destruct (Pos.to_uint p); congruence.
Qed.

Lemma uint_string_nonempty (p : positive) :
  str (NilEmpty.string_of_uint (Pos.to_uint p)) <> [].
Proof.
  pose proof (Unsigned.to_uint_nonnil p).
  destruct (Pos.to_uint p); simpl; congruence.
Qed.

Lemma parseInt_string_of_Z (n : Z) : parseInt (string_of_Z n) = Some n.
Proof.
  destruct n as [|p|p].
  - reflexivity.
  - rewrite string_of_Z_pos, parseInt_digits
      by (apply uint_string_nonempty || apply uint_digits).
    rewrite digits_value_uint, Unsigned.of_to. reflexivity.
  - rewrite string_of_Z_neg, parseInt_minus_digits
      by (apply uint_string_nonempty || apply uint_digits).
    rewrite digits_value_uint, Unsigned.of_to. reflexivity.
Qed.

(** ** The code buffer of the generator *)

Lemma oblivious_id : oblivious (fun g => g).
Proof.
  intros [i s c n]. simpl. intros ->. split; [reflexivity|].
  unfold append_to. simpl. rewrite app_nil_r. reflexivity.
Qed.

Lemma oblivious_addLine (line : jstring) : oblivious (addLine line).
Proof.
  intros [i s c n]. simpl. intros ->. split; reflexivity.
Qed.

Lemma oblivious_comp (F G : generator -> generator) :
  oblivious F -> oblivious G -> oblivious (fun g => G (F g)).
Proof.
  intros HF HG g Hg.
  destruct (HF g Hg) as [F0 EF].
  set (f := F (freshGenerator (rnd g))) in *.
  assert (Hf : indent (F g) = 0) by (rewrite EF; reflexivity).
  destruct (HG (F g) Hf) as [G0 EG].
  assert (Rf : rnd (F g) = rnd f) by (rewrite EF; reflexivity).
  rewrite Rf in G0, EG.
  destruct (HG f F0) as [G1 EG1].
  split.
  - rewrite EG1. reflexivity.
  - rewrite EG, EG1, EF. unfold append_to. simpl.
    rewrite <- app_assoc. destruct f; simpl in *. reflexivity.
Qed.

Lemma oblivious_fold {B} (F : B -> generator -> generator) (l : list B) :
  (forall x, oblivious (F x)) ->
  oblivious (fun g => fold_left (fun acc x => F x acc) l g).
Proof.
  intros HF. induction l as [|x l IH]; simpl.
  - apply oblivious_id.
  - apply (oblivious_comp (F x) (fun g => fold_left (fun acc y => F y acc) l g));
      [apply HF | exact IH].
Qed.

Lemma oblivious_generateStyles (v : jstring) (ls : option (jsmap jstring)) :
  oblivious (generateStyles v ls).
Proof.
  destruct ls as [d|]; simpl; [|apply oblivious_id].
  apply (oblivious_fold
           (fun kv => addLine (str "lv_obj_set_style_" ++ fst kv ++ str "("
                               ++ v ++ str ", " ++ snd kv ++ str ", 0);"))).
  intros kv. apply oblivious_addLine.
Qed.

Lemma oblivious_ext (F G : generator -> generator) :
  (forall g, F g = G g) -> oblivious F -> oblivious G.
Proof.
  intros E HF g Hg. rewrite <- !E. apply HF, Hg.
Qed.

Lemma oblivious_generateOwn (w : EEZWidget) (v p : jstring) :
  oblivious (generateOwn w v p).
Proof.
  unfold generateOwn.
  repeat first
    [ apply oblivious_addLine
    | apply oblivious_id
    | apply oblivious_generateStyles
    | match goal with
      | |- oblivious (fun g => let x := @?F g in @?G x) =>
          apply (oblivious_comp F G)
      | |- oblivious (fun g => addLine ?l (@?F g)) =>
          apply (oblivious_comp F (addLine l))
      | |- oblivious (fun g => generateStyles ?a ?b (@?F g)) =>
          apply (oblivious_comp F (generateStyles a b))
      | |- oblivious (fun g => if ?b then _ else _) => destruct b
      | |- oblivious (fun g => match ?o with Some _ => _ | None => _ end) =>
          destruct o
      end ].
Qed.

Lemma oblivious_generateWidgetIn (rand : nat -> jstring) (w : EEZWidget) :
  forall p, oblivious (generateWidgetIn rand w p).
Proof.
  induction w as [w IH] using EEZWidget_tree_ind. intros p.
  assert (K : forall v,
             oblivious (fun g =>
               fold_left (fun acc child => generateWidgetIn rand child v acc)
                 (e_children w) (generateOwn w v p g))).
  { intros v.
    apply (oblivious_comp (generateOwn w v p)
             (fun g => fold_left
                (fun acc child => generateWidgetIn rand child v acc)
                (e_children w) g)); [apply oblivious_generateOwn|].
    revert IH. generalize (e_children w) as kids.
    induction kids as [|c kids IHk]; intros IH; simpl.
    - apply oblivious_id.
    - inversion IH; subst.
      apply (oblivious_comp (generateWidgetIn rand c v)
               (fun g => fold_left
                  (fun acc child => generateWidgetIn rand child v acc)
                  kids g)); auto. }
  intros g Hg. rewrite !generateWidgetIn_eq. unfold widgetVarName.
  destruct (truthy (identifier w)); cbn [fst snd].
  - apply (K (identifier w) g Hg).
  - cbn [rnd freshGenerator indent indentSize code_lines].
    destruct (K (str "obj_" ++ rand (rnd g))
                (mkGen (indent g) (indentSize g) (code_lines g) (S (rnd g))))
      as [I E]; [exact Hg|].
    cbn [rnd] in I, E. split; [exact I|].
    rewrite E. reflexivity.
Qed.

(** X1: On a generator at indentation level 0, generateWidget only appends
    to the code buffer: the buffer afterwards is the buffer before followed
    by the lines that a new generator produces for the same widget from the
    same position of the random source; the returned text is the join of the
    whole buffer, earlier lines included; and the random source advances as
    for the new generator. *)
Theorem generate_appends (rand : nat -> jstring) (w : EEZWidget)
    (parentVar : jstring) (g : generator) :
  indent g = 0 ->
  code_lines (fst (generateWidget rand w parentVar g))
  = code_lines g ++ emitted rand w parentVar (rnd g)
  /\ snd (generateWidget rand w parentVar g)
     = join_lines (code_lines g ++ emitted rand w parentVar (rnd g))
  /\ rnd (fst (generateWidget rand w parentVar g))
     = rnd (generateWidgetIn rand w parentVar (freshGenerator (rnd g))).
Proof.
  intros Hg. unfold generateWidget. cbn [fst snd].
  destruct (oblivious_generateWidgetIn rand w parentVar g Hg) as [_ E].
  rewrite E. unfold append_to, emitted. cbn [code_lines rnd].
  repeat split.
Qed.

Lemma generate_appends_witness :
  code_lines
    (fst (generateWidget (fun _ => str "k3j2h1") (labelNamed (str "title"))
            (str "parent") (mkGen 0 4 [str "// widgets"] 0)))
  = [str "// widgets"]
    ++ emitted (fun _ => str "k3j2h1") (labelNamed (str "title"))
         (str "parent") 0.
Proof.
  refine (proj1 (generate_appends (fun _ => str "k3j2h1")
                   (labelNamed (str "title")) (str "parent")
                   (mkGen 0 4 [str "// widgets"] 0) _)).
  reflexivity.
Defined.

Lemma rnd_blind_id : rnd_blind (fun g => g).
Proof. intros i s c n m. reflexivity. Qed.

Lemma rnd_blind_addLine (line : jstring) : rnd_blind (addLine line).
Proof. intros i s c n m. reflexivity. Qed.

Lemma rnd_blind_comp (F G : generator -> generator) :
  rnd_blind F -> rnd_blind G -> rnd_blind (fun g => G (F g)).
Proof.
  intros HF HG i s c n m. rewrite (HF i s c n m).
  destruct (F (mkGen i s c m)) as [i' s' c' m'] eqn:E. simpl.
  rewrite (HG i' s' c' n m'). reflexivity.
Qed.

Lemma rnd_blind_fold {B} (F : B -> generator -> generator) (l : list B) :
  Forall (fun x => rnd_blind (F x)) l ->
  rnd_blind (fun g => fold_left (fun acc x => F x acc) l g).
Proof.
  induction 1 as [|x l Hx _ IH]; simpl.
  - apply rnd_blind_id.
  - apply (rnd_blind_comp (F x) (fun g => fold_left (fun acc y => F y acc) l g));
      assumption.
Qed.

Lemma rnd_blind_generateStyles (v : jstring) (ls : option (jsmap jstring)) :
  rnd_blind (generateStyles v ls).
Proof.
  destruct ls as [d|]; simpl; [|apply rnd_blind_id].
  apply (rnd_blind_fold
           (fun kv => addLine (str "lv_obj_set_style_" ++ fst kv ++ str "("
                               ++ v ++ str ", " ++ snd kv ++ str ", 0);"))).
  apply List.Forall_forall. intros kv _. apply rnd_blind_addLine.
Qed.

Lemma rnd_blind_generateOwn (w : EEZWidget) (v p : jstring) :
  rnd_blind (generateOwn w v p).
Proof.
  unfold generateOwn.
  repeat first
    [ apply rnd_blind_addLine
    | apply rnd_blind_id
    | apply rnd_blind_generateStyles
    | match goal with
      | |- rnd_blind (fun g => let x := @?F g in @?G x) =>
          apply (rnd_blind_comp F G)
      | |- rnd_blind (fun g => addLine ?l (@?F g)) =>
          apply (rnd_blind_comp F (addLine l))
      | |- rnd_blind (fun g => generateStyles ?a ?b (@?F g)) =>
          apply (rnd_blind_comp F (generateStyles a b))
      | |- rnd_blind (fun g => if ?b then _ else _) => destruct b
      | |- rnd_blind (fun g => match ?o with Some _ => _ | None => _ end) =>
          destruct o
      end ].
Qed.

Lemma allIdentified_eq (w : EEZWidget) :
  allIdentified w
  = truthy (identifier w) && forallb allIdentified (e_children w).
Proof. destruct w. reflexivity. Qed.

Lemma rnd_blind_generateWidgetIn (rand : nat -> jstring) (w : EEZWidget) :
  allIdentified w = true -> forall p, rnd_blind (generateWidgetIn rand w p).
Proof.
  induction w as [w IH] using EEZWidget_tree_ind. intros Hw p.
  rewrite allIdentified_eq in Hw.
  apply andb_true_iff in Hw. destruct Hw as [Hid Hkids].
  intros i s c n m. rewrite !generateWidgetIn_eq. unfold widgetVarName.
  rewrite Hid. cbn [fst snd].
  refine (rnd_blind_comp (generateOwn w (identifier w) p)
            (fun g => fold_left
               (fun acc child =>
                  generateWidgetIn rand child (identifier w) acc)
               (e_children w) g) _ _ i s c n m).
  - apply rnd_blind_generateOwn.
  - apply (rnd_blind_fold
             (fun child => generateWidgetIn rand child (identifier w))).
    rewrite forallb_forall in Hkids. rewrite List.Forall_forall in IH |- *.
    intros x Hx. apply IH; auto.
Qed.

(** For an identified tree the emitted lines are its statements, whatever
    the random source and position. *)
Lemma emitted_statements (rand : nat -> jstring) (w : EEZWidget)
    (p : jstring) (n : nat) :
  allIdentified w = true ->
  emitted rand w p n = statements w p
  /\ rnd (generateWidgetIn rand w p (freshGenerator n)) = n.
Proof.
  intros Hw. unfold statements, emitted, freshGenerator.
  pose proof (rnd_blind_generateWidgetIn rand w Hw p 0 4 [] n 0) as E.
  rewrite E. cbn [code_lines rnd]. split; [|reflexivity].
  rewrite (generateWidgetIn_rand rand (fun _ => []) w Hw). reflexivity.
Qed.

Lemma generateWidgetIn_identified (rand : nat -> jstring) (w : EEZWidget)
    (p : jstring) (lines : list jstring) (n : nat) :
  allIdentified w = true ->
  generateWidgetIn rand w p (mkGen 0 4 lines n)
  = mkGen 0 4 (lines ++ statements w p) n.
Proof.
  intros Hw.
  destruct (oblivious_generateWidgetIn rand w p (mkGen 0 4 lines n) eq_refl)
    as [_ E].
  rewrite E. unfold append_to. cbn [indentSize code_lines rnd].
  destruct (emitted_statements rand w p n Hw) as [E1 E2].
  unfold emitted in E1. rewrite E1, E2. reflexivity.
Qed.

Lemma screen_loop (rand : nat -> jstring) (n : nat) (rest : list EEZWidget) :
  forallb allIdentified rest = true ->
  forall done lines,
    fold_left (screenStep rand) rest
      (mkGen 0 4 (flat_map (fun w => statements w (str "parent")) done) n,
       lines)
    = (mkGen 0 4
         (flat_map (fun w => statements w (str "parent")) (done ++ rest)) n,
       lines
       ++ map (fun i =>
                 indentCode
                   (join_lines
                      (flat_map (fun w => statements w (str "parent"))
                         (done ++ take (S i) rest))))
            (seq 0 (length rest))).
Proof.
  induction rest as [|w rest IH]; intros Hall done lines.
  - simpl. rewrite !app_nil_r. reflexivity.
  - simpl in Hall. apply andb_true_iff in Hall. destruct Hall as [Hw Hrest].
    cbn [fold_left]. unfold screenStep at 2. unfold generateWidget.
    cbn [fst snd].
    rewrite (generateWidgetIn_identified rand w _ _ n Hw).
    cbn [code_lines].
    assert (E : flat_map (fun w => statements w (str "parent")) done
                ++ statements w (str "parent")
                = flat_map (fun w => statements w (str "parent"))
                    (done ++ [w])).
    { rewrite flat_map_app. simpl. rewrite app_nil_r. reflexivity. }
    rewrite E, (IH Hrest (done ++ [w])). f_equal.
    + rewrite <- app_assoc. reflexivity.
    + rewrite <- app_assoc. f_equal.
      cbn [length seq map take]. rewrite <- seq_shift, map_map.
      cbn [app]. f_equal.
      apply map_ext. intros i. rewrite <- app_assoc. reflexivity.
Qed.

(** X2: When every widget of the page has an identifier, the body of the
    generated screen function holds, for each root widget in turn, the
    indented statements of all root widgets up to and including that one:
    the loop shares one generator, so the statements of an earlier root are
    repeated for every later root. Math.random is not called. *)
Theorem screen_function_cumulative (rand : nat -> jstring) (page : EEZPage)
    (functionName : jstring) (n : nat) :
  forallb allIdentified (ep_widgets page) = true ->
  generateScreenFunction rand page functionName n
  = (join_lines
       ([str "void " ++ functionName ++ str "(lv_obj_t * parent) {";
         str "    lv_obj_clean(parent);";
         str "    lv_obj_set_size(parent, LV_PCT(100), LV_PCT(100));";
         []]
        ++ map (fun i =>
                  indentCode
                    (join_lines
                       (flat_map (fun w => statements w (str "parent"))
                          (take (S i) (ep_widgets page)))))
             (seq 0 (length (ep_widgets page)))
        ++ [str "}"; []]),
     n).
Proof.
  intros H. unfold generateScreenFunction, freshGenerator.
  rewrite (screen_loop rand n (ep_widgets page) H [] _).
  cbn [fst snd rnd app]. reflexivity.
Qed.

Lemma screen_function_cumulative_witness :
  generateScreenFunction (fun _ => str "k3j2h1")
    (mkEEZPage (str "main")
       [labelNamed (str "title"); labelNamed (str "note")])
    (str "main_create") 0
  = (join_lines
       ([str "void main_create(lv_obj_t * parent) {";
         str "    lv_obj_clean(parent);";
         str "    lv_obj_set_size(parent, LV_PCT(100), LV_PCT(100));";
         []]
        ++ [indentCode
              (join_lines (statements (labelNamed (str "title"))
                             (str "parent")));
            indentCode
              (join_lines (statements (labelNamed (str "title"))
                             (str "parent")
                           ++ statements (labelNamed (str "note"))
                                (str "parent")))]
        ++ [str "}"; []]),
     0).
Proof.
  refine (eq_trans
            (screen_function_cumulative (fun _ => str "k3j2h1")
               (mkEEZPage (str "main")
                  [labelNamed (str "title"); labelNamed (str "note")])
               (str "main_create") 0 _) _).
  - reflexivity.
  - vm_compute. reflexivity.
Defined.

(** ** Generated creation statements, read by the parser *)

Lemma plainb_sound (s : jstring) : plainb s = true -> plain s.
Proof.
  unfold plainb, plain. rewrite forallb_forall, List.Forall_forall.
  intros H c Hc. specialize (H c Hc).
  apply andb_true_iff in H. destruct H as [H1 H2].
  apply negb_true_iff in H1, H2.
  split; intros ->; [rewrite Ascii.eqb_refl in H1 | rewrite Ascii.eqb_refl in H2];
    discriminate.
Qed.

Lemma wordb_sound (s : jstring) : wordb s = true -> all_word s.
Proof.
  unfold wordb, all_word. intros H. apply andb_true_iff in H.
  destruct H as [H1 H2]. split; [destruct s; [discriminate|discriminate]|].
  apply List.Forall_forall. rewrite forallb_forall in H2. exact H2.
Qed.

Lemma plain_app (a b : jstring) : plain a -> plain b -> plain (a ++ b).
Proof. intros Ha Hb. apply Forall_app. split; assumption. Qed.

Lemma plain_word (s : jstring) : all_word s -> plain s.
Proof.
  intros [_ H]. eapply Forall_impl; [exact H|]. intros c Hc.
  split; intros ->; vm_compute in Hc; discriminate.
Qed.

Lemma plain_spaces (k : nat) : plain (repeat " "%char k).
Proof.
  induction k; simpl; constructor; [split; discriminate | assumption].
Qed.

Lemma uint_plain (d : Decimal.uint) : plain (str (NilEmpty.string_of_uint d)).
Proof.
  eapply Forall_impl; [apply uint_digits|]. intros c Hc.
  split; intros ->; vm_compute in Hc; discriminate.
Qed.

Lemma plain_string_of_Z (n : Z) : plain (string_of_Z n).
Proof.
  destruct n as [|p|p].
  - apply plainb_sound. reflexivity.
  - rewrite string_of_Z_pos. apply uint_plain.
  - rewrite string_of_Z_neg. constructor; [split; discriminate|].
    apply uint_plain.
Qed.

Lemma plain_convertSize (v : sizeval) (u : jstring) :
  plainSizeb v = true -> plain (convertSize v u).
Proof.
  intros H. unfold convertSize.
  assert (P : plain (string_of_size v)).
  { destruct v as [n|s]; simpl; [apply plain_string_of_Z|].
    apply plainb_sound, H. }
  destruct (jeqb u (str "%")); [|exact P].
  apply plain_app; [apply plainb_sound; reflexivity|].
  apply plain_app; [exact P | apply plainb_sound; reflexivity].
Qed.

Lemma map_get_value {V} (k : jstring) (v : V) (m : jsmap V) :
  map_get k m = Some v -> In v (map snd m).
Proof.
  induction m as [|[k' v'] m IH]; simpl; [discriminate|].
  destruct (jeqb k k'); [intros [= ->]; left; reflexivity|].
  intros H. right. exact (IH H).
Qed.

Lemma lookup_or_cases (table : list (string * string)) (d : string)
    (k : jstring) :
  In (lookup_or table d k)
    (str d :: map (fun kv => str (snd kv)) (table ++ objectPrototype)).
Proof.
  unfold lookup_or. rewrite map_app.
  destruct (map_get k (map _ table)) as [v|] eqn:E.
  - destruct v as [|c v]; [left; reflexivity|].
    right. apply in_or_app. left.
    apply map_get_value in E. rewrite map_map in E. exact E.
  - destruct (map_get k (map _ objectPrototype)) as [member|] eqn:E';
      [|left; reflexivity].
    right. apply in_or_app. right.
    apply map_get_value in E'. rewrite map_map in E'. exact E'.
Qed.

Lemma ownKind_sound (t : jstring) :
  ownKind t = true -> ~ In t inheritedNames.
Proof.
  unfold ownKind. rewrite negb_true_iff. intros H Hin.
  assert (E : existsb (jeqb t) inheritedNames = true).
  { apply existsb_exists. exists t. split; [exact Hin | apply jeqb_refl]. }
  congruence.
Qed.

Lemma kind_word (t : jstring) :
  ownKind t = true -> all_word (getWidgetTypeFromEEZ t).
Proof.
  intros Ho. apply ownKind_sound in Ho.
  unfold getWidgetTypeFromEEZ, lookup_or.
  rewrite (map_get_notin t (map _ objectPrototype))
    by (rewrite map_map; exact Ho).
  destruct (map_get t (map _ eezTypeTable)) as [v|] eqn:E;
    [|apply wordb_sound; reflexivity].
  apply map_get_value in E. rewrite map_map in E. simpl in E.
  repeat (destruct E as [<-|E]; [apply wordb_sound; reflexivity|]).
  destruct E.
Qed.

Lemma plain_kind (t : jstring) : plain (getWidgetTypeFromEEZ t).
Proof.
  pose proof (lookup_or_cases eezTypeTable "obj" t) as H.
  unfold getWidgetTypeFromEEZ.
  set (r := lookup_or eezTypeTable "obj" t) in *.
  clearbody r. simpl in H.
  repeat (destruct H as [<-|H]; [apply plainb_sound; reflexivity|]).
  destruct H.
Qed.

Lemma plain_getAlignment (l t : jstring) : plain (getAlignment l t).
Proof.
  pose proof (lookup_or_cases alignmentTable "LV_ALIGN_TOP_LEFT"
                (l ++ str "-" ++ t)) as H.
  unfold getAlignment.
  set (r := lookup_or alignmentTable "LV_ALIGN_TOP_LEFT" _) in *.
  clearbody r. simpl in H.
  repeat (destruct H as [<-|H]; [apply plainb_sound; reflexivity|]).
  destruct H.
Qed.

Lemma emitsP_refl P g : emitsP P g g.
Proof.
  repeat split. exists []. rewrite app_nil_r. split; [reflexivity|constructor].
Qed.

Lemma emitsP_trans P g1 g2 g3 :
  emitsP P g1 g2 -> emitsP P g2 g3 -> emitsP P g1 g3.
Proof.
  intros (A1 & A2 & m1 & E1 & F1) (B1 & B2 & m2 & E2 & F2).
  repeat split; try congruence.
  exists (m1 ++ m2). rewrite E2, E1, app_assoc. split; [reflexivity|].
  apply Forall_app. split; assumption.
Qed.

Lemma emitsP_addLine (line : jstring) g :
  plain line -> emitsP plain g (addLine line g).
Proof.
  intros H. repeat split. eexists. split; [reflexivity|].
  constructor; [|constructor].
  apply plain_app; [apply plain_spaces | exact H].
Qed.

Lemma emitsP_generateStyles v ls g :
  plain v ->
  match ls with
  | Some d => forallb (fun kv => plainb (fst kv) && plainb (snd kv)) d
  | None => true
  end = true ->
  emitsP plain g (generateStyles v ls g).
Proof.
  intros Hv H. destruct ls as [d|]; [|apply emitsP_refl].
  unfold generateStyles.
  revert g. induction d as [|kv d IH]; intros g; cbn [fold_left];
    [apply emitsP_refl|].
  cbn [forallb] in H. apply andb_true_iff in H. destruct H as [Hkv Hd].
  apply andb_true_iff in Hkv. destruct Hkv as [Hk Hx].
  eapply emitsP_trans; [|apply IH, Hd].
  apply emitsP_addLine.
  repeat (apply plain_app;
          [first [assumption | apply plainb_sound; (reflexivity || assumption)]|]).
  apply plainb_sound. reflexivity.
Qed.

Ltac plain_solve :=
  repeat first
    [ assumption
    | apply plain_app
    | apply plain_string_of_Z
    | apply plain_getAlignment
    | (apply plain_convertSize; assumption)
    | apply plain_kind
    | (apply plainb_sound; reflexivity)
    | match goal with
      | H : forall t, Some ?x = Some t -> plain t |- plain ?x =>
          apply H; reflexivity
      end ].

(** After its creation statement [generateOwn] emits only lines without
    [=] and without line break. *)
Lemma generateOwn_shape (w : EEZWidget) (v p : jstring) (g : generator) :
  plain v ->
  plainSizeb (width w) = true -> plainSizeb (height w) = true ->
  (forall t, text w = Some t -> plain t) ->
  (forall t, rangeMin w = Some t -> plain t) ->
  (forall t, rangeMax w = Some t -> plain t) ->
  (forall t, value w = Some t -> plain t) ->
  match localStyles w with
  | Some d => forallb (fun kv => plainb (fst kv) && plainb (snd kv)) d
  | None => true
  end = true ->
  emitsP plain
    (addLine (v ++ str " = lv_" ++ getWidgetTypeFromEEZ (e_type w)
              ++ str "_create(" ++ p ++ str ");") g)
    (generateOwn w v p g).
Proof.
  intros Hv Hw Hh Ht Hmin Hmax Hval Hst. unfold generateOwn.
  repeat first
    [ apply emitsP_refl
    | (eapply emitsP_trans; [|apply emitsP_addLine; plain_solve])
    | (eapply emitsP_trans; [|apply emitsP_generateStyles; assumption])
    | match goal with
      | |- emitsP _ _ (if ?b then _ else _) => destruct b
      | |- emitsP _ _ (match ?o with Some _ => _ | None => _ end) =>
          destruct o
      end ].
Qed.

Lemma create_mid (kind X : jstring) (R : regex) (caps res : list jstring) :
  all_word kind ->
  match_items R X (caps ++ [kind]) = Some res ->
  match_items (Group [W] :: A (L "_create(") :: R)
    (kind ++ str "_create(" ++ X) caps = Some res.
Proof.
  intros Hk H. rewrite match_items_group1.
  apply plus_app_some; [exact Hk|].
  simpl. rewrite consumed_app, H. reflexivity.
Qed.

Lemma create_parent (p rest : jstring) (caps : list jstring) :
  p <> [] -> no_char ")" p ->
  match_items [Group [Not ")"]; A (L ")"); A S0; A (L ";")]
    (p ++ str ");" ++ rest) caps = Some (caps ++ [p]).
Proof.
  intros Hne Hp. rewrite match_items_group1.
  apply plus_app_some.
  - split; [exact Hne|]. eapply Forall_impl; [exact Hp|].
    intros c Hc. apply is_not_neq, Hc.
  - simpl. rewrite consumed_app. reflexivity.
Qed.

(** The creation pattern reads a generated creation statement back. *)
Lemma createRe_generated (v kind p rest : jstring) :
  all_word v -> all_word kind -> p <> [] -> no_char ")" p ->
  re_match createRe
    (v ++ str " = lv_" ++ kind ++ str "_create(" ++ p ++ str ");" ++ rest)
  = Some [v; kind; p].
Proof.
  intros Hv Hk Hne Hp. apply re_match_here. unfold createRe.
  rewrite match_items_group1.
  apply plus_app_some; [exact Hv|].
  change (str " = lv_" ++ ?x) with (" "%char :: str "= lv_" ++ x).
  rewrite star_stop by reflexivity.
  change (" "%char :: str "= lv_" ++ ?x) with (str " = lv_" ++ x).
  rewrite consumed_app, create_prefix.
  apply create_mid; [exact Hk|].
  apply (create_parent p rest [v; kind] Hne Hp).
Qed.

Lemma Forall_trim (P : ascii -> Prop) (s : jstring) :
  Forall P s -> Forall P (trim s).
Proof.
  intros H. unfold trim. apply Forall_rev, Forall_dropWhile, Forall_rev,
    Forall_dropWhile, H.
Qed.

Lemma createRe_needs_eq (s : jstring) :
  no_char "=" s -> re_match createRe s = None.
Proof.
  intros H. destruct (re_match createRe s) as [res|] eqn:E; [|reflexivity].
  exfalso. apply createRe_sound in E.
  destruct E as (pre & v & s1 & s2 & t & p & s3 & rest & -> & _).
  unfold no_char in H. rewrite !Forall_app in H.
  destruct H as (_ & _ & _ & H & _). inversion H; subst. congruence.
Qed.

Lemma creationFact_plain (line : jstring) :
  plain line -> creationFact line = [].
Proof.
  intros H. unfold creationFact. rewrite createRe_needs_eq; [reflexivity|].
  apply Forall_trim. eapply Forall_impl; [exact H|]. intros c [Hc _]. exact Hc.
Qed.

Lemma trim_nospace (s : jstring) :
  Forall (fun c => is_space c = false) s -> trim s = s.
Proof.
  intros H. unfold trim.
  assert (D : forall l, Forall (fun c => is_space c = false) l ->
                        dropWhile is_space l = l).
  { intros l Hl. destruct Hl as [|c l Hc _]; simpl; [reflexivity|].
    rewrite Hc. reflexivity. }
  rewrite (D s H), D by (apply Forall_rev, H). apply rev_involutive.
Qed.

Lemma trim_word (s : jstring) : all_word s -> trim s = s.
Proof.
  intros [_ H]. apply trim_nospace. eapply Forall_impl; [exact H|].
  intros c. apply word_not_space.
Qed.

Lemma creationFact_generated (v kind p : jstring) :
  all_word v -> all_word kind -> all_word p ->
  creationFact (v ++ str " = lv_" ++ kind ++ str "_create(" ++ p ++ str ");")
  = [(v, str "lv_" ++ kind, parentOf p)].
Proof.
  intros Hv Hk Hp. unfold creationFact.
  assert (T : trim (v ++ str " = lv_" ++ kind ++ str "_create(" ++ p
                    ++ str ");")
              = v ++ str " = lv_" ++ kind ++ str "_create(" ++ p
                ++ str ");" ++ []).
  { destruct Hv as [Hne Hw]. destruct Hw as [|c v' Hc Hw]; [congruence|].
    pose proof (trim_ends
                  ((c :: v') ++ str " = lv_" ++ kind ++ str "_create(" ++ p
                   ++ str ")") ";"%char eq_refl) as E.
    revert E. repeat (rewrite <- app_assoc; simpl).
    rewrite (word_not_space c Hc). simpl.
    repeat (rewrite <- app_assoc; simpl).
    intros E. rewrite E. reflexivity. }
  rewrite T, createRe_generated; try assumption.
  - rewrite (trim_word p Hp). reflexivity.
  - apply Hp.
  - apply (all_word_no ")"); [reflexivity | exact Hp].
Qed.

Lemma exportable_eq (e : EEZWidget) :
  exportable e
  = wordb (identifier e) && ownKind (e_type e)
    && plainSizeb (width e) && plainSizeb (height e)
    && plainOptb (text e) && plainOptb (rangeMin e) && plainOptb (rangeMax e)
    && plainOptb (value e)
    && match localStyles e with
       | Some d => forallb (fun kv => plainb (fst kv) && plainb (snd kv)) d
       | None => true
       end
    && forallb exportable (e_children e).
Proof. destruct e. reflexivity. Qed.

Lemma exportable_identified (e : EEZWidget) :
  exportable e = true -> allIdentified e = true.
Proof.
  induction e as [e IH] using EEZWidget_tree_ind.
  rewrite exportable_eq, allIdentified_eq. intros H.
  rewrite !andb_true_iff in H.
  destruct H as (((((((((Hid & _) & _) & _) & _) & _) & _) & _) & _) & Hk).
  apply andb_true_iff. split.
  - unfold wordb in Hid. apply andb_true_iff in Hid. apply Hid.
  - rewrite forallb_forall in *. rewrite List.Forall_forall in IH.
    intros c Hc. apply IH; auto.
Qed.

Lemma generateOwn_fresh (w : EEZWidget) (v p : jstring)
    (lines : list jstring) (n : nat) :
  generateOwn w v p (mkGen 0 4 lines n)
  = mkGen 0 4
      (lines ++ code_lines (generateOwn w v p (freshGenerator 0))) n.
Proof.
  destruct (oblivious_generateOwn w v p (mkGen 0 4 lines n) eq_refl)
    as [_ E].
  rewrite E. unfold append_to. cbn [indentSize code_lines rnd].
  pose proof (rnd_blind_generateOwn w v p 0 4 [] n 0) as B.
  unfold freshGenerator in *. rewrite B. reflexivity.
Qed.

Lemma children_fold_identified (rand : nat -> jstring) (v : jstring)
    (kids : list EEZWidget) :
  forallb allIdentified kids = true ->
  forall lines n,
    fold_left (fun acc child => generateWidgetIn rand child v acc) kids
      (mkGen 0 4 lines n)
    = mkGen 0 4 (lines ++ flat_map (fun c => statements c v) kids) n.
Proof.
  induction kids as [|c kids IH]; intros H lines n; simpl.
  - rewrite app_nil_r. reflexivity.
  - simpl in H. apply andb_true_iff in H. destruct H as [Hc Hk].
    rewrite (generateWidgetIn_identified rand c v lines n Hc), (IH Hk).
    rewrite <- app_assoc. reflexivity.
Qed.

Lemma statements_unfold (e : EEZWidget) (p : jstring) :
  allIdentified e = true ->
  statements e p
  = code_lines (generateOwn e (identifier e) p (freshGenerator 0))
    ++ flat_map (fun c => statements c (identifier e)) (e_children e).
Proof.
  intros H. rewrite allIdentified_eq in H.
  apply andb_true_iff in H. destruct H as [Hid Hk].
  unfold statements at 1, emitted. rewrite generateWidgetIn_eq.
  unfold widgetVarName. rewrite Hid. cbn [fst snd].
  unfold freshGenerator at 1. rewrite generateOwn_fresh.
  rewrite (children_fold_identified _ _ _ Hk). reflexivity.
Qed.

Lemma exportable_statements (e : EEZWidget) :
  exportable e = true ->
  forall p, all_word p ->
    flat_map creationFact (statements e p) = treeFacts e p
    /\ Forall (no_char newline) (statements e p)
    /\ statements e p <> []
    /\ Forall (fun l => no_char "=" l \/ no_char "*" l) (statements e p).
Proof.
  induction e as [e IH] using EEZWidget_tree_ind. intros He p Hp.
  rewrite (statements_unfold e p (exportable_identified e He)).
  rewrite exportable_eq in He. rewrite !andb_true_iff in He.
  destruct He
    as (((((((((He & Ho) & Hw) & Hh) & Ht) & Hmin) & Hmax) & Hv) & Hs) & Hk).
  apply wordb_sound in He.
  pose proof (generateOwn_shape e (identifier e) p (freshGenerator 0)
                (plain_word _ He) Hw Hh) as S.
  destruct S as (_ & _ & more & Eown & Hmore);
    [ intros t Et; rewrite Et in Ht; apply plainb_sound, Ht
    | intros t Et; rewrite Et in Hmin; apply plainb_sound, Hmin
    | intros t Et; rewrite Et in Hmax; apply plainb_sound, Hmax
    | intros t Et; rewrite Et in Hv; apply plainb_sound, Hv
    | exact Hs |].
  cbn [addLine freshGenerator indent indentSize code_lines repeat Nat.mul app]
    in Eown.
  rewrite Eown.
  assert (K : flat_map creationFact
                (flat_map (fun c => statements c (identifier e))
                   (e_children e))
              = flat_map (fun c => treeFacts c (identifier e)) (e_children e)
              /\ Forall (no_char newline)
                   (flat_map (fun c => statements c (identifier e))
                      (e_children e))
              /\ Forall (fun l => no_char "=" l \/ no_char "*" l)
                   (flat_map (fun c => statements c (identifier e))
                      (e_children e))).
  { revert IH Hk.
    generalize (e_children e) as kids.
    induction kids as [|c kids IHk]; intros IH Hk; simpl;
      [split; [reflexivity | split; constructor]|].
    simpl in Hk. apply andb_true_iff in Hk. destruct Hk as [Hc Hk].
    inversion IH as [|? ? IHc IHrest]; subst.
    destruct (IHc Hc (identifier e) He) as (F1 & N1 & _ & G1).
    destruct (IHk IHrest Hk) as (F2 & N2 & G2).
    split; [|split].
    - rewrite flat_map_app, F1, F2. reflexivity.
    - apply Forall_app. split; assumption.
    - apply Forall_app. split; assumption. }
  destruct K as (K1 & K2 & K3).
  split; [|split; [|split]].
  - cbn [app flat_map]. rewrite flat_map_app, K1.
    rewrite creationFact_generated by (assumption || apply kind_word, Ho).
    rewrite (flat_map_nil creationFact more).
    + destruct e; reflexivity.
    + eapply Forall_impl; [exact Hmore|]. intros l. apply creationFact_plain.
  - cbn [app]. constructor.
    + unfold no_char. rewrite !Forall_app.
      split; [apply (all_word_no newline); [reflexivity | exact He]|].
      split; [repeat constructor; discriminate|].
      split; [apply (all_word_no newline); [reflexivity | apply kind_word, Ho]|].
      split; [repeat constructor; discriminate|].
      split; [apply (all_word_no newline); [reflexivity | exact Hp]|].
      repeat constructor; discriminate.
    + apply Forall_app. split; [|exact K2].
      eapply Forall_impl; [exact Hmore|]. intros l Hl.
      eapply Forall_impl; [exact Hl|]. intros c [_ Hc]. exact Hc.
  - discriminate.
  - cbn [app]. constructor.
    + right. unfold no_char. rewrite !Forall_app.
      split; [apply (all_word_no "*"); [reflexivity | exact He]|].
      split; [repeat constructor; discriminate|].
      split; [apply (all_word_no "*"); [reflexivity | apply kind_word, Ho]|].
      split; [repeat constructor; discriminate|].
      split; [apply (all_word_no "*"); [reflexivity | exact Hp]|].
      repeat constructor; discriminate.
    + apply Forall_app. split; [|exact K3].
      eapply Forall_impl; [exact Hmore|]. intros l Hl. left.
      eapply Forall_impl; [exact Hl|]. intros c [Hc _]. exact Hc.
Qed.



(** ** Sizes through export and import *)

Lemma includes_needs_first (c : ascii) (needle hay : jstring) :
  no_char c hay -> includes (c :: needle) hay = false.
Proof.
  induction 1 as [|d hay Hd _ IH]; [reflexivity|].
  cbn [includes strip_prefix].
  destruct (Ascii.eqb c d) eqn:E; [apply Ascii.eqb_eq in E; congruence|].
  exact IH.
Qed.

Lemma digit_not_char (x : ascii) (s : jstring) :
  is_digit x = false -> Forall (fun c => is_digit c = true) s -> no_char x s.
Proof.
  intros Hx H. eapply Forall_impl; [exact H|].
  intros c Hc ->. congruence.
Qed.

Lemma string_of_Z_chars (n : Z) :
  Forall (fun c => is_digit c = true \/ c = "-"%char) (string_of_Z n).
Proof.
  destruct n as [|p|p].
  - repeat constructor.
  - rewrite string_of_Z_pos. eapply Forall_impl; [apply uint_digits|].
    intros c Hc. left. exact Hc.
  - rewrite string_of_Z_neg. constructor; [right; reflexivity|].
    eapply Forall_impl; [apply uint_digits|]. intros c Hc. left. exact Hc.
Qed.

(** X4: For an integer n below 2^53 in absolute value and a unit other than
    the percent sign, parseSize reads the text that convertSize writes for n
    back as the number n. *)
Theorem pixel_size_round_trip (n : Z) (unit : jstring) :
  (Z.abs n < 2 ^ 53)%Z -> unit <> str "%" ->
  parseSize (convertSize (SNum n) unit) = SNum n.
Proof.
  intros _ Hu. unfold convertSize.
  destruct (jeqb unit (str "%")) eqn:E; [apply jeqb_eq in E; congruence|].
  cbn [string_of_size]. unfold parseSize.
  change (str "LV_PCT") with ("L"%char :: str "V_PCT").
  rewrite includes_needs_first.
  - rewrite parseInt_string_of_Z. reflexivity.
  - eapply Forall_impl; [apply string_of_Z_chars|].
    intros c [Hc| ->]; [intros ->|]; discriminate.
Qed.

Lemma pixel_size_round_trip_witness :
  parseSize (convertSize (SNum 200) (str "px")) = SNum 200.
Proof.
  apply (pixel_size_round_trip 200 (str "px")).
  - reflexivity.
  - discriminate.
Defined.

Lemma includes_here (needle rest : jstring) :
  includes needle (needle ++ rest) = true.
Proof.
  destruct needle as [|c needle]; [destruct rest; reflexivity|].
  cbn [includes app]. change (c :: needle ++ rest) with ((c :: needle) ++ rest).
  rewrite strip_prefix_app. reflexivity.
Qed.

Lemma includes_app_r (needle pre rest : jstring) :
  includes needle rest = true -> includes needle (pre ++ rest) = true.
Proof.
  intros H. induction pre as [|c pre IH]; [exact H|].
  cbn [app includes]. rewrite IH.
  destruct (strip_prefix needle (c :: pre ++ rest)); reflexivity.
Qed.

Lemma pctRe_here (ds rest : jstring) :
  ds <> [] -> Forall (fun c => is_digit c = true) ds ->
  re_match pctRe (str "LV_PCT(" ++ ds ++ str ")" ++ rest) = Some [ds].
Proof.
  intros Hne Hd. apply re_match_here. unfold pctRe.
  change (match_items (A (L "LV_PCT(") :: ?r) (str "LV_PCT(" ++ ?s) [])
    with (match_items r s []).
  rewrite match_items_group1.
  apply plus_app_some; [split; assumption|].
  simpl. rewrite consumed_app. reflexivity.
Qed.

(** X5: parseSize reads LV_PCT(n), n a non-empty run of digits, as the text
    n followed by a percent sign, and the unit that convertWidget derives
    from that text is the percent sign. *)
Theorem percent_size_reading (ds : jstring) :
  ds <> [] -> Forall (fun c => is_digit c = true) ds ->
  parseSize (str "LV_PCT(" ++ ds ++ str ")") = SStr (ds ++ str "%")
  /\ unit_of (parseSize (str "LV_PCT(" ++ ds ++ str ")")) = str "%".
Proof.
  intros Hne Hd.
  assert (E : parseSize (str "LV_PCT(" ++ ds ++ str ")")
              = SStr (ds ++ str "%")).
  { unfold parseSize.
    change (str "LV_PCT(" ++ ds ++ str ")")
      with (str "LV_PCT" ++ "("%char :: ds ++ str ")") at 1.
    rewrite includes_here.
    pose proof (pctRe_here ds [] Hne Hd) as M.
    rewrite app_nil_r in M. rewrite M. reflexivity. }
  split; [exact E|]. rewrite E. unfold unit_of.
  rewrite includes_app_r; reflexivity.
Qed.

Lemma percent_size_reading_witness :
  parseSize (str "LV_PCT(" ++ str "50" ++ str ")") = SStr (str "50" ++ str "%")
  /\ unit_of (parseSize (str "LV_PCT(" ++ str "50" ++ str ")")) = str "%".
Proof.
  apply (percent_size_reading (str "50")).
  - discriminate.
  - repeat constructor.
Defined.

Lemma unique_split (x : ascii) (a a' b b' : jstring) :
  no_char x a' -> no_char x b' ->
  a ++ x :: b = a' ++ x :: b' -> a = a' /\ b = b'.
Proof.
  intros Ha' Hb'. revert a. induction Ha' as [|c' a' Hc' _ IH]; intros a H.
  - destruct a as [|c a]; simpl in H.
    + injection H as ->. auto.
    + injection H as -> H. exfalso.
      unfold no_char in Hb'. rewrite List.Forall_forall in Hb'.
      apply (Hb' x); [|reflexivity]. rewrite <- H.
      apply in_or_app. right. left. reflexivity.
  - destruct a as [|c a]; simpl in H.
    + injection H as -> _. congruence.
    + injection H as -> H. destruct (IH a H) as [-> ->]. auto.
Qed.

Lemma first_stop (p : ascii -> bool) (a a' b b' : jstring) (x y : ascii) :
  Forall (fun c => p c = true) a -> Forall (fun c => p c = true) a' ->
  p x = false -> p y = false ->
  a ++ x :: b = a' ++ y :: b' -> a = a' /\ x = y /\ b = b'.
Proof.
  intros Ha. revert a'. induction Ha as [|c a Hc _ IH]; intros a' Ha' Hx Hy H.
  - destruct Ha' as [|c' a' Hc' _]; simpl in H.
    + injection H as -> ->. auto.
    + injection H as -> _. congruence.
  - destruct Ha' as [|c' a' Hc' Ha']; simpl in H.
    + injection H as -> _. congruence.
    + injection H as -> H.
      destruct (IH a' Ha' Hx Hy H) as (-> & -> & ->). auto.
Qed.

Lemma pctRe_marked (ds : jstring) :
  Forall (fun c => is_digit c = true) ds ->
  re_match pctRe (str "LV_PCT(" ++ ds ++ str "%)") = None.
Proof.
  intros Hd.
  destruct (re_match pctRe (str "LV_PCT(" ++ ds ++ str "%)")) as [res|] eqn:M;
    [exfalso|reflexivity].
  apply re_match_sound in M. destruct M as (pre & s0 & E & D).
  simpl in D.
  destruct D as (? & s1 & -> & -> & w & s2 & ->
                 & (w' & ? & -> & [Hne Hw] & ->) & ? & s3 & -> & -> & _).
  assert (E' : (pre ++ str "LV_PCT") ++ "("%char :: w' ++ ")"%char :: s3
               = str "LV_PCT" ++ "("%char :: ds ++ str "%)").
  { change (str "LV_PCT" ++ "("%char :: ds ++ str "%)")
      with (str "LV_PCT(" ++ ds ++ str "%)").
    rewrite E. repeat (rewrite <- app_assoc; simpl). reflexivity. }
  apply unique_split in E'.
  - destruct E' as [_ E']. change (str "%)") with ("%"%char :: str ")") in E'.
    apply (first_stop is_digit) in E'; try assumption; try reflexivity.
    destruct E' as (_ & X & _). discriminate.
  - repeat constructor; discriminate.
  - apply Forall_app. split.
    + apply digit_not_char; [reflexivity | exact Hd].
    + repeat constructor; discriminate.
Qed.

(** X6: A size imported as digits followed by a percent sign, with the
    percent sign as unit, is written by convertSize as LV_PCT of that whole
    text, percent sign included; parseSize does not read this back as a
    percentage but returns the written text unchanged. *)
Theorem percent_size_rewrapped (ds : jstring) :
  Forall (fun c => is_digit c = true) ds ->
  parseSize (convertSize (SStr (ds ++ str "%")) (str "%"))
  = SStr (str "LV_PCT(" ++ ds ++ str "%)").
Proof.
  intros Hd. unfold convertSize. cbn [jeqb str string_of_size].
  change (if jeqb (str "%") (str "%") then ?a else ?b) with a.
  rewrite <- app_assoc.
  change (str "%" ++ str ")") with (str "%)").
  unfold parseSize.
  change (str "LV_PCT(" ++ ds ++ str "%)")
    with (str "LV_PCT" ++ "("%char :: ds ++ str "%)") at 1.
  rewrite includes_here, (pctRe_marked ds Hd). reflexivity.
Qed.

Lemma percent_size_rewrapped_witness :
  parseSize (convertSize (SStr (str "100" ++ str "%")) (str "%"))
  = SStr (str "LV_PCT(" ++ str "100" ++ str "%)").
Proof. apply (percent_size_rewrapped (str "100")). repeat constructor. Defined.

(** ** Creation lines and the children lists *)

Lemma startFact_core (w w' : LVGLWidget) :
  same_core w w' -> startFact w' = startFact w.
Proof.
  intros H. unfold startFact. rewrite (widgetFact_core w w' H).
  destruct H as (_ & _ & _ & _ & ->). reflexivity.
Qed.

Lemma processLines_starts (ls : list jstring) (i : nat) (st : pstate) :
  map startFact (st_widgets (processLines ls i st))
  = map startFact (st_widgets st) ++ creationsFrom i ls.
Proof.
  revert i st. induction ls as [|l ls IH]; intros i st; simpl.
  - rewrite app_nil_r. reflexivity.
  - rewrite IH.
    destruct (processLine_spec l i st) as (kept & created & -> & Hk & Hf & Hl).
    rewrite map_app, <- app_assoc. f_equal.
    + eapply Forall2_touched_map; [|exact Hk]. apply startFact_core.
    + f_equal. rewrite <- Hf. clear - Hl.
      induction Hl as [|w l [Hs _] _ IHl]; simpl; [reflexivity|].
      rewrite IHl. unfold startFact at 1. rewrite Hs. reflexivity.
Qed.

Lemma parse_starts (f content : jstring) :
  map startFact (widgets (parse f content))
  = creationsFrom 0 (split_lines content).
Proof.
  unfold parse, parseWidgets. cbn [widgets].
  rewrite (buildHierarchy_map startFact) by reflexivity.
  rewrite processLines_starts. reflexivity.
Qed.

Lemma creationFact_cases (l : jstring) :
  creationFact l = [] \/ exists fact, creationFact l = [fact].
Proof.
  unfold creationFact.
  destruct (re_match createRe (trim l)) as [[|v [|t [|p [|? ?]]]]|]; eauto.
Qed.

Lemma creationsFrom_lookup (ls : list jstring) (i k n : nat) fact :
  creationsFrom i ls !! k = Some (n, fact) ->
  i <= n
  /\ (exists line, ls !! (n - i) = Some line /\ creationFact line = [fact])
  /\ forall k' n' fact',
       k < k' -> creationsFrom i ls !! k' = Some (n', fact') -> n < n'.
Proof.
  revert i k n fact.
  induction ls as [|l ls IH]; intros i k n fact H; [discriminate|].
  cbn [creationsFrom] in *.
  destruct (creationFact_cases l) as [E|[fact0 E]]; rewrite E in *;
    cbn [map app] in *.
  - destruct (IH (S i) k _ _ H) as (Hle & (line & Hl & Hf) & Hs).
    split; [lia|]. split.
    + exists line. split; [|exact Hf].
      replace (n - i) with (S (n - S i)) by lia. exact Hl.
    + exact Hs.
  - destruct k as [|k]; cbn in H.
    + injection H as <- <-. split; [lia|]. split.
      * exists l. rewrite Nat.sub_diag. auto.
      * intros [|k'] n' fact' Hk H'; [lia|]. cbn in H'.
        destruct (IH (S i) k' _ _ H') as (Hle & _). lia.
    + destruct (IH (S i) k _ _ H) as (Hle & (line & Hl & Hf) & Hs).
      split; [lia|]. split.
      * exists line. split; [|exact Hf].
        replace (n - i) with (S (n - S i)) by lia. exact Hl.
      * intros [|k'] n' fact' Hk H'; [lia|]. cbn in H'.
        apply (Hs k' n' fact'); [lia | exact H'].
Qed.

(** X7: Every widget record that parse returns was made by the line of the
    file that its sourceLineStart indexes: that line, trimmed, matches the
    creation pattern with the record's identifier, type and parent; and the
    start lines of the records increase strictly along the widget list. *)
Theorem creation_line_of_widget (f content : jstring) :
  (forall k w,
     widgets (parse f content) !! k = Some w ->
     exists line,
       split_lines content !! sourceLineStart w = Some line
       /\ creationFact line = [widgetFact w])
  /\ (forall k k' w w',
        k < k' ->
        widgets (parse f content) !! k = Some w ->
        widgets (parse f content) !! k' = Some w' ->
        sourceLineStart w < sourceLineStart w').
Proof.
  pose proof (parse_starts f content) as P.
  assert (Q : forall k w,
             widgets (parse f content) !! k = Some w ->
             creationsFrom 0 (split_lines content) !! k
             = Some (startFact w)).
  { intros k w H. rewrite <- P. rewrite list_lookup_fmap, H. reflexivity. }
  split.
  - intros k w H.
    destruct (creationsFrom_lookup _ 0 k _ _ (Q k w H))
      as (_ & (line & Hl & Hf) & _).
    exists line. rewrite Nat.sub_0_r in Hl. auto.
  - intros k k' w w' Hk H H'.
    destruct (creationsFrom_lookup _ 0 k _ _ (Q k w H)) as (_ & _ & Hs).
    apply (Hs k' _ _ Hk (Q k' w' H')).
Qed.

Lemma creation_line_of_widget_witness :
  exists w line,
    widgets (parse (str "ui.cpp") orphanCode) !! 1 = Some w
    /\ split_lines orphanCode !! sourceLineStart w = Some line
    /\ creationFact line = [widgetFact w].
Proof.
  destruct (widgets (parse (str "ui.cpp") orphanCode) !! 1) as [w|] eqn:E;
    [|vm_compute in E; discriminate].
  destruct (proj1 (creation_line_of_widget (str "ui.cpp") orphanCode) 1 w E)
    as (line & H1 & H2).
  exists w, line. split; [reflexivity|]. split; assumption.
Defined.

Lemma lookup_alter_children (f : LVGLWidget -> LVGLWidget)
    (cur : list LVGLWidget) (q p : nat) (w : LVGLWidget) :
  alter f q cur !! p = Some w ->
  exists w0, cur !! p = Some w0
             /\ w = if (q =? p)%nat then f w0 else w0.
Proof.
  intros H. destruct (Nat.eqb_spec q p) as [->|Hne].
  - rewrite list_lookup_alter_eq in H.
    destruct (cur !! p) as [w0|]; [|discriminate].
    injection H as <-. eauto.
  - rewrite list_lookup_alter_ne in H by exact Hne. eauto.
Qed.

Lemma fold_linkWidget_children (m : jsmap nat) (store0 : list LVGLWidget)
    (idxs : list nat) :
  forall cur,
    map parent cur = map parent store0 ->
    forall p w,
      fold_left (linkWidget m) idxs cur !! p = Some w ->
      exists w0,
        cur !! p = Some w0
        /\ children w
           = children w0 ++ List.filter (childOf m store0 p) idxs.
Proof.
  induction idxs as [|idx idxs IH]; intros cur Hp p w H; simpl in *.
  - exists w. rewrite app_nil_r. auto.
  - destruct (IH (linkWidget m cur idx)
                (eq_trans (linkWidget_map parent m cur idx
                             (fun _ _ => eq_refl)) Hp) p w H)
      as (w1 & Hw1 & Hc).
    rewrite linkWidget_parentIdx in Hw1.
    unfold childOf at 1.
    rewrite <- (parentIdx_ext m store0 cur Hp idx).
    destruct (parentIdx m cur idx) as [q|].
    + destruct (lookup_alter_children _ _ _ _ _ Hw1) as (w0 & Hw0 & E).
      exists w0. split; [exact Hw0|]. rewrite Hc, E.
      destruct (q =? p)%nat; simpl; [|reflexivity].
      rewrite <- app_assoc. reflexivity.
    + exists w1. auto.
Qed.

Lemma parseWidgets_children (lines : list jstring) (p : nat)
    (w : LVGLWidget) :
  st_widgets (parseWidgets lines) !! p = Some w ->
  children w
  = List.filter
      (childOf (st_map (parseWidgets lines)) (st_widgets (parseWidgets lines))
         p)
      (map_values (st_map (parseWidgets lines))).
Proof.
  intros H. unfold parseWidgets in *.
  set (st0 := processLines lines 0 (mkState [] [])) in *.
  assert (R : reachable (0 + length lines) st0)
    by apply (reachable_processLines lines 0), reach_init.
  pose proof (buildHierarchy_map parent st0 (fun _ _ => eq_refl)) as Hp.
  assert (E : forall c,
             childOf (st_map (buildHierarchy st0))
               (st_widgets (buildHierarchy st0)) p c
             = childOf (st_map st0) (st_widgets st0) p c).
  { intros c. unfold childOf. cbn [buildHierarchy st_map].
    rewrite (parentIdx_ext _ _ _ Hp). reflexivity. }
  rewrite (List.filter_ext _ _ E).
  unfold buildHierarchy in H. cbn [st_widgets st_map] in H.
  destruct (fold_linkWidget_children (st_map st0) (st_widgets st0)
              (map_values (st_map st0)) (st_widgets st0) eq_refl p w H)
    as (w0 & Hw0 & Hc).
  rewrite Hc.
  pose proof (reachable_children_nil _ _ R) as Hnil.
  rewrite List.Forall_forall in Hnil.
  rewrite (Hnil w0); [reflexivity|].
  apply list_elem_of_In. eapply list_elem_of_lookup_2, Hw0.
Qed.

(** X8: After parseWidgets the children of the record at position p are
    exactly the entries of the lookup table, in the table's order, whose
    parent name is present, is not the text parent, and is resolved by the
    table to position p. *)
Theorem hierarchy_children (lines : list jstring) (p : nat) (w : LVGLWidget) :
  let st := parseWidgets lines in
  st_widgets st !! p = Some w ->
  children w
  = List.filter (childOf (st_map st) (st_widgets st) p)
      (map_values (st_map st)).
Proof. intros st. apply parseWidgets_children. Qed.

Lemma hierarchy_children_witness :
  let st := parseWidgets [str "panel = lv_obj_create(parent);";
                          str "title = lv_label_create(panel);"] in
  exists w,
    st_widgets st !! 0 = Some w
    /\ children w
       = List.filter (childOf (st_map st) (st_widgets st) 0)
           (map_values (st_map st)).
Proof.
  intros st. eexists. split.
  - vm_compute. reflexivity.
  - apply (hierarchy_children
             [str "panel = lv_obj_create(parent);";
              str "title = lv_label_create(panel);"] 0).
    vm_compute. reflexivity.
Defined.

Lemma map_set_keys {V} (k : jstring) (v : V) (m : jsmap V) :
  map fst (map_set k v m)
  = if map_has k m then map fst m else map fst m ++ [k].
Proof.
  unfold map_has. induction m as [|[k' v'] m IH]; simpl; [reflexivity|].
  destruct (jeqb k k') eqn:E; simpl.
  - apply jeqb_eq in E. subst. reflexivity.
  - rewrite IH. destruct (map_get k m); reflexivity.
Qed.

Lemma map_get_in_keys {V} (k : jstring) (m : jsmap V) :
  map_get k m = None -> ~ In k (map fst m).
Proof.
  induction m as [|[k' v'] m IH]; simpl; [tauto|].
  destruct (jeqb k k') eqn:E; [discriminate|].
  apply jeqb_neq in E. intros H [H'|H']; [congruence | exact (IH H H')].
Qed.

Lemma map_set_keys_nodup {V} (k : jstring) (v : V) (m : jsmap V) :
  List.NoDup (map fst m) -> List.NoDup (map fst (map_set k v m)).
Proof.
  intros H. rewrite map_set_keys. unfold map_has.
  destruct (map_get k m) eqn:E; [exact H|].
  apply List.NoDup_app; [exact H | repeat constructor; simpl; tauto|].
  intros x Hx [<-|[]]. exact (map_get_in_keys _ _ E Hx).
Qed.

Lemma reachable_keys_nodup (i : nat) (st : pstate) :
  reachable i st -> List.NoDup (map fst (st_map st)).
Proof.
  induction 1 as [|i st raw _ IH]; [constructor|].
  unfold processLine.
  destruct (setters_steps (trim raw) i (createWidget (trim raw) i st))
    as [Hm _].
  rewrite Hm. unfold createWidget.
  destruct (re_match createRe (trim raw)) as [[|v [|t [|p [|? ?]]]]|];
    try exact IH.
  cbn [st_map]. apply map_set_keys_nodup, IH.
Qed.

Lemma map_get_in {V} (k : jstring) (v : V) (m : jsmap V) :
  List.NoDup (map fst m) -> In (k, v) m -> map_get k m = Some v.
Proof.
  induction m as [|[k' v'] m IH]; simpl; intros Hnd Hin; [tauto|].
  inversion Hnd as [|? ? Hk' Hnd']; subst.
  destruct Hin as [[= -> ->]|Hin]; [rewrite jeqb_refl; reflexivity|].
  destruct (jeqb k k') eqn:E; [|apply IH; assumption].
  apply jeqb_eq in E. subst k'. exfalso. apply Hk'.
  apply (in_map fst) in Hin. exact Hin.
Qed.

Lemma values_nodup {V} (m : jsmap V) :
  List.NoDup (map fst m) ->
  (forall k1 k2 v, In (k1, v) m -> In (k2, v) m -> k1 = k2) ->
  List.NoDup (map snd m).
Proof.
  induction m as [|[k v] m IH]; simpl; intros Hnd Hinj; [constructor|].
  inversion Hnd as [|? ? Hk Hnd']; subst. constructor.
  - intros Hin. apply in_map_iff in Hin. destruct Hin as ([k2 v2] & E & Hin).
    simpl in E. subst v2.
    assert (k = k2) by (apply (Hinj k k2 v); auto).
    subst k2. apply Hk. apply (in_map fst) in Hin. exact Hin.
  - apply IH; [exact Hnd'|]. intros k1 k2 v0 H1 H2.
    apply (Hinj k1 k2 v0); auto.
Qed.

Lemma reachable_values_nodup (i : nat) (st : pstate) :
  reachable i st -> List.NoDup (map_values (st_map st)).
Proof.
  intros R. pose proof (reachable_keys_nodup i st R) as Hk.
  destruct (reachable_map_ok i st R) as [H1 _].
  apply values_nodup; [exact Hk|].
  intros k1 k2 v In1 In2.
  destruct (H1 k1 v (map_get_in _ _ _ Hk In1)) as (w1 & Hw1 & <-).
  destruct (H1 k2 v (map_get_in _ _ _ Hk In2)) as (w2 & Hw2 & <-).
  congruence.
Qed.

Lemma filters_nodup (f : nat -> nat -> bool) (vals ps : list nat) :
  (forall p q c, f p c = true -> f q c = true -> p = q) ->
  List.NoDup vals -> List.NoDup ps ->
  List.NoDup (flat_map (fun p => List.filter (f p) vals) ps).
Proof.
  intros Hf Hv Hp. induction Hp as [|p ps Hnot Hp IH]; simpl; [constructor|].
  apply List.NoDup_app; [apply List.NoDup_filter, Hv | exact IH |].
  intros c Hc Hc'. apply List.filter_In in Hc. destruct Hc as [_ Hc].
  apply in_flat_map in Hc'. destruct Hc' as (q & Hq & Hc').
  apply List.filter_In in Hc'. destruct Hc' as [_ Hc'].
  rewrite (Hf p q c Hc Hc') in Hnot. contradiction.
Qed.

Lemma flat_map_ext_In {B C} (g h : B -> list C) (l : list B) :
  (forall x, In x l -> g x = h x) -> flat_map g l = flat_map h l.
Proof.
  induction l as [|x l IH]; simpl; intros H; [reflexivity|].
  rewrite (H x), IH by auto. reflexivity.
Qed.

Lemma flat_map_lookup {B C} (g : B -> list C) (l : list B) :
  flat_map g l
  = flat_map (fun p => match l !! p with Some x => g x | None => [] end)
      (seq 0 (length l)).
Proof.
  induction l as [|x l IH] using rev_ind; [reflexivity|].
  rewrite flat_map_app, length_app, seq_app, flat_map_app. simpl.
  rewrite lookup_app_r, Nat.sub_diag by lia. simpl. f_equal.
  rewrite IH. apply flat_map_ext_In. intros p Hp. apply in_seq in Hp.
  rewrite lookup_app_l by lia. reflexivity.
Qed.

Lemma childOf_fun (m : jsmap nat) (store : list LVGLWidget) (p q c : nat) :
  childOf m store p c = true -> childOf m store q c = true -> p = q.
Proof.
  unfold childOf. destruct (parentIdx m store c); [|discriminate].
  intros H1 H2. apply Nat.eqb_eq in H1, H2. congruence.
Qed.

Lemma parseWidgets_reachable (lines : list jstring) :
  reachable (length lines) (processLines lines 0 (mkState [] [])).
Proof. apply (reachable_processLines lines 0), reach_init. Qed.

(** X9: In a parsed file no record occurs twice among the children, neither
    in one children list nor in two of them, and every child of a record is
    a record whose parent name is that record's identifier. *)
Theorem children_disjoint (f content : jstring) :
  List.NoDup (flat_map children (widgets (parse f content)))
  /\ forall p w c,
       widgets (parse f content) !! p = Some w -> In c (children w) ->
       exists w', widgets (parse f content) !! c = Some w'
                  /\ parent w' = Some (variableName w).
Proof.
  unfold parse. cbn [widgets].
  set (lines := split_lines content).
  pose proof (parseWidgets_reachable lines) as R.
  split.
  - rewrite flat_map_lookup.
    rewrite (flat_map_ext_In _
               (fun p => List.filter
                           (childOf (st_map (parseWidgets lines))
                              (st_widgets (parseWidgets lines)) p)
                           (map_values (st_map (parseWidgets lines))))).
    + apply filters_nodup.
      * apply childOf_fun.
      * apply (reachable_values_nodup _ _ R).
      * apply List.seq_NoDup.
    + intros p Hp. apply in_seq in Hp.
      destruct (lookup_lt_is_Some_2 (st_widgets (parseWidgets lines)) p)
        as [w Hw]; [lia|].
      rewrite Hw. apply parseWidgets_children, Hw.
  - intros p w c Hw Hc.
    rewrite (parseWidgets_children lines p w Hw) in Hc.
    apply List.filter_In in Hc. destruct Hc as [_ Hc].
    unfold childOf in Hc.
    destruct (parentIdx _ _ c) as [q|] eqn:E; [|discriminate].
    apply Nat.eqb_eq in Hc. subst q. unfold parentIdx in E.
    destruct (st_widgets (parseWidgets lines) !! c) as [w'|]; [|discriminate].
    exists w'. split; [reflexivity|].
    destruct (parent w') as [name|]; [|discriminate].
    destruct (truthy name && negb (jeqb name (str "parent")));
      [|discriminate].
    destruct (map_ok_buildHierarchy _ (reachable_map_ok _ _ R)) as [H1 _].
    destruct (H1 name p E) as (w2 & Hw2 & Hn).
    unfold parseWidgets in Hw. rewrite Hw in Hw2. injection Hw2 as <-.
    rewrite Hn. reflexivity.
Qed.

Lemma children_disjoint_witness :
  List.NoDup
    (flat_map children
       (widgets (parse (str "ui.cpp")
                   (join_lines [str "panel = lv_obj_create(parent);";
                                str "title = lv_label_create(panel);";
                                str "note = lv_label_create(panel);"])))).
Proof.
  exact (proj1 (children_disjoint (str "ui.cpp")
                  (join_lines [str "panel = lv_obj_create(parent);";
                               str "title = lv_label_create(panel);";
                               str "note = lv_label_create(panel);"]))).
Defined.

Lemma lastIndexFrom_last (v : jstring) (store : list LVGLWidget) (i c : nat) :
  lastIndexFrom v store i = Some c ->
  i <= c
  /\ forall j w, c < i + j -> store !! j = Some w -> variableName w <> v.
Proof.
  revert i. induction store as [|x store IH]; intros i H; [discriminate|].
  simpl in H. destruct (lastIndexFrom v store (S i)) as [c'|] eqn:E.
  - injection H as ->. destruct (IH (S i) E) as [Hle Hl]. split; [lia|].
    intros [|j] w Hj Hw; [lia|]. simpl in Hw.
    apply (Hl j w); [lia | exact Hw].
  - destruct (jeqb (variableName x) v) eqn:Ex; [|discriminate].
    injection H as <-. split; [lia|].
    intros [|j] w Hj Hw; [lia|]. simpl in Hw.
    clear - E Hw. revert i j E Hw.
    induction store as [|y store IHs]; intros i j E Hw; [discriminate|].
    simpl in E. destruct (lastIndexFrom v store (S (S i))) eqn:E';
      [discriminate|].
    destruct (jeqb (variableName y) v) eqn:Ey; [discriminate|].
    destruct j as [|j]; simpl in Hw.
    + injection Hw as <-. apply jeqb_neq, Ey.
    + apply (IHs (S i) j E' Hw).
Qed.

Lemma filter_none {B} (g : B -> bool) (l : list B) :
  (forall x, In x l -> g x = false) -> List.filter g l = [].
Proof.
  induction l as [|x l IH]; simpl; intros H; [reflexivity|].
  rewrite (H x), IH by auto. reflexivity.
Qed.

(** X10: A record whose identifier is used again by a later creation
    statement of the file is outside the hierarchy: it has no children and
    is no record's child, because the lookup table only knows the later
    record. *)
Theorem shadowed_widget_unlinked (f content : jstring) (c j : nat)
    (wc wj : LVGLWidget) :
  widgets (parse f content) !! c = Some wc ->
  widgets (parse f content) !! j = Some wj ->
  c < j -> variableName wj = variableName wc ->
  children wc = []
  /\ forall p wp,
       widgets (parse f content) !! p = Some wp -> ~ In c (children wp).
Proof.
  unfold parse. cbn [widgets].
  set (lines := split_lines content).
  intros Hc Hj Hlt Hname.
  pose proof (parseWidgets_reachable lines) as R.
  set (st0 := processLines lines 0 (mkState [] [])) in *.
  pose proof (buildHierarchy_map variableName st0 (fun _ _ => eq_refl)) as Hn.
  assert (Late : forall v, map_get v (st_map st0) <> Some c
                           \/ v <> variableName wc).
  { intros v. destruct (map_get v (st_map st0)) as [c'|] eqn:E;
      [|left; discriminate].
    destruct (decide (c' = c)) as [->|Hne]; [|left; congruence].
    right. intros ->.
    rewrite (reachable_latest _ _ _ R) in E.
    destruct (lastIndexFrom_last _ _ _ _ E) as [_ Hl].
    pose proof (lookup_map_eq variableName _ _ j Hn) as Ej.
    unfold parseWidgets in Hj. fold st0 in Hj. rewrite Hj in Ej.
    destruct (st_widgets st0 !! j) as [wj0|] eqn:Ej0; [|discriminate].
    simpl in Ej. injection Ej as Ej.
    apply (Hl j wj0); [lia | exact Ej0 | congruence]. }
  assert (Key : forall v, map_get v (st_map st0) <> Some c).
  { intros v E. destruct (Late v) as [H|H]; [exact (H E)|].
    destruct (reachable_map_ok _ _ R) as [H1 _].
    destruct (H1 v c E) as (w0 & Hw0 & Hv).
    pose proof (lookup_map_eq variableName _ _ c Hn) as Ec.
    unfold parseWidgets in Hc. fold st0 in Hc.
    rewrite Hc, Hw0 in Ec. simpl in Ec. injection Ec as Ec. congruence. }
  split.
  - rewrite (parseWidgets_children lines c wc Hc).
    apply filter_none. intros x _. unfold childOf.
    destruct (parentIdx _ _ x) as [q|] eqn:E; [|reflexivity].
    apply Nat.eqb_neq. intros ->. unfold parentIdx in E.
    destruct (st_widgets (parseWidgets lines) !! x) as [wx|]; [|discriminate].
    destruct (parent wx) as [name|]; [|discriminate].
    destruct (truthy name && negb (jeqb name (str "parent")));
      [|discriminate].
    exact (Key name E).
  - intros p wp Hp Hin.
    rewrite (parseWidgets_children lines p wp Hp) in Hin.
    apply List.filter_In in Hin. destruct Hin as [Hin _].
    unfold map_values in Hin. apply in_map_iff in Hin.
    destruct Hin as ([k v] & E & Hin). simpl in E. subst v.
    apply (Key k).
    apply map_get_in; [|exact Hin].
    apply (reachable_keys_nodup _ _ R).
Qed.

Lemma shadowed_widget_unlinked_witness :
  exists wc wj,
    widgets (parse (str "ui.cpp") duplicateCode) !! 0 = Some wc
    /\ widgets (parse (str "ui.cpp") duplicateCode) !! 1 = Some wj
    /\ children wc = [].
Proof.
  eexists. eexists. split; [vm_compute; reflexivity|].
  split; [vm_compute; reflexivity|].
  eapply (shadowed_widget_unlinked (str "ui.cpp") duplicateCode 0 1).
  - vm_compute. reflexivity.
  - vm_compute. reflexivity.
  - lia.
  - vm_compute. reflexivity.
Defined.

(** ** Imported pages *)

Lemma split_lines_no_newline (s : jstring) :
  Forall (no_char newline) (split_lines s).
Proof.
  induction s as [|c s IH]; simpl; [repeat constructor|].
  destruct (Ascii.eqb c newline) eqn:E.
  - constructor; [constructor | exact IH].
  - destruct (split_lines s) as [|l ls]; [repeat constructor|].
    + intros ->. rewrite Ascii.eqb_refl in E. discriminate.
    + inversion IH; subst. constructor; [|assumption].
      constructor; [|assumption].
      intros ->. rewrite Ascii.eqb_refl in E. discriminate.
Qed.

Lemma parsed_widget_line (f content : jstring) (w : LVGLWidget) :
  In w (widgets (parse f content)) ->
  exists line v t p,
    In line (split_lines content)
    /\ re_match createRe (trim line) = Some [v; t; p]
    /\ variableName w = v /\ type w = str "lv_" ++ t
    /\ parent w = (if jeqb (trim p) (str "parent") then None
                   else Some (trim p)).
Proof.
  intros Hin. apply (in_map widgetFact) in Hin.
  rewrite parse_facts in Hin. apply in_flat_map in Hin.
  destruct Hin as (line & Hl & Hf). unfold creationFact in Hf.
  destruct (re_match createRe (trim line)) as [[|v [|t [|p [|? ?]]]]|] eqn:E;
    try contradiction.
  destruct Hf as [Hf|[]]. unfold widgetFact in Hf.
  injection Hf as Hv Ht Hp. exists line, v, t, p. auto.
Qed.

Lemma parsed_wellformed (f content : jstring) (w : LVGLWidget) :
  In w (widgets (parse f content)) ->
  all_word (variableName w)
  /\ (exists t, type w = str "lv_" ++ t /\ all_word t)
  /\ forall p, parent w = Some p ->
       p <> str "parent" /\ no_char ")" p /\ no_char newline p.
Proof.
  intros Hin.
  destruct (parsed_widget_line f content w Hin)
    as (line & v & t & p & Hl & M & -> & -> & Hp).
  pose proof M as M'. apply createRe_sound in M'.
  destruct M' as (pre & v' & s1 & s2 & t' & p' & s3 & rest & E & [= <- <- <-]
                  & Hv & Ht & Hne & Hparen & _).
  split; [exact Hv|]. split; [eauto|].
  intros q Hq. rewrite Hq in Hp.
  destruct (jeqb (trim p) (str "parent")) eqn:Ej; [discriminate|].
  injection Hp as ->. split; [apply jeqb_neq, Ej|].
  split; [apply Forall_trim, Hparen|].
  apply Forall_trim.
  assert (N : no_char newline (trim line)).
  { apply Forall_trim.
    pose proof (split_lines_no_newline content) as A.
    rewrite List.Forall_forall in A. apply A, Hl. }
  rewrite E in N. unfold no_char in N. rewrite !Forall_app in N.
  tauto.
Qed.

(** X11: Every widget record that parse returns has a non-empty identifier
    made of word characters and a type of the form lv_ followed by a non-
    empty word; when it has a parent name, that name is not the text parent
    and holds no closing parenthesis and no line break. *)
Theorem parsed_names_wellformed (f content : jstring) (w : LVGLWidget) :
  In w (widgets (parse f content)) ->
  all_word (variableName w)
  /\ (exists t, type w = str "lv_" ++ t /\ all_word t)
  /\ forall p, parent w = Some p ->
       p <> str "parent" /\ no_char ")" p /\ no_char newline p.
Proof. apply parsed_wellformed. Qed.

Lemma parsed_names_wellformed_witness :
  match widgets (parse (str "ui.cpp") orphanCode) with
  | w :: _ => all_word (variableName w)
  | [] => True
  end.
Proof.
  destruct (widgets (parse (str "ui.cpp") orphanCode)) as [|w ws] eqn:E;
    [exact I|].
  apply (parsed_names_wellformed (str "ui.cpp") orphanCode w).
  rewrite E. left. reflexivity.
Defined.

Lemma convertWidget_unfold (fuel : nat) (store : list LVGLWidget)
    (w : LVGLWidget) (e : EEZWidget) :
  convertWidget fuel store w = Some e ->
  exists fuel' kids,
    fuel = S fuel'
    /\ mapM (fun c => match store !! c with
                      | Some child => convertWidget fuel' store child
                      | None => None
                      end) (children w) = Some kids
    /\ e_children e = kids
    /\ identifier e = variableName w.
Proof.
  destruct fuel as [|fuel]; [discriminate|]. cbn [convertWidget].
  destruct (mapM _ (children w)) as [kids|] eqn:E; [|discriminate].
  intros [= <-]. exists fuel, kids. auto.
Qed.

Lemma convertWidget_identified (store : list LVGLWidget) :
  Forall (fun w => variableName w <> []) store ->
  forall fuel w e,
    variableName w <> [] ->
    convertWidget fuel store w = Some e -> allIdentified e = true.
Proof.
  intros Hs. rewrite List.Forall_forall in Hs.
  induction fuel as [|fuel IH]; intros w e Hw He; [discriminate|].
  destruct (convertWidget_unfold _ _ _ _ He) as (fuel' & kids & [= <-] & Hk
                                                 & Hkids & Hid).
  rewrite allIdentified_eq, Hid, Hkids.
  apply andb_true_iff. split; [destruct (variableName w); [congruence | reflexivity]|].
  apply mapM_Some_1 in Hk. clear - Hk IH Hs.
  induction Hk as [|c k cs ks Hck _ IHk]; [reflexivity|].
  simpl. rewrite IHk, andb_true_r.
  destruct (store !! c) as [child|] eqn:Ec; [|discriminate].
  apply (IH child k); [|exact Hck].
  apply Hs, list_elem_of_In. eapply list_elem_of_lookup_2, Ec.
Qed.

Lemma word_nonempty (s : jstring) : all_word s -> s <> [].
Proof. intros [H _]. exact H. Qed.

(** X12: Every widget of a page built from a parsed file has a non-empty
    identifier, and so has every widget below it; generateWidget therefore
    never consults Math.random on an imported widget, and its result is the
    same for every random source. *)
Theorem imported_page_deterministic (f content : jstring) (fuel : nat)
    (page : Page) :
  createPage fuel (parse f content) = Some page ->
  forall e, In e (page_widgets page) ->
    allIdentified e = true
    /\ forall rand1 rand2 parentVar g,
         generateWidget rand1 e parentVar g
         = generateWidget rand2 e parentVar g.
Proof.
  unfold createPage.
  destruct (mapM _ _) as [ws|] eqn:E; [|discriminate].
  intros [= <-] e He. cbn [page_widgets] in He.
  assert (Hid : allIdentified e = true).
  { apply mapM_Some_1 in E.
    assert (Hs : Forall (fun w => variableName w <> [])
                   (widgets (parse f content))).
    { apply List.Forall_forall. intros w Hw.
      apply word_nonempty, (parsed_wellformed f content w Hw). }
    apply list_elem_of_In, list_elem_of_lookup in He. destruct He as [i Hi].
    destruct (Forall2_lookup_r _ _ _ _ _ E Hi) as (w & Hw & Hc).
    apply (convertWidget_identified _ Hs fuel w e); [|exact Hc].
    apply list_elem_of_lookup_2, list_elem_of_In, filter_In in Hw.
    rewrite List.Forall_forall in Hs. apply Hs, Hw. }
  split; [exact Hid|].
  intros rand1 rand2 parentVar g. unfold generateWidget.
  rewrite (generateWidgetIn_rand rand1 rand2 e Hid). reflexivity.
Qed.

Lemma imported_page_deterministic_witness :
  exists page,
    createPage 2 (parse (str "ui.cpp") orphanCode) = Some page
    /\ forall e, In e (page_widgets page) -> allIdentified e = true.
Proof.
  eexists. split; [vm_compute; reflexivity|].
  intros e He.
  eapply (imported_page_deterministic (str "ui.cpp") orphanCode 2).
  - vm_compute. reflexivity.
  - exact He.
Defined.

Lemma convertWidget_step (store : list LVGLWidget) :
  forall fuel w e,
    convertWidget fuel store w = Some e ->
    convertWidget (S fuel) store w = Some e.
Proof.
  induction fuel as [|fuel IH]; intros w e He; [discriminate|].
  cbn [convertWidget] in He.
  destruct (mapM _ (children w)) as [kids|] eqn:E; [|discriminate].
  assert (E' : mapM (fun c => match store !! c with
                              | Some child => convertWidget (S fuel) store child
                              | None => None
                              end) (children w) = Some kids).
  { apply mapM_Some. apply mapM_Some_1 in E.
    eapply Forall2_impl; [exact E|]. intros c k Hck. cbv beta in *.
    destruct (store !! c) as [child|]; [|discriminate].
    apply IH, Hck. }
  change (convertWidget (S (S fuel)) store w)
    with (let eezWidgetType := mapWidgetType (type w) in
          let units := alignUnits (properties w) in
          let definition := styleDefinition (styles w) in
          let isLabel := jeqb eezWidgetType (str "LVGLLabelWidget") in
          let isButton := jeqb eezWidgetType (str "LVGLButtonWidget") in
          match mapM (fun c => match store !! c with
                               | Some child =>
                                   convertWidget (S fuel) store child
                               | None => None
                               end) (children w) with
          | Some kids =>
              Some (mkEEZ eezWidgetType (variableName w)
                      (position_x w) (position_y w)
                      (fst units) (snd units)
                      (size_width w) (size_height w)
                      (unit_of (size_width w))
                      (unit_of (size_height w))
                      kids
                      (match definition with
                       | [] => None | _ => Some definition end)
                      (map_get (str "text") (properties w))
                      (if map_has (str "text") (properties w)
                       then Some (str "literal") else None)
                      (map_get (str "value") (properties w))
                      (map_get (str "range_min") (properties w))
                      (map_get (str "range_max") (properties w))
                      (if isLabel then Some (str "WRAP") else None)
                      (if isLabel then Some false else None)
                      (if isLabel then None
                       else if isButton then Some false else None))
          | None => None
          end).
  cbv zeta. rewrite E'. exact He.
Qed.

(** A larger bound does not change the result of [convertWidget]. *)
Lemma convertWidget_bound_irrelevant (store : list LVGLWidget)
    (fuel fuel' : nat) (w : LVGLWidget) (e : EEZWidget) :
  convertWidget fuel store w = Some e -> fuel <= fuel' ->
  convertWidget fuel' store w = Some e.
Proof.
  intros He Hle. induction Hle as [|fuel' _ IH]; [exact He|].
  apply convertWidget_step, IH.
Qed.






(** ** The exported files *)

Lemma existsb_jeqb (x : jstring) (s : list jstring) :
  existsb (jeqb x) s = true <-> In x s.
Proof.
  rewrite existsb_exists. split.
  - intros (y & Hy & E). apply jeqb_eq in E. subst. exact Hy.
  - intros H. exists x. split; [exact H | apply jeqb_refl].
Qed.

Lemma set_add_spec (x : jstring) (s : list jstring) :
  List.NoDup s ->
  List.NoDup (set_add x s) /\ forall y, In y (set_add x s) <-> y = x \/ In y s.
Proof.
  intros H. unfold set_add. destruct (existsb (jeqb x) s) eqn:E.
  - apply existsb_jeqb in E. split; [exact H|].
    intros y. split; [tauto|]. intros [->|Hy]; assumption.
  - assert (N : ~ In x s).
    { intros Hin. apply existsb_jeqb in Hin. congruence. }
    split.
    + apply List.NoDup_app; [exact H | repeat constructor; simpl; tauto|].
      intros y Hy [<-|[]]. exact (N Hy).
    + intros y. rewrite in_app_iff. simpl. intuition congruence.
Qed.

Lemma identifiersOf_eq (e : EEZWidget) :
  identifiersOf e = identifier e :: flat_map identifiersOf (e_children e).
Proof. destruct e. reflexivity. Qed.

Lemma collectIdentifiers_eq (w : EEZWidget) (s : list jstring) :
  collectIdentifiers w s
  = fold_left (fun acc child => collectIdentifiers child acc)
      (e_children w)
      (if truthy (identifier w) then set_add (identifier w) s else s).
Proof. destruct w. reflexivity. Qed.

Lemma defineIdentifiers_eq (w : EEZWidget) (l : list jstring) :
  defineIdentifiers w l
  = fold_left (fun acc child => defineIdentifiers child acc)
      (e_children w)
      (if truthy (identifier w)
       then l ++ [str "lv_obj_t * " ++ identifier w ++ str " = NULL;"]
       else l).
Proof. destruct w. reflexivity. Qed.

Lemma collect_fold_spec (ws : list EEZWidget) :
  Forall (fun w => forall s, List.NoDup s ->
            List.NoDup (collectIdentifiers w s)
            /\ forall y, In y (collectIdentifiers w s)
                 <-> (y <> [] /\ In y (identifiersOf w)) \/ In y s) ws ->
  forall s, List.NoDup s ->
    List.NoDup (fold_left (fun acc w => collectIdentifiers w acc) ws s)
    /\ forall y,
         In y (fold_left (fun acc w => collectIdentifiers w acc) ws s)
         <-> (y <> [] /\ In y (flat_map identifiersOf ws)) \/ In y s.
Proof.
  induction 1 as [|w ws Hw _ IH]; intros s Hs; simpl.
  - split; [exact Hs|]. intros y. tauto.
  - destruct (Hw s Hs) as [N1 M1].
    destruct (IH _ N1) as [N2 M2]. split; [exact N2|].
    intros y. rewrite M2, M1, in_app_iff. tauto.
Qed.

Lemma collectIdentifiers_spec (w : EEZWidget) :
  forall s, List.NoDup s ->
    List.NoDup (collectIdentifiers w s)
    /\ forall y, In y (collectIdentifiers w s)
         <-> (y <> [] /\ In y (identifiersOf w)) \/ In y s.
Proof.
  induction w as [w IH] using EEZWidget_tree_ind. intros s Hs.
  rewrite collectIdentifiers_eq, identifiersOf_eq.
  assert (B : List.NoDup (if truthy (identifier w)
                          then set_add (identifier w) s else s)
              /\ forall y,
                   In y (if truthy (identifier w)
                         then set_add (identifier w) s else s)
                   <-> (y <> [] /\ y = identifier w) \/ In y s).
  { destruct (identifier w) as [|c r] eqn:E; simpl.
    - split; [exact Hs|]. intros y. split; [tauto|].
      intros [[H1 H2]|H]; [congruence | exact H].
    - destruct (set_add_spec (c :: r) s Hs) as [N M]. split; [exact N|].
      intros y. rewrite M. split.
      + intros [->|H]; [left; split; [discriminate | reflexivity] | tauto].
      + intros [[_ ->]|H]; tauto. }
  destruct B as [NB MB].
  destruct (collect_fold_spec (e_children w) IH _ NB) as [N M].
  split; [exact N|]. intros y. rewrite M, MB. simpl.
  intuition congruence.
Qed.

(** X14: The identifiers that ui.h declares are pairwise distinct and are
    exactly the non-empty identifiers of the widgets of all pages, nested
    widgets included. *)
Theorem header_identifiers (project : list EEZPage) :
  List.NoDup (allIdentifiers project)
  /\ forall y,
       In y (allIdentifiers project)
       <-> y <> []
           /\ In y (flat_map identifiersOf (flat_map ep_widgets project)).
Proof.
  unfold allIdentifiers.
  assert (G : forall s, List.NoDup s ->
            List.NoDup
              (fold_left
                 (fun acc page =>
                    fold_left (fun acc' widget =>
                                 collectIdentifiers widget acc')
                      (ep_widgets page) acc) project s)
            /\ forall y,
                 In y (fold_left
                         (fun acc page =>
                            fold_left (fun acc' widget =>
                                         collectIdentifiers widget acc')
                              (ep_widgets page) acc) project s)
                 <-> (y <> []
                      /\ In y (flat_map identifiersOf
                                 (flat_map ep_widgets project)))
                     \/ In y s).
  { induction project as [|page project IH]; intros s Hs; simpl.
    - split; [exact Hs|]. intros y. tauto.
    - destruct (collect_fold_spec (ep_widgets page)
                  (proj2 (List.Forall_forall _ _)
                     (fun w _ => collectIdentifiers_spec w)) s Hs)
        as [N1 M1].
      destruct (IH _ N1) as [N2 M2]. split; [exact N2|].
      intros y. rewrite M2, M1, flat_map_app, in_app_iff. tauto. }
  destruct (G [] (List.NoDup_nil _)) as [N M]. split; [exact N|].
  intros y. rewrite M. simpl. tauto.
Qed.

Lemma define_fold_spec (ws : list EEZWidget) :
  Forall (fun w => forall l,
            defineIdentifiers w l
            = l ++ map (fun id => str "lv_obj_t * " ++ id ++ str " = NULL;")
                     (List.filter truthy (identifiersOf w))) ws ->
  forall l,
    fold_left (fun acc w => defineIdentifiers w acc) ws l
    = l ++ map (fun id => str "lv_obj_t * " ++ id ++ str " = NULL;")
             (List.filter truthy (flat_map identifiersOf ws)).
Proof.
  induction 1 as [|w ws Hw _ IH]; intros l; simpl.
  - rewrite app_nil_r. reflexivity.
  - rewrite Hw, IH, List.filter_app, map_app, <- app_assoc. reflexivity.
Qed.

Lemma defineIdentifiers_spec (w : EEZWidget) :
  forall l,
    defineIdentifiers w l
    = l ++ map (fun id => str "lv_obj_t * " ++ id ++ str " = NULL;")
             (List.filter truthy (identifiersOf w)).
Proof.
  induction w as [w IH] using EEZWidget_tree_ind. intros l.
  rewrite defineIdentifiers_eq, identifiersOf_eq.
  rewrite (define_fold_spec (e_children w) IH).
  cbn [List.filter]. destruct (truthy (identifier w)); simpl.
  - rewrite <- app_assoc. reflexivity.
  - reflexivity.
Qed.

(** X15: The implementation file of a page gets one definition line per
    widget with a non-empty identifier, in document order and with repeats:
    unlike the header, an identifier that two widgets share is defined
    twice. *)
Theorem definitions_per_widget (ws : list EEZWidget) (implLines : list jstring) :
  fold_left (fun acc w => defineIdentifiers w acc) ws implLines
  = implLines
    ++ map (fun id => str "lv_obj_t * " ++ id ++ str " = NULL;")
         (List.filter truthy (flat_map identifiersOf ws)).
Proof.
  apply define_fold_spec, List.Forall_forall. intros w _.
  apply defineIdentifiers_spec.
Qed.

Lemma screen_function_rnd (rand : nat -> jstring) (page : EEZPage)
    (functionName : jstring) (n : nat) :
  forallb allIdentified (ep_widgets page) = true ->
  snd (generateScreenFunction rand page functionName n) = n.
Proof.
  intros H. unfold generateScreenFunction, freshGenerator.
  rewrite (screen_loop rand n (ep_widgets page) H [] _). reflexivity.
Qed.

(** X16: When every widget has an identifier, the file list of
    exportToArduino is ui.h followed by one file per page, in page order and
    named after the page with the extension cpp; each page file is what the
    page alone produces, and Math.random is not called. *)
Theorem export_files_layout (rand : nat -> jstring) (project : list EEZPage)
    (n : nat) :
  Forall (fun page => forallb allIdentified (ep_widgets page) = true)
    project ->
  exportFiles rand project n
  = (mkFile (str "ui.h") (join_lines (headerLines project))
     :: map (fun page => fst (pageFile rand page n)) project,
     n)
  /\ map gc_fileName (fst (exportFiles rand project n))
     = str "ui.h" :: map (fun page => ep_name page ++ str ".cpp") project.
Proof.
  intros H.
  assert (G : forall acc,
             fold_left
               (fun acc page =>
                  (fst acc ++ [fst (pageFile rand page (snd acc))],
                   snd (pageFile rand page (snd acc))))
               project (acc, n)
             = (acc ++ map (fun page => fst (pageFile rand page n)) project,
                n)).
  { induction H as [|page project Hp _ IH]; intros acc.
    - simpl. rewrite app_nil_r. reflexivity.
    - cbn [fold_left map]. cbn [fst snd].
      assert (E : snd (pageFile rand page n) = n)
        by apply (screen_function_rnd rand page _ n Hp).
      rewrite E, IH, <- app_assoc. reflexivity. }
  unfold exportFiles. cbv zeta. rewrite G.
  split; [reflexivity|].
  cbn [fst app]. cbn [map gc_fileName]. f_equal.
  rewrite map_map. reflexivity.
Qed.

Lemma export_files_layout_witness :
  map gc_fileName
    (fst (exportFiles (fun _ => str "x")
            [mkEEZPage (str "main") [labelNamed (str "title")];
             mkEEZPage (str "menu") [labelNamed (str "entry")]] 0))
  = [str "ui.h"; str "main.cpp"; str "menu.cpp"].
Proof.
  refine (proj2 (export_files_layout (fun _ => str "x")
           [mkEEZPage (str "main") [labelNamed (str "title")];
            mkEEZPage (str "menu") [labelNamed (str "entry")]] 0 _)).
  repeat constructor.
Defined.

Lemma split_lines_app_gen (a b : jstring) :
  split_lines (a ++ newline :: b) = split_lines a ++ split_lines b.
Proof.
  induction a as [|c a IH].
  - reflexivity.
  - cbn [app split_lines]. rewrite IH.
    destruct (Ascii.eqb c newline); [reflexivity|].
    pose proof (split_lines_nonempty a) as N.
    destruct (split_lines a) as [|l ls]; [congruence | reflexivity].
Qed.

Lemma split_lines_join (ls : list jstring) :
  ls <> [] -> split_lines (join_lines ls) = flat_map split_lines ls.
Proof.
  induction ls as [|l ls IH]; intros H; [congruence|].
  destruct ls as [|l2 ls].
  - simpl. rewrite app_nil_r. reflexivity.
  - change (join_lines (l :: l2 :: ls))
      with (l ++ newline :: join_lines (l2 :: ls)).
    rewrite split_lines_app_gen, IH by discriminate. reflexivity.
Qed.

Lemma flat_map_split_id (ls : list jstring) :
  Forall (no_char newline) ls -> flat_map split_lines ls = ls.
Proof.
  induction 1 as [|l ls Hl _ IH]; simpl; [reflexivity|].
  rewrite (split_lines_single l Hl), IH. reflexivity.
Qed.

Lemma split_lines_indentCode (c : jstring) :
  split_lines (indentCode c)
  = map (fun line => str "    " ++ line) (split_lines c).
Proof.
  unfold indentCode. rewrite split_lines_join.
  - apply flat_map_split_id. apply Forall_map.
    eapply Forall_impl; [apply split_lines_no_newline|].
    intros l Hl. simpl. repeat (constructor; [discriminate|]). exact Hl.
  - pose proof (split_lines_nonempty c).
    destruct (split_lines c); [congruence | discriminate].
Qed.

Lemma exportable_identifiers (e : EEZWidget) :
  exportable e = true -> Forall all_word (identifiersOf e).
Proof.
  induction e as [e IH] using EEZWidget_tree_ind. intros He.
  rewrite exportable_eq in He. rewrite !andb_true_iff in He.
  destruct He as (((((((((He & _) & _) & _) & _) & _) & _) & _) & _) & Hk).
  rewrite identifiersOf_eq. constructor; [apply wordb_sound, He|].
  revert IH Hk. generalize (e_children e) as kids.
  induction kids as [|c kids IHk]; intros IH Hk; simpl; [constructor|].
  simpl in Hk. apply andb_true_iff in Hk. destruct Hk as [Hc Hk].
  inversion IH; subst. apply Forall_app. split; auto.
Qed.

Lemma exportable_roots (roots : list EEZWidget) :
  forallb exportable roots = true ->
  forallb allIdentified roots = true
  /\ flat_map creationFact
       (flat_map (fun w => statements w (str "parent")) roots)
     = flat_map (fun w => treeFacts w (str "parent")) roots
  /\ Forall (no_char newline)
       (flat_map (fun w => statements w (str "parent")) roots)
  /\ (roots <> [] ->
      flat_map (fun w => statements w (str "parent")) roots <> [])
  /\ Forall (fun l => no_char "=" l \/ no_char "*" l)
       (flat_map (fun w => statements w (str "parent")) roots)
  /\ Forall all_word (flat_map identifiersOf roots).
Proof.
  induction roots as [|w roots IH]; intros H.
  - simpl. repeat split; try constructor. congruence.
  - simpl in H. apply andb_true_iff in H. destruct H as [Hw Hr].
    destruct (IH Hr) as (I1 & I2 & I3 & _ & I5 & I6).
    destruct (exportable_statements w Hw (str "parent"))
      as (F & N & Hne & G); [apply wordb_sound; reflexivity|].
    cbn [forallb flat_map].
    rewrite (exportable_identified w Hw), I1.
    repeat split.
    + rewrite flat_map_app, F, I2. reflexivity.
    + apply Forall_app. split; assumption.
    + intros _ E. apply app_eq_nil in E. destruct E as [E _]. exact (Hne E).
    + apply Forall_app. split; assumption.
    + apply Forall_app. split; [apply exportable_identifiers, Hw | exact I6].
Qed.

Lemma take_forallb {B} (p : B -> bool) (l : list B) (k : nat) :
  forallb p l = true -> forallb p (take k l) = true.
Proof.
  revert k. induction l as [|x l IH]; intros [|k] H; simpl; try reflexivity.
  simpl in H. apply andb_true_iff in H. destruct H as [Hx Hl].
  rewrite Hx, (IH k Hl). reflexivity.
Qed.

Lemma filter_truthy_words (ids : list jstring) :
  Forall all_word ids -> List.filter truthy ids = ids.
Proof.
  induction 1 as [|x ids [Hx _] _ IH]; simpl; [reflexivity|].
  rewrite IH. destruct x; [congruence | reflexivity].
Qed.

Lemma plain_no_newline (s : jstring) : plain s -> no_char newline s.
Proof.
  intros H. eapply Forall_impl; [exact H|]. intros c [_ Hc]. exact Hc.
Qed.

Lemma pageFile_lines (rand : nat -> jstring) (page : EEZPage) (n : nat) :
  exportablePage page = true ->
  split_lines (gc_code (fst (pageFile rand page n))) = pageLines page.
Proof.
  intros H. unfold exportablePage in H. apply andb_true_iff in H.
  destruct H as [Hname Hroots]. apply plainb_sound in Hname.
  destruct (exportable_roots _ Hroots) as (Hid & _ & _ & _ & _ & Hids).
  unfold pageFile, generateScreenFunction, freshGenerator.
  cbn [fst snd gc_code].
  rewrite (screen_loop rand n (ep_widgets page) Hid [] _).
  cbn [fst snd app].
  rewrite (define_fold_spec (ep_widgets page))
    by (apply List.Forall_forall; intros w _; apply defineIdentifiers_spec).
  rewrite (filter_truthy_words _ Hids).
  rewrite split_lines_join
    by (intros E; apply app_eq_nil in E; destruct E; discriminate).
  rewrite flat_map_app. cbn [flat_map]. rewrite app_nil_r.
  rewrite flat_map_split_id.
  2:{ apply Forall_app. split; [apply Forall_app; split|].
      - repeat constructor; discriminate.
      - apply Forall_map. eapply Forall_impl; [exact Hids|].
        intros id Hw. cbv beta. unfold no_char. rewrite !Forall_app.
        split; [repeat constructor; discriminate|].
        split; [apply (all_word_no newline); [reflexivity | exact Hw]|].
        repeat constructor; discriminate.
      - repeat constructor. }
  rewrite split_lines_join by discriminate.
  unfold pageLines. rewrite <- !app_assoc. f_equal. f_equal. f_equal.
  f_equal.
  change (flat_map split_lines (?a :: ?b :: ?c :: ?d :: ?rest))
    with (split_lines a ++ split_lines b ++ split_lines c ++ split_lines d
          ++ flat_map split_lines rest).
  rewrite flat_map_app.
  assert (Hfn : no_char newline
                  (str "void " ++ ep_name page ++ str "_create"
                   ++ str "(lv_obj_t * parent) {")).
  { unfold no_char. rewrite !Forall_app.
    split; [repeat constructor; discriminate|].
    split; [apply plain_no_newline, Hname|].
    split; repeat constructor; discriminate. }
  rewrite (split_lines_single _ Hfn).
  cbn [app]. f_equal. f_equal. f_equal. f_equal. f_equal.
  rewrite flat_map_concat_map, map_map, <- flat_map_concat_map.
  apply flat_map_ext_In. intros i Hi. apply in_seq in Hi.
  rewrite split_lines_indentCode. f_equal. unfold cumulative.
  assert (Ht : forallb exportable (take (S i) (ep_widgets page)) = true)
    by (apply take_forallb, Hroots).
  destruct (exportable_roots _ Ht) as (_ & _ & Hn & Hne & _).
  apply split_join; [|exact Hn]. apply Hne.
  destruct (ep_widgets page); simpl in *; [lia | discriminate].
Qed.

Lemma items_den_lit (r : regex) (l : jstring) :
  In (A (Lit l)) r ->
  forall s caps res, items_den r s caps res -> exists a b, s = a ++ l ++ b.
Proof.
  induction r as [|it r IH]; intros Hin s caps res H; [destruct Hin|].
  destruct Hin as [->|Hin].
  - simpl in H. destruct H as (w & s' & -> & -> & _). exists [], s'.
    reflexivity.
  - destruct it as [a|g]; simpl in H.
    + destruct H as (w & s' & -> & _ & H).
      destruct (IH Hin _ _ _ H) as (a0 & b & ->).
      exists (w ++ a0), b. rewrite <- app_assoc. reflexivity.
    + destruct H as (w & s' & -> & _ & H).
      destruct (IH Hin _ _ _ H) as (a0 & b & ->).
      exists (w ++ a0), b. rewrite <- app_assoc. reflexivity.
Qed.

Lemma re_needs_lit (r : regex) (l s : jstring) (res : list jstring) :
  In (A (Lit l)) r -> re_match r s = Some res ->
  exists a b, s = a ++ l ++ b.
Proof.
  intros Hin H. apply re_match_sound in H. destruct H as (pre & s0 & -> & H).
  destruct (items_den_lit r l Hin _ _ _ H) as (a & b & ->).
  exists (pre ++ a), b. rewrite <- app_assoc. reflexivity.
Qed.

Lemma re_needs_char (r : regex) (l : jstring) (c : ascii) (s : jstring) :
  In (A (Lit l)) r -> In c l -> no_char c s -> re_match r s = None.
Proof.
  intros Hin Hc Hs. destruct (re_match r s) as [res|] eqn:E; [|reflexivity].
  exfalso. destruct (re_needs_lit r l s res Hin E) as (a & b & ->).
  unfold no_char in Hs. rewrite !Forall_app in Hs.
  destruct Hs as (_ & Hl & _). rewrite List.Forall_forall in Hl.
  exact (Hl c Hc eq_refl).
Qed.

Lemma creationFact_needs_paren (line : jstring) :
  no_char "(" line -> creationFact line = [].
Proof.
  intros H. unfold creationFact.
  rewrite (re_needs_char createRe (str "_create(") "(" (trim line)).
  - reflexivity.
  - unfold createRe, L. simpl. tauto.
  - simpl. tauto.
  - apply Forall_trim, H.
Qed.

Lemma trim_indent (l : jstring) : trim (str "    " ++ l) = trim l.
Proof.
  unfold trim.
  rewrite (dropWhile_all is_space (str "    ") l) by (repeat constructor).
  reflexivity.
Qed.

Lemma creationFact_indent (l : jstring) :
  creationFact (str "    " ++ l) = creationFact l.
Proof. unfold creationFact. rewrite trim_indent. reflexivity. Qed.

Lemma flat_map_flat_map {B C D} (g : C -> list D) (h : B -> list C)
    (l : list B) :
  flat_map g (flat_map h l) = flat_map (fun x => flat_map g (h x)) l.
Proof.
  induction l as [|x l IH]; simpl; [reflexivity|].
  rewrite flat_map_app, IH. reflexivity.
Qed.

Lemma pageLines_facts (page : EEZPage) :
  exportablePage page = true ->
  flat_map creationFact (pageLines page)
  = flat_map (fun i => flat_map (fun w => treeFacts w (str "parent"))
                         (take (S i) (ep_widgets page)))
      (seq 0 (length (ep_widgets page))).
Proof.
  intros H. unfold exportablePage in H. apply andb_true_iff in H.
  destruct H as [Hname Hroots]. apply plainb_sound in Hname.
  destruct (exportable_roots _ Hroots) as (_ & _ & _ & _ & _ & Hids).
  unfold pageLines. rewrite !flat_map_app.
  rewrite (flat_map_nil creationFact [_; _]).
  2:{ repeat constructor; apply creationFact_plain, plainb_sound;
        reflexivity. }
  rewrite (flat_map_nil creationFact (map _ _)).
  2:{ apply Forall_map. eapply Forall_impl; [exact Hids|].
      intros id Hw. cbv beta. apply creationFact_needs_paren.
      unfold no_char. rewrite !Forall_app.
      split; [repeat constructor; discriminate|].
      split; [apply (all_word_no "("); [reflexivity | exact Hw]|].
      repeat constructor; discriminate. }
  rewrite (flat_map_nil creationFact [[]])
    by (repeat constructor).
  rewrite (flat_map_nil creationFact [_; _; _; _]).
  2:{ constructor; [|repeat constructor;
                      apply creationFact_plain, plainb_sound; reflexivity].
      apply creationFact_plain.
      repeat apply plain_app; try exact Hname;
        apply plainb_sound; reflexivity. }
  rewrite (flat_map_nil creationFact [_; _])
    by (repeat constructor; apply creationFact_plain, plainb_sound;
        reflexivity).
  cbn [app]. rewrite app_nil_r.
  rewrite flat_map_flat_map. apply flat_map_ext_In. intros i Hi.
  rewrite flat_map_concat_map, map_map, <- flat_map_concat_map.
  rewrite (flat_map_ext_In _ creationFact)
    by (intros l _; apply creationFact_indent).
  assert (Ht : forallb exportable (take (S i) (ep_widgets page)) = true)
    by (apply take_forallb, Hroots).
  destruct (exportable_roots _ Ht) as (_ & F & _).
  exact F.
Qed.

(** X17: Parsing the implementation file of an exportable page yields, for
    each root widget in turn, the records of all root trees up to and
    including that one: the records of the first root tree occur once per
    root widget of the page. *)
Theorem page_file_reimport (rand : nat -> jstring) (f : jstring)
    (page : EEZPage) (n : nat) :
  exportablePage page = true ->
  map widgetFact
    (widgets (parse f (gc_code (fst (pageFile rand page n)))))
  = flat_map (fun i => flat_map (fun w => treeFacts w (str "parent"))
                         (take (S i) (ep_widgets page)))
      (seq 0 (length (ep_widgets page))).
Proof.
  intros H. rewrite parse_facts, (pageFile_lines rand page n H).
  apply pageLines_facts, H.
Qed.

Lemma page_file_reimport_witness :
  map widgetFact
    (widgets (parse (str "main.cpp")
       (gc_code (fst (pageFile (fun _ => str "x")
                        (mkEEZPage (str "main")
                           [labelNamed (str "a"); labelNamed (str "b")])
                        0)))))
  = [(str "a", str "lv_label", None);
     (str "a", str "lv_label", None);
     (str "b", str "lv_label", None)].
Proof.
  apply (page_file_reimport (fun _ => str "x") (str "main.cpp")
           (mkEEZPage (str "main")
              [labelNamed (str "a"); labelNamed (str "b")]) 0).
  reflexivity.
Defined.

Lemma trim_edges (c d : ascii) (m : jstring) :
  is_space c = false -> is_space d = false ->
  trim (c :: m ++ [d]) = c :: m ++ [d].
Proof.
  intros Hc Hd. change (c :: m ++ [d]) with ((c :: m) ++ [d]).
  rewrite trim_ends by exact Hd. simpl. rewrite Hc. reflexivity.
Qed.

Lemma globalVarRe_definition (id : jstring) :
  all_word id ->
  re_match globalVarRe (trim (str "lv_obj_t * " ++ id ++ str " = NULL;"))
  = Some [id].
Proof.
  intros Hid.
  assert (T : trim (str "lv_obj_t * " ++ id ++ str " = NULL;")
              = str "lv_obj_t * " ++ id ++ str " = NULL;").
  { change (str "lv_obj_t * " ++ id ++ str " = NULL;")
      with ("l"%char :: str "v_obj_t * " ++ id ++ str " = NULL" ++ [";"%char]).
    rewrite !app_assoc. apply trim_edges; reflexivity. }
  rewrite T. apply re_match_here. unfold globalVarRe.
  change (match_items (A (L "lv_obj_t") :: A S0 :: ?r)
            (str "lv_obj_t * " ++ ?s) [])
    with (star is_space ([" "%char] ++ "*"%char :: " "%char :: s)
            (fun s' => match_items r s' [])).
  apply star_app_some; [repeat constructor|].
  rewrite star_stop by reflexivity.
  change (match_items (A (L "*") :: A S0 :: ?r) ("*"%char :: ?s) [])
    with (star is_space s (fun s' => match_items r s' [])).
  apply (star_app_some is_space [" "%char]); [repeat constructor|].
  destruct Hid as [Hne Hw]. destruct id as [|c id]; [congruence|].
  inversion Hw as [|? ? Hc Hw']; subst.
  cbn [app]. rewrite star_stop by (apply word_not_space, Hc).
  rewrite match_items_group1.
  apply (plus_app_some is_word (c :: id)); [split; [discriminate | exact Hw]|].
  simpl.
  change (consumed (c :: id ++ ?r) ?r) with (consumed ((c :: id) ++ r) r).
  rewrite consumed_app. reflexivity.
Qed.

Lemma globalVarRe_skip (l : jstring) :
  no_char "=" l \/ no_char "*" l -> re_match globalVarRe (trim l) = None.
Proof.
  intros [H|H].
  - apply (re_needs_char globalVarRe (str "=") "=").
    + unfold globalVarRe, L. simpl. tauto.
    + simpl. tauto.
    + apply Forall_trim, H.
  - apply (re_needs_char globalVarRe (str "*") "*").
    + unfold globalVarRe, L. simpl. tauto.
    + simpl. tauto.
    + apply Forall_trim, H.
Qed.

Lemma globals_skip (ls : list jstring) (gv : jsmap jstring) :
  Forall (fun l => no_char "=" l \/ no_char "*" l) ls ->
  fold_left globalStep ls gv = gv.
Proof.
  intros H. revert gv. induction H as [|l ls Hl _ IH]; intros gv;
    [reflexivity|].
  simpl. unfold globalStep at 2. rewrite (globalVarRe_skip l Hl). apply IH.
Qed.

Lemma globals_definitions (ids : list jstring) (gv : jsmap jstring) :
  Forall all_word ids ->
  fold_left globalStep
    (map (fun id => str "lv_obj_t * " ++ id ++ str " = NULL;") ids) gv
  = fold_left (fun gv id => map_set id (str "lv_obj_t") gv) ids gv.
Proof.
  intros H. revert gv. induction H as [|id ids Hid _ IH]; intros gv;
    [reflexivity|].
  cbn [map fold_left]. unfold globalStep at 2.
  rewrite (globalVarRe_definition id Hid). apply IH.
Qed.

Lemma indent_keeps (c : ascii) (l : jstring) :
  no_char c l -> c <> " "%char -> no_char c (str "    " ++ l).
Proof.
  intros H Hc. repeat (constructor; [congruence|]). exact H.
Qed.

Lemma plain_skip (l : jstring) :
  plain l -> no_char "=" l \/ no_char "*" l.
Proof.
  intros H. left. eapply Forall_impl; [exact H|]. intros c [Hc _]. exact Hc.
Qed.

Ltac skip_plain_lines :=
  repeat (apply @List.Forall_cons;
          [apply plain_skip, plainb_sound; reflexivity|]);
  apply @List.Forall_nil.

(** X18: extractGlobalVariables finds in the implementation file of an
    exportable page exactly the identifiers of the page's widgets, in
    document order, each with the type lv_obj_t; no other line of the file
    is taken for a declaration. *)
Theorem page_file_globals (rand : nat -> jstring) (f : jstring)
    (page : EEZPage) (n : nat) :
  exportablePage page = true ->
  globalVariables (parse f (gc_code (fst (pageFile rand page n))))
  = fold_left (fun gv id => map_set id (str "lv_obj_t") gv)
      (flat_map identifiersOf (ep_widgets page)) [].
Proof.
  intros H. unfold parse. cbn [globalVariables].
  rewrite (pageFile_lines rand page n H).
  unfold exportablePage in H. apply andb_true_iff in H.
  destruct H as [Hname Hroots]. apply plainb_sound in Hname.
  destruct (exportable_roots _ Hroots) as (_ & _ & _ & _ & _ & Hids).
  change (extractGlobalVariables (pageLines page))
    with (fold_left globalStep (pageLines page) []).
  unfold pageLines. rewrite !fold_left_app.
  rewrite (globals_skip [str "#include " ++ quoted "ui.h"; []])
    by skip_plain_lines.
  rewrite (globals_definitions _ _ Hids).
  rewrite (globals_skip [[]]) by skip_plain_lines.
  rewrite (globals_skip [_; _; _; _]).
  2:{ apply @List.Forall_cons; [|skip_plain_lines].
      apply plain_skip.
      repeat apply plain_app; try exact Hname;
        apply plainb_sound; reflexivity. }
  rewrite (globals_skip (flat_map _ _)).
  2:{ apply Forall_flat_map, List.Forall_forall. intros i _.
      assert (Ht : forallb exportable (take (S i) (ep_widgets page)) = true)
        by (apply take_forallb, Hroots).
      destruct (exportable_roots _ Ht) as (_ & _ & _ & _ & G & _).
      apply Forall_map. eapply Forall_impl; [exact G|].
      intros l [Hl|Hl]; [left | right];
        (apply indent_keeps; [exact Hl | discriminate]). }
  apply globals_skip. skip_plain_lines.
Qed.

Lemma page_file_globals_witness :
  globalVariables
    (parse (str "main.cpp")
       (gc_code (fst (pageFile (fun _ => str "x")
                        (mkEEZPage (str "main")
                           [labelNamed (str "a"); labelNamed (str "b");
                            labelNamed (str "a")])
                        0))))
  = [(str "a", str "lv_obj_t"); (str "b", str "lv_obj_t")].
Proof.
  apply (page_file_globals (fun _ => str "x") (str "main.cpp")
           (mkEEZPage (str "main")
              [labelNamed (str "a"); labelNamed (str "b");
               labelNamed (str "a")]) 0).
  reflexivity.
Defined.

(** ** Generated setter statements, read by the parser *)

Lemma argb_sound (s : jstring) : argb s = true -> arg s.
Proof.
  unfold argb, arg. intros H. apply andb_true_iff in H. destruct H as [Ht H].
  split; [destruct s; [discriminate | discriminate]|].
  apply List.Forall_forall. rewrite forallb_forall in H. intros c Hc.
  specialize (H c Hc). rewrite !andb_true_iff, !negb_true_iff in H.
  destruct H as (((H1 & H2) & H3) & H4).
  destruct (is_space c); [discriminate|].
  repeat split; intros E; subst c; discriminate.
Qed.

Lemma word_arg (s : jstring) : all_word s -> arg s.
Proof.
  intros [Hne H]. split; [exact Hne|].
  eapply Forall_impl; [exact H|]. intros c Hc.
  split; [apply word_not_space, Hc|].
  repeat split; intros E; subst c; discriminate.
Qed.

Lemma int_arg (n : Z) : arg (string_of_Z n).
Proof.
  split.
  - destruct n as [|p|p].
    + discriminate.
    + rewrite string_of_Z_pos. apply uint_string_nonempty.
    + rewrite string_of_Z_neg. discriminate.
  - eapply Forall_impl; [apply string_of_Z_chars|].
    intros c [Hc|Hc].
    + split; [apply digit_not_space, Hc|].
      repeat split; intros E; subst c; discriminate.
    + subst c. repeat split; discriminate.
Qed.

Lemma arg_no (x : ascii) (s : jstring) :
  (is_space x = true \/ x = ","%char \/ x = "("%char \/ x = ")"%char) ->
  arg s -> no_char x s.
Proof.
  intros Hx [_ H]. eapply Forall_impl; [exact H|].
  intros c (H1 & H2 & H3 & H4) E. subst c.
  destruct Hx as [Hx|[Hx|[Hx|Hx]]]; congruence.
Qed.

Lemma arg_first (s rest : jstring) :
  arg s -> exists c r, s = c :: r /\ is_space c = false.
Proof.
  intros [Hne H]. destruct s as [|c r]; [congruence|].
  inversion H as [|? ? (Hc & _) _]; subst. eauto.
Qed.

Lemma arg_trim (s : jstring) : arg s -> trim s = s.
Proof.
  intros [_ H]. apply trim_nospace. eapply Forall_impl; [exact H|].
  intros c (Hc & _). exact Hc.
Qed.

Lemma differ_app (p q x y : jstring) :
  differ p q = true -> p ++ x <> q ++ y.
Proof.
  revert q. induction p as [|c p IH]; intros [|d q] H; try discriminate.
  simpl in H. intros E. injection E as -> E.
  rewrite Ascii.eqb_refl in H. simpl in H. exact (IH q H E).
Qed.

(** A line with a single opening parenthesis is matched only by a
    pattern whose literal before the parenthesis ends the text before
    it. *)
Lemma call_no_match (r : regex) (l0 X tail args : jstring) :
  In (A (Lit (l0 ++ ["("%char]))) r ->
  differ (rev l0) (rev tail) = true ->
  no_char "(" X -> no_char "(" tail -> no_char "(" args ->
  re_match r (X ++ tail ++ "("%char :: args) = None.
Proof.
  intros Hin Hd HX Ht Ha.
  destruct (re_match r (X ++ tail ++ "("%char :: args)) as [res|] eqn:E;
    [exfalso|reflexivity].
  destruct (re_needs_lit r _ _ res Hin E) as (a & b & Eq).
  assert (Eq' : (a ++ l0) ++ "("%char :: b = (X ++ tail) ++ "("%char :: args).
  { rewrite <- !app_assoc in *. simpl in Eq. rewrite <- Eq. reflexivity. }
  apply unique_split in Eq'; [|apply Forall_app; split; assumption | exact Ha].
  destruct Eq' as [Eq' _]. apply (f_equal (@rev ascii)) in Eq'.
  rewrite !rev_app_distr in Eq'.
  exact (differ_app _ _ _ _ Hd Eq').
Qed.

(** The blocks of [processLine] on a trimmed line. *)
Lemma trim_statement (sp : jstring) (c d : ascii) (m : jstring) :
  Forall (fun x => is_space x = true) sp ->
  is_space c = false -> is_space d = false ->
  trim (sp ++ c :: m ++ [d]) = c :: m ++ [d].
Proof.
  intros Hsp Hc Hd. unfold trim. rewrite dropWhile_all by exact Hsp.
  fold (trim (c :: m ++ [d])). apply trim_edges; assumption.
Qed.

Section Blocks.

Variables (line : jstring) (i : nat) (st : pstate).

Lemma createWidget_none :
  re_match createRe line = None -> createWidget line i st = st.
Proof. intros H. unfold createWidget. rewrite H. reflexivity. Qed.

Lemma textSetter_none :
  re_match textRe line = None -> textSetter line i st = st.
Proof. intros H. unfold textSetter. rewrite H. reflexivity. Qed.

Lemma sizeSetter_none :
  re_match sizeRe line = None -> sizeSetter line i st = st.
Proof. intros H. unfold sizeSetter. rewrite H. reflexivity. Qed.

Lemma valueSetter_none :
  re_match valueRe line = None -> valueSetter line i st = st.
Proof. intros H. unfold valueSetter. rewrite H. reflexivity. Qed.

Lemma rangeSetter_none :
  re_match rangeRe line = None -> rangeSetter line i st = st.
Proof. intros H. unfold rangeSetter. rewrite H. reflexivity. Qed.

Lemma style_setter_none (re : regex) (key : string)
    (conv : jstring -> jstring) :
  re_match re line = None -> style_setter re key conv line i st = st.
Proof. intros H. unfold style_setter. rewrite H. reflexivity. Qed.

Lemma alignSetter_none :
  re_match alignRe line = None -> alignSetter line i st = st.
Proof. intros H. unfold alignSetter. rewrite H. reflexivity. Qed.

Lemma centerSetter_none :
  re_match centerRe line = None -> centerSetter line i st = st.
Proof. intros H. unfold centerSetter. rewrite H. reflexivity. Qed.

End Blocks.

Lemma callPatterns_lit (r : regex) (l0 : string) :
  In (r, l0) callPatterns -> In (A (Lit (str l0 ++ ["("%char]))) r.
Proof.
  unfold callPatterns. simpl.
  intros H.
  repeat (destruct H as [[= <- <-]|H]; [simpl; tauto|]).
  destruct H.
Qed.

(** Every pattern whose literal differs from the end of the callee does
    not match a call. *)
Lemma call_patterns_none (X tail args : jstring) :
  no_char "(" X -> no_char "(" tail -> no_char "(" args ->
  forall r l0,
    In (r, l0) callPatterns ->
    differ (rev (str l0)) (rev tail) = true ->
    re_match r (X ++ tail ++ "("%char :: args) = None.
Proof.
  intros HX Ht Ha r l0 Hin Hd.
  apply (call_no_match r (str l0)); auto. apply callPatterns_lit, Hin.
Qed.

Lemma items_lit (l : jstring) (r : regex) (s : jstring) (caps : list jstring) :
  match_items (A (Lit l) :: r) (l ++ s) caps = match_items r s caps.
Proof. cbn [match_items match_atom]. rewrite strip_prefix_app. reflexivity. Qed.

Lemma items_plus (p : ascii -> bool) (r : regex) (w : jstring) (c : ascii)
    (s : jstring) (caps res : list jstring) :
  w <> [] -> Forall (fun x => p x = true) w -> p c = false ->
  match_items r (c :: s) (caps ++ [w]) = Some res ->
  match_items (Group [Plus p] :: r) (w ++ c :: s) caps = Some res.
Proof.
  intros Hne Hw Hc H. rewrite match_items_group1.
  apply plus_app_some; [split; assumption|].
  rewrite star_stop by exact Hc. rewrite consumed_app. exact H.
Qed.

Lemma items_word (r : regex) (v : jstring) (c : ascii) (s : jstring)
    (caps res : list jstring) :
  all_word v -> is_word c = false ->
  match_items r (c :: s) (caps ++ [v]) = Some res ->
  match_items (Group [W] :: r) (v ++ c :: s) caps = Some res.
Proof. intros [Hne Hw]. apply items_plus; assumption. Qed.

Lemma items_space1 (r : regex) (c : ascii) (s : jstring)
    (caps res : list jstring) :
  is_space c = false ->
  match_items r (c :: s) caps = Some res ->
  match_items (A S0 :: r) (" "%char :: c :: s) caps = Some res.
Proof.
  intros Hc H. cbn [match_items match_atom S0].
  apply (star_app_some is_space [" "%char]); [repeat constructor|].
  rewrite star_stop by exact Hc. exact H.
Qed.

Lemma items_space0 (r : regex) (c : ascii) (s : jstring)
    (caps : list jstring) :
  is_space c = false ->
  match_items (A S0 :: r) (c :: s) caps = match_items r (c :: s) caps.
Proof.
  intros Hc. cbn [match_items match_atom S0]. apply star_stop, Hc.
Qed.

Lemma items_comma_arg (x : ascii) (r : regex) (a : jstring) (s : jstring)
    (caps res : list jstring) :
  arg a -> no_char x a ->
  match_items r (x :: s) (caps ++ [a]) = Some res ->
  match_items (A (L ",") :: A S0 :: Group [Plus (is_not x)] :: r)
    (str ", " ++ a ++ x :: s) caps = Some res.
Proof.
  intros Ha Hx H.
  change (str ", " ++ a ++ x :: s) with ([","%char] ++ " "%char :: a ++ x :: s).
  unfold L. change (str ",") with [","%char]. rewrite items_lit.
  destruct Ha as [Hne Hf]. destruct a as [|c a]; [congruence|].
  inversion Hf as [|? ? (Hc & _) _]; subst.
  apply items_space1; [exact Hc|].
  apply (items_plus (is_not x) r (c :: a)); [discriminate| | |exact H].
  - eapply Forall_impl; [exact Hx|]. intros y Hy. apply is_not_neq, Hy.
  - unfold is_not. rewrite Ascii.eqb_refl. reflexivity.
Qed.

Lemma sizeRe_call (v a1 a2 : jstring) :
  all_word v -> arg a1 -> arg a2 ->
  re_match sizeRe
    (str "lv_obj_set_size(" ++ v ++ str ", " ++ a1 ++ str ", " ++ a2
     ++ str ");")
  = Some [v; a1; a2].
Proof.
  intros Hv H1 H2. apply re_match_here. unfold sizeRe, L.
  rewrite items_lit.
  apply items_word; [exact Hv | reflexivity|].
  apply (items_comma_arg ","); [exact H1 | apply arg_no; auto|].
  apply (items_comma_arg ")"); [exact H2 | apply arg_no; auto|].
  reflexivity.
Qed.

Lemma ends_dark_app (a b : jstring) : ends_dark b -> ends_dark (a ++ b).
Proof.
  intros (s0 & d & -> & Hd). exists (a ++ s0), d.
  rewrite <- app_assoc. auto.
Qed.

Lemma ends_dark_call : ends_dark (str ");").
Proof. exists [")"%char], ";"%char. split; reflexivity. Qed.

Lemma trim_line (sp s : jstring) (c : ascii) (r : jstring) :
  Forall (fun x => is_space x = true) sp ->
  s = c :: r -> is_space c = false -> ends_dark s ->
  trim (sp ++ s) = s.
Proof.
  intros Hsp -> Hc (s0 & d & E & Hd).
  destruct s0 as [|c0 m]; simpl in E.
  - injection E as -> ->. unfold trim. rewrite dropWhile_all by exact Hsp.
    simpl. rewrite Hd. simpl. rewrite Hd. reflexivity.
  - injection E as <- ->. apply trim_statement; assumption.
Qed.

Lemma ends_dark_style : ends_dark (str ", 0);").
Proof. exists (str ", 0)"), ";"%char. split; reflexivity. Qed.

Ltac dark :=
  repeat apply ends_dark_app;
  first [ apply ends_dark_call | apply ends_dark_style ].

Ltac no_paren :=
  unfold no_char; rewrite ?Forall_app;
  repeat match goal with
         | |- _ /\ _ => split
         | |- Forall _ (str _) => repeat constructor; discriminate
         | |- Forall _ [_] => repeat constructor; discriminate
         | H : all_word ?v |- Forall _ ?v =>
             apply (all_word_no "("); [reflexivity | exact H]
         | H : arg ?a |- Forall _ ?a => apply (arg_no "("); [auto | exact H]
         | H : no_char "(" ?t |- Forall _ ?t => exact H
         | H : Forall _ ?t |- Forall _ ?t => exact H
         | |- Forall _ (string_of_Z ?n) =>
             apply (arg_no "("); [auto | apply int_arg]
         end.

Lemma pixel_size (n : Z) : parseSize (string_of_Z n) = SNum n.
Proof.
  unfold parseSize.
  change (str "LV_PCT") with ("L"%char :: str "V_PCT").
  rewrite includes_needs_first.
  - rewrite parseInt_string_of_Z. reflexivity.
  - eapply Forall_impl; [apply string_of_Z_chars|].
    intros c [Hc|Hc]; [intros ->|subst c]; discriminate.
Qed.

Ltac excluded N lit :=
  apply (N _ lit); [simpl; tauto | reflexivity].

(** Removes the blocks of [processLine] whose pattern the callee
    excludes. *)
Ltac skip_blocks N :=
  unfold parsePropertySetters, parseStyleSetters, parseLayoutFunctions;
  try rewrite createWidget_none by excluded N "_create"%string;
  try rewrite textSetter_none by excluded N "_set_text"%string;
  try rewrite sizeSetter_none by excluded N "lv_obj_set_size"%string;
  try rewrite valueSetter_none by excluded N "_set_value"%string;
  try rewrite rangeSetter_none by excluded N "_set_range"%string;
  try rewrite (style_setter_none _ _ _ bgColorRe)
    by excluded N "lv_obj_set_style_bg_color"%string;
  try rewrite (style_setter_none _ _ _ textColorRe)
    by excluded N "lv_obj_set_style_text_color"%string;
  try rewrite (style_setter_none _ _ _ fontRe)
    by excluded N "lv_obj_set_style_text_font"%string;
  try rewrite (style_setter_none _ _ _ radiusRe)
    by excluded N "lv_obj_set_style_radius"%string;
  try rewrite (style_setter_none _ _ _ borderOpaRe)
    by excluded N "lv_obj_set_style_border_opa"%string;
  try rewrite alignSetter_none by excluded N "lv_obj_align"%string;
  try rewrite centerSetter_none by excluded N "lv_obj_center"%string.

Lemma convertSize_pixels (n : Z) (u : jstring) :
  u <> str "%" -> convertSize (SNum n) u = string_of_Z n.
Proof.
  intros Hu. unfold convertSize.
  destruct (jeqb u (str "%")) eqn:E; [|reflexivity].
  apply jeqb_eq in E. congruence.
Qed.

(** X19: The parser reads a generated lv_obj_set_size statement with two
    pixel sizes (integers below 2^53 in absolute value, units other than the
    percent sign) back as the same two numbers in the size of the widget
    named, and sets that widget's end line; an unknown name leaves the state
    unchanged. No other pattern of the parser reacts to the line. *)
Theorem size_statement_read (sp v : jstring) (n1 n2 : Z) (u1 u2 : jstring)
    (i : nat) (st : pstate) :
  Forall (fun c => is_space c = true) sp -> all_word v ->
  (Z.abs n1 < 2 ^ 53)%Z -> (Z.abs n2 < 2 ^ 53)%Z ->
  u1 <> str "%" -> u2 <> str "%" ->
  processLine
    (sp ++ str "lv_obj_set_size(" ++ v ++ str ", "
     ++ convertSize (SNum n1) u1 ++ str ", "
     ++ convertSize (SNum n2) u2 ++ str ");") i st
  = with_widget v
      (fun w => set_lineEnd i (set_size (SNum n1) (SNum n2) w)) st.
Proof.
  intros Hsp Hv _ _ Hu1 Hu2.
  rewrite (convertSize_pixels n1 u1 Hu1), (convertSize_pixels n2 u2 Hu2).
  set (args := v ++ str ", " ++ string_of_Z n1 ++ str ", "
               ++ string_of_Z n2 ++ str ");").
  assert (HX : no_char "(" []) by constructor.
  assert (Ht : no_char "(" (str "lv_obj_set_size")) by no_paren.
  assert (Ha : no_char "(" args) by (unfold args; no_paren).
  pose proof (call_patterns_none [] _ args HX Ht Ha) as N.
  unfold processLine.
  rewrite (trim_line sp _ "l" (str "v_obj_set_size(" ++ args))
    by first [ exact Hsp | reflexivity | dark ].
  fold args. skip_blocks N.
  unfold sizeSetter, args.
  rewrite sizeRe_call by (exact Hv || apply int_arg).
  rewrite !arg_trim by apply int_arg.
  rewrite (pixel_size n1), (pixel_size n2). reflexivity.
Qed.

Lemma size_statement_read_witness :
  processLine
    (str "    " ++ str "lv_obj_set_size(" ++ str "panel" ++ str ", "
     ++ convertSize (SNum 200) (str "px") ++ str ", "
     ++ convertSize (SNum 100) (str "px") ++ str ");") 3
    (mkState [] [])
  = with_widget (str "panel")
      (fun w => set_lineEnd 3 (set_size (SNum 200) (SNum 100) w))
      (mkState [] []).
Proof.
  apply (size_statement_read (str "    ") (str "panel") 200 100
           (str "px") (str "px") 3 (mkState [] [])).
  - repeat constructor.
  - apply wordb_sound. reflexivity.
  - reflexivity.
  - reflexivity.
  - discriminate.
  - discriminate.
Defined.

(** X20: The parser has no pattern for lv_obj_set_pos: a generated position
    statement leaves the parser state unchanged, so an absolute position is
    not read back. *)
Theorem position_statement_ignored (sp v : jstring) (x y : Z) (i : nat)
    (st : pstate) :
  Forall (fun c => is_space c = true) sp -> all_word v ->
  processLine
    (sp ++ str "lv_obj_set_pos(" ++ v ++ str ", " ++ string_of_Z x
     ++ str ", " ++ string_of_Z y ++ str ");") i st
  = st.
Proof.
  intros Hsp Hv.
  set (args := v ++ str ", " ++ string_of_Z x ++ str ", "
               ++ string_of_Z y ++ str ");").
  assert (HX : no_char "(" []) by constructor.
  assert (Ht : no_char "(" (str "lv_obj_set_pos")) by no_paren.
  assert (Ha : no_char "(" args) by (unfold args; no_paren).
  pose proof (call_patterns_none [] _ args HX Ht Ha) as N.
  unfold processLine.
  rewrite (trim_line sp _ "l" (str "v_obj_set_pos(" ++ args))
    by first [ exact Hsp | reflexivity | dark ].
  fold args. skip_blocks N. reflexivity.
Qed.

Lemma position_statement_ignored_witness :
  processLine
    (str "    " ++ str "lv_obj_set_pos(" ++ str "panel" ++ str ", "
     ++ string_of_Z 10 ++ str ", " ++ string_of_Z 20 ++ str ");") 1
    (processLine (str "panel = lv_obj_create(parent);") 0 (mkState [] []))
  = processLine (str "panel = lv_obj_create(parent);") 0 (mkState [] []).
Proof.
  apply (position_statement_ignored (str "    ") (str "panel") 10 20).
  - repeat constructor.
  - apply wordb_sound. reflexivity.
Defined.

Lemma alignRe_call (v al xs ys : jstring) :
  all_word v -> arg al -> arg xs -> arg ys ->
  re_match alignRe
    (str "lv_obj_align(" ++ v ++ str ", " ++ al ++ str ", " ++ xs
     ++ str ", " ++ ys ++ str ");")
  = Some [v; al; xs; ys].
Proof.
  intros Hv H1 H2 H3. apply re_match_here. unfold alignRe, L.
  rewrite items_lit.
  apply items_word; [exact Hv | reflexivity|].
  apply (items_comma_arg ","); [exact H1 | apply arg_no; auto|].
  apply (items_comma_arg ","); [exact H2 | apply arg_no; auto|].
  apply (items_comma_arg ")"); [exact H3 | apply arg_no; auto|].
  reflexivity.
Qed.

Lemma centerRe_call (v : jstring) :
  all_word v ->
  re_match centerRe (str "lv_obj_center(" ++ v ++ str ");") = Some [v].
Proof.
  intros Hv. apply re_match_here. unfold centerRe, L.
  rewrite items_lit.
  apply items_word; [exact Hv | reflexivity|]. reflexivity.
Qed.

Lemma int_or_zero_string (n : Z) : int_or_zero (string_of_Z n) = n.
Proof. unfold int_or_zero. rewrite parseInt_string_of_Z. reflexivity. Qed.

(** X21: The parser reads a generated lv_obj_align statement back as the
    property align and the position x, y of the widget named (x and y below
    2^53 in absolute value), and a generated lv_obj_center statement as the
    property align with the value LV_ALIGN_CENTER; both set the widget's end
    line. *)
Theorem layout_statements_read (sp v : jstring) (i : nat) (st : pstate) :
  Forall (fun c => is_space c = true) sp -> all_word v ->
  (forall al x y,
     arg al -> (Z.abs x < 2 ^ 53)%Z -> (Z.abs y < 2 ^ 53)%Z ->
     processLine
       (sp ++ str "lv_obj_align(" ++ v ++ str ", " ++ al ++ str ", "
        ++ string_of_Z x ++ str ", " ++ string_of_Z y ++ str ");") i st
     = with_widget v
         (fun w => set_lineEnd i
                     (set_position x y (set_property (str "align") al w)))
         st)
  /\ processLine (sp ++ str "lv_obj_center(" ++ v ++ str ");") i st
     = with_widget v
         (fun w => set_lineEnd i
                     (set_property (str "align") (str "LV_ALIGN_CENTER") w))
         st.
Proof.
  intros Hsp Hv.
  assert (HX : no_char "(" []) by constructor.
  split.
  - intros al x y Hal _ _.
    set (args := v ++ str ", " ++ al ++ str ", " ++ string_of_Z x
                 ++ str ", " ++ string_of_Z y ++ str ");").
    assert (Ht : no_char "(" (str "lv_obj_align")) by no_paren.
    assert (Ha : no_char "(" args) by (unfold args; no_paren).
    pose proof (call_patterns_none [] _ args HX Ht Ha) as N.
    unfold processLine.
    rewrite (trim_line sp _ "l" (str "v_obj_align(" ++ args))
      by first [ exact Hsp | reflexivity | dark ].
    fold args. skip_blocks N.
    unfold alignSetter, args.
    rewrite alignRe_call by (exact Hv || exact Hal || apply int_arg).
    rewrite (arg_trim al Hal), !arg_trim by apply int_arg.
    rewrite !int_or_zero_string. reflexivity.
  - set (args := v ++ str ");").
    assert (Ht : no_char "(" (str "lv_obj_center")) by no_paren.
    assert (Ha : no_char "(" args) by (unfold args; no_paren).
    pose proof (call_patterns_none [] _ args HX Ht Ha) as N.
    unfold processLine.
    rewrite (trim_line sp _ "l" (str "v_obj_center(" ++ args))
      by first [ exact Hsp | reflexivity | dark ].
    fold args. skip_blocks N.
    unfold centerSetter, args. rewrite centerRe_call by exact Hv.
    reflexivity.
Qed.

Lemma items_kind_text (kind : jstring) (r : regex) (s : jstring)
    (caps res : list jstring) :
  all_word kind -> match_items r s caps = Some res ->
  match_items (A W :: A (L "_set_text(") :: r)
    (kind ++ str "_set_text(" ++ s) caps = Some res.
Proof.
  intros Hk H. cbn [match_items]. apply plus_app_some; [exact Hk|].
  cbn. rewrite H. reflexivity.
Qed.

Lemma items_kind_value (kind : jstring) (r : regex) (s : jstring)
    (caps res : list jstring) :
  all_word kind -> match_items r s caps = Some res ->
  match_items (A W :: A (L "_set_value(") :: r)
    (kind ++ str "_set_value(" ++ s) caps = Some res.
Proof.
  intros Hk H. cbn [match_items]. apply plus_app_some; [exact Hk|].
  cbn. rewrite H. reflexivity.
Qed.

Lemma items_kind_range (kind : jstring) (r : regex) (s : jstring)
    (caps res : list jstring) :
  all_word kind -> match_items r s caps = Some res ->
  match_items (A W :: A (L "_set_range(") :: r)
    (kind ++ str "_set_range(" ++ s) caps = Some res.
Proof.
  intros Hk H. cbn [match_items]. apply plus_app_some; [exact Hk|].
  cbn. rewrite H. reflexivity.
Qed.

Lemma valueRe_call (kind v val : jstring) :
  all_word kind -> all_word v -> arg val ->
  re_match valueRe
    (str "lv_" ++ kind ++ str "_set_value(" ++ v ++ str ", " ++ val
     ++ str ");")
  = Some [v; val].
Proof.
  intros Hk Hv Ha. apply re_match_here. unfold valueRe.
  unfold L at 1. rewrite items_lit.
  apply items_kind_value; [exact Hk|].
  apply items_word; [exact Hv | reflexivity|].
  apply (items_comma_arg ")"); [exact Ha | apply arg_no; auto|].
  reflexivity.
Qed.

Lemma rangeRe_call (kind v mn mx : jstring) :
  all_word kind -> all_word v -> arg mn -> arg mx ->
  re_match rangeRe
    (str "lv_" ++ kind ++ str "_set_range(" ++ v ++ str ", " ++ mn
     ++ str ", " ++ mx ++ str ");")
  = Some [v; mn; mx].
Proof.
  intros Hk Hv H1 H2. apply re_match_here. unfold rangeRe.
  unfold L at 1. rewrite items_lit.
  apply items_kind_range; [exact Hk|].
  apply items_word; [exact Hv | reflexivity|].
  apply (items_comma_arg ","); [exact H1 | apply arg_no; auto|].
  apply (items_comma_arg ")"); [exact H2 | apply arg_no; auto|].
  reflexivity.
Qed.

Lemma items_comma_space (r : regex) (c : ascii) (s : jstring)
    (caps res : list jstring) :
  is_space c = false ->
  match_items r (c :: s) caps = Some res ->
  match_items (A (L ",") :: A S0 :: r) (","%char :: " "%char :: c :: s) caps
  = Some res.
Proof.
  intros Hc H.
  change (","%char :: " "%char :: c :: s) with ([","%char] ++ " "%char :: c :: s).
  unfold L. change (str ",") with [","%char]. rewrite items_lit.
  apply items_space1; assumption.
Qed.

Lemma items_char (c : ascii) (r : regex) (s : jstring) (caps : list jstring) :
  match_items (A (Lit [c]) :: r) (c :: s) caps = match_items r s caps.
Proof. apply (items_lit [c]). Qed.

Lemma textRe_call (kind v t : jstring) :
  all_word kind -> all_word v -> t <> [] -> no_char dquote t ->
  re_match textRe
    (str "lv_" ++ kind ++ str "_set_text(" ++ v ++ str ", "
     ++ [dquote] ++ t ++ [dquote] ++ str ");")
  = Some [v; t].
Proof.
  intros Hk Hv Hne Ht. apply re_match_here. unfold textRe.
  unfold L at 1. rewrite items_lit.
  apply items_kind_text; [exact Hk|].
  apply items_word; [exact Hv | reflexivity|].
  apply items_comma_space; [reflexivity|].
  rewrite items_char.
  apply (items_plus (is_not dquote)); [exact Hne | | reflexivity |].
  - eapply Forall_impl; [exact Ht|]. intros c Hc. apply is_not_neq, Hc.
  - reflexivity.
Qed.

(** X22: The parser reads a generated lv_label_set_text statement back as
    the property text of the widget named, for a non-empty text that holds
    no double quote and no opening parenthesis, and sets the widget's end
    line. *)
Theorem text_statement_read (sp v t : jstring) (i : nat) (st : pstate) :
  Forall (fun c => is_space c = true) sp -> all_word v ->
  t <> [] -> no_char dquote t -> no_char "(" t ->
  processLine
    (sp ++ str "lv_label_set_text(" ++ v ++ str ", "
     ++ [dquote] ++ t ++ [dquote] ++ str ");") i st
  = with_widget v
      (fun w => set_lineEnd i (set_property (str "text") t w)) st.
Proof.
  intros Hsp Hv Hne Hq Hp.
  set (args := v ++ str ", " ++ [dquote] ++ t ++ [dquote] ++ str ");").
  assert (HX : no_char "(" []) by constructor.
  assert (Ht : no_char "(" (str "lv_label_set_text")) by no_paren.
  assert (Ha : no_char "(" args) by (unfold args; no_paren).
  pose proof (call_patterns_none [] _ args HX Ht Ha) as N.
  unfold processLine.
  rewrite (trim_line sp _ "l" (str "v_label_set_text(" ++ args))
    by first [ exact Hsp | reflexivity | dark ].
  fold args. skip_blocks N.
  unfold textSetter, args.
  change (str "lv_label_set_text(" ++ ?x)
    with (str "lv_" ++ str "label" ++ str "_set_text(" ++ x).
  rewrite textRe_call
    by first [ exact Hv | exact Hne | exact Hq
             | apply wordb_sound; reflexivity ].
  reflexivity.
Qed.

Lemma text_statement_read_witness :
  processLine
    (str "    " ++ str "lv_label_set_text(" ++ str "title" ++ str ", "
     ++ [dquote] ++ str "Hello, world" ++ [dquote] ++ str ");") 1
    (processLine (str "title = lv_label_create(parent);") 0 (mkState [] []))
  = with_widget (str "title")
      (fun w => set_lineEnd 1
                  (set_property (str "text") (str "Hello, world") w))
      (processLine (str "title = lv_label_create(parent);") 0
         (mkState [] [])).
Proof.
  apply (text_statement_read (str "    ") (str "title") (str "Hello, world")).
  - repeat constructor.
  - apply wordb_sound. reflexivity.
  - discriminate.
  - repeat constructor; discriminate.
  - repeat constructor; discriminate.
Defined.

(** X23: The parser reads a generated set_value statement back as the
    property value, and a generated set_range statement as the properties
    range_min and range_max, of the widget named, for arguments without
    white space, comma and parentheses; both set the widget's end line. *)
Theorem value_statements_read (sp kind v : jstring) (i : nat) (st : pstate) :
  Forall (fun c => is_space c = true) sp -> all_word kind -> all_word v ->
  (forall val,
     arg val ->
     processLine
       (sp ++ str "lv_" ++ kind ++ str "_set_value(" ++ v ++ str ", "
        ++ val ++ str ");") i st
     = with_widget v
         (fun w => set_lineEnd i (set_property (str "value") val w)) st)
  /\ (forall mn mx,
        arg mn -> arg mx ->
        processLine
          (sp ++ str "lv_" ++ kind ++ str "_set_range(" ++ v ++ str ", "
           ++ mn ++ str ", " ++ mx ++ str ");") i st
        = with_widget v
            (fun w => set_lineEnd i
                        (set_property (str "range_max") mx
                           (set_property (str "range_min") mn w))) st).
Proof.
  intros Hsp Hk Hv.
  assert (HX : no_char "(" (str "lv_" ++ kind)) by no_paren.
  split.
  - intros val Hval.
    set (args := v ++ str ", " ++ val ++ str ");").
    assert (Ht : no_char "(" (str "_set_value")) by no_paren.
    assert (Ha : no_char "(" args) by (unfold args; no_paren).
    pose proof (call_patterns_none _ _ args HX Ht Ha) as N.
    unfold processLine.
    rewrite (trim_line sp _ "l"
               (str "v_" ++ kind ++ str "_set_value(" ++ args))
      by first [ exact Hsp | reflexivity | dark ].
    replace (str "lv_" ++ kind ++ str "_set_value(" ++ args)
      with ((str "lv_" ++ kind) ++ str "_set_value" ++ "("%char :: args)
      by (rewrite <- app_assoc; reflexivity).
    skip_blocks N.
    unfold valueSetter, args.
    replace ((str "lv_" ++ kind) ++ str "_set_value"
             ++ "("%char :: v ++ str ", " ++ val ++ str ");")
      with (str "lv_" ++ kind ++ str "_set_value(" ++ v ++ str ", " ++ val
            ++ str ");")
      by (rewrite <- app_assoc; reflexivity).
    rewrite valueRe_call by assumption.
    rewrite (arg_trim val Hval). reflexivity.
  - intros mn mx Hmn Hmx.
    set (args := v ++ str ", " ++ mn ++ str ", " ++ mx ++ str ");").
    assert (Ht : no_char "(" (str "_set_range")) by no_paren.
    assert (Ha : no_char "(" args) by (unfold args; no_paren).
    pose proof (call_patterns_none _ _ args HX Ht Ha) as N.
    unfold processLine.
    rewrite (trim_line sp _ "l"
               (str "v_" ++ kind ++ str "_set_range(" ++ args))
      by first [ exact Hsp | reflexivity | dark ].
    replace (str "lv_" ++ kind ++ str "_set_range(" ++ args)
      with ((str "lv_" ++ kind) ++ str "_set_range" ++ "("%char :: args)
      by (rewrite <- app_assoc; reflexivity).
    skip_blocks N.
    unfold rangeSetter, args.
    replace ((str "lv_" ++ kind) ++ str "_set_range"
             ++ "("%char :: v ++ str ", " ++ mn ++ str ", " ++ mx
             ++ str ");")
      with (str "lv_" ++ kind ++ str "_set_range(" ++ v ++ str ", " ++ mn
            ++ str ", " ++ mx ++ str ");")
      by (rewrite <- app_assoc; reflexivity).
    rewrite rangeRe_call by assumption.
    rewrite (arg_trim mn Hmn), (arg_trim mx Hmx). reflexivity.
Qed.

Lemma value_statements_read_witness :
  processLine
    (str "    " ++ str "lv_" ++ str "arc" ++ str "_set_value("
     ++ str "gauge" ++ str ", " ++ str "75" ++ str ");") 1
    (processLine (str "gauge = lv_arc_create(parent);") 0 (mkState [] []))
  = with_widget (str "gauge")
      (fun w => set_lineEnd 1 (set_property (str "value") (str "75") w))
      (processLine (str "gauge = lv_arc_create(parent);") 0 (mkState [] [])).
Proof.
  refine (proj1 (value_statements_read (str "    ") (str "arc") (str "gauge")
                   1 _ _ _ _) (str "75") _).
  - repeat constructor.
  - apply wordb_sound. reflexivity.
  - apply wordb_sound. reflexivity.
  - apply argb_sound. reflexivity.
Defined.

Lemma layout_statements_read_witness :
  processLine
    (str "    " ++ str "lv_obj_align(" ++ str "title" ++ str ", "
     ++ str "LV_ALIGN_TOP_MID" ++ str ", " ++ string_of_Z 0 ++ str ", "
     ++ string_of_Z 12 ++ str ");") 1
    (processLine (str "title = lv_label_create(parent);") 0 (mkState [] []))
  = with_widget (str "title")
      (fun w => set_lineEnd 1
                  (set_position 0 12
                     (set_property (str "align") (str "LV_ALIGN_TOP_MID")
                        w)))
      (processLine (str "title = lv_label_create(parent);") 0
         (mkState [] [])).
Proof.
  refine (proj1 (layout_statements_read (str "    ") (str "title") 1 _ _ _)
            (str "LV_ALIGN_TOP_MID") 0%Z 12%Z _ _ _).
  - repeat constructor.
  - apply wordb_sound. reflexivity.
  - apply argb_sound. reflexivity.
  - reflexivity.
  - reflexivity.
Defined.







(** X25: Generated style statements for bg_color, text_color and bg_opa
    whose value has no parentheses, as the values of an imported widget
    have, leave the parser state unchanged: the colour patterns of the
    parser require a call of lv_color_hex, which the importer drops, and
    there is no pattern for bg_opa. *)
Theorem style_statements_ignored (sp v val : jstring) (i : nat)
    (st : pstate) :
  Forall (fun c => is_space c = true) sp -> all_word v -> arg val ->
  processLine
    (sp ++ str "lv_obj_set_style_bg_color(" ++ v ++ str ", " ++ val
     ++ str ", 0);") i st = st
  /\ processLine
       (sp ++ str "lv_obj_set_style_text_color(" ++ v ++ str ", " ++ val
        ++ str ", 0);") i st = st
  /\ processLine
       (sp ++ str "lv_obj_set_style_bg_opa(" ++ v ++ str ", " ++ val
        ++ str ", 0);") i st = st.
Proof.
  intros Hsp Hv Hval.
  set (args := v ++ str ", " ++ val ++ str ", 0);").
  assert (HX : no_char "(" []) by constructor.
  assert (Ha : no_char "(" args) by (unfold args; no_paren).
  split; [|split].
  - assert (Ht : no_char "(" (str "lv_obj_set_style_bg_color")) by no_paren.
    pose proof (call_patterns_none [] _ args HX Ht Ha) as N.
    unfold processLine.
    rewrite (trim_line sp _ "l" (str "v_obj_set_style_bg_color(" ++ args))
      by first [ exact Hsp | reflexivity | dark ].
    fold args. skip_blocks N.
    rewrite style_setter_none; [reflexivity|].
    apply (call_no_match bgColorRe (str "lv_color_hex") []
             (str "lv_obj_set_style_bg_color") args);
      [simpl; tauto | reflexivity | assumption..].
  - assert (Ht : no_char "(" (str "lv_obj_set_style_text_color"))
      by no_paren.
    pose proof (call_patterns_none [] _ args HX Ht Ha) as N.
    unfold processLine.
    rewrite (trim_line sp _ "l" (str "v_obj_set_style_text_color(" ++ args))
      by first [ exact Hsp | reflexivity | dark ].
    fold args. skip_blocks N.
    rewrite style_setter_none; [reflexivity|].
    apply (call_no_match textColorRe (str "lv_color_hex") []
             (str "lv_obj_set_style_text_color") args);
      [simpl; tauto | reflexivity | assumption..].
  - assert (Ht : no_char "(" (str "lv_obj_set_style_bg_opa")) by no_paren.
    pose proof (call_patterns_none [] _ args HX Ht Ha) as N.
    unfold processLine.
    rewrite (trim_line sp _ "l" (str "v_obj_set_style_bg_opa(" ++ args))
      by first [ exact Hsp | reflexivity | dark ].
    fold args. skip_blocks N. reflexivity.
Qed.

Lemma style_statements_ignored_witness :
  processLine
    (str "    " ++ str "lv_obj_set_style_bg_color(" ++ str "panel"
     ++ str ", " ++ str "0x001122" ++ str ", 0);") 1
    (processLine (str "panel = lv_obj_create(parent);") 0 (mkState [] []))
  = processLine (str "panel = lv_obj_create(parent);") 0 (mkState [] []).
Proof.
  refine (proj1 (style_statements_ignored (str "    ") (str "panel")
                   (str "0x001122") 1 _ _ _ _)).
  - repeat constructor.
  - apply wordb_sound. reflexivity.
  - apply argb_sound. reflexivity.
Defined.

(** ** Alignment constants through import and export *)

Lemma hyphen_not_inherited (l t : jstring) :
  ~ In (l ++ str "-" ++ t) inheritedNames.
Proof.
  intros H.
  assert (N : Forall (no_char "-") inheritedNames).
  { unfold inheritedNames. simpl.
    repeat (constructor; [repeat constructor; discriminate|]). constructor. }
  rewrite List.Forall_forall in N. specialize (N _ H).
  unfold no_char in N. rewrite !Forall_app in N.
  destruct N as (_ & N & _). inversion N; subst. congruence.
Qed.

(** X26: Of the nine alignment constants of the exporter's table, five
    (CENTER and the four corners) are imported to units from which
    getAlignment gives the same constant back; TOP_MID and BOTTOM_MID are
    imported with the left unit px, so the exporter writes an absolute
    position instead; LEFT_MID and RIGHT_MID come back as LV_ALIGN_TOP_LEFT.
    Whatever the units, getAlignment returns a constant of its table. *)
Theorem alignment_units_round_trip :
  Forall (fun c => jeqb (fst (unitsOf c)) (str "px") = false
                   /\ alignmentBack c = c)
    (map str ["LV_ALIGN_CENTER"; "LV_ALIGN_TOP_LEFT"; "LV_ALIGN_TOP_RIGHT";
              "LV_ALIGN_BOTTOM_LEFT"; "LV_ALIGN_BOTTOM_RIGHT"]%string)
  /\ Forall (fun c => fst (unitsOf c) = str "px")
       (map str ["LV_ALIGN_TOP_MID"; "LV_ALIGN_BOTTOM_MID"]%string)
  /\ Forall (fun c => jeqb (fst (unitsOf c)) (str "px") = false
                      /\ alignmentBack c = str "LV_ALIGN_TOP_LEFT")
       (map str ["LV_ALIGN_LEFT_MID"; "LV_ALIGN_RIGHT_MID"]%string)
  /\ forall leftUnit topUnit,
       In (getAlignment leftUnit topUnit)
         (map (fun kv => str (snd kv)) alignmentTable).
Proof.
  split; [|split; [|split]].
  - repeat constructor; vm_compute; reflexivity.
  - repeat constructor; vm_compute; reflexivity.
  - repeat constructor; vm_compute; reflexivity.
  - intros l t. unfold getAlignment, lookup_or.
    rewrite (map_get_notin _ (map _ objectPrototype))
      by (rewrite map_map; apply hyphen_not_inherited).
    destruct (map_get _ (map _ alignmentTable)) as [v|] eqn:E.
    + apply map_get_value in E. rewrite map_map in E. simpl in E.
      repeat (destruct E as [<-|E]; [vm_compute; tauto|]). destruct E.
    + vm_compute. tauto.
Qed.
